(** * Verification of the mobile accessibility scanner

    A shallow embedding of [ComprehensiveMobileAccessibilityScanner]
    from [mobileAccessibility.py]: the rule catalog loader, the element
    model builder, the geometric rule checks, the deduplication pass and
    the audit score.

    Python dictionaries used as maps are [gmap]s, the [seen] set is a
    [gset], exceptions are an explicit result type, Python integers are
    [Z], and Python floats are IEEE 754 binary64 numbers ([spec_float]
    at precision 53). *)

From Stdlib Require Import ZArith Lia String Ascii List SpecFloat QArith Qround.
From stdpp Require Import gmap strings list pretty sorting.

Local Open Scope Z_scope.

(** ** Exceptions *)

Inductive exn : Type :=
  | TypeError
  | KeyError
  | ValueError
  | OverflowError
  | ZeroDivisionError
  | JSONDecodeError.

Inductive result (A : Type) : Type :=
  | Ok (a : A)
  | Raise (e : exn).

Arguments Ok {A} a.
Arguments Raise {A} e.

(** The error monad: [x ← r; k] runs [k] on the value of [r] and
    propagates a raised exception. *)
#[global] Instance result_ret : MRet result := fun A a => Ok a.
#[global] Instance result_bind : MBind result := fun A B k r =>
  match r with
  | Ok a => k a
  | Raise e => Raise e
  end.

(** ** Values stored in rule definitions and findings

    The scalars that the modelled code reads from a rule definition or
    stores in a finding: [None], booleans, integers and strings. *)

Inductive value : Type :=
  | VNone
  | VBool (b : bool)
  | VInt (n : Z)
  | VStr (s : string).

#[global] Instance value_eq_dec : EqDecision value.
Proof. solve_decision. Defined.

(** A rule definition is a dictionary from field name to value, and the
    catalog a dictionary from rule id to rule definition. *)

Abbreviation rule_def := (gmap string value).
Abbreviation catalog := (gmap string (gmap string value)).

(** [d.get(k, dflt)] *)
Definition dict_get (d : gmap string value) (k : string) (dflt : value) : value :=
  match d !! k with
  | Some v => v
  | None => dflt
  end.

(** [self.rules[rule_id]] *)
Definition rules_item (rules : catalog) (rule_id : string) : result (gmap string value) :=
  match rules !! rule_id with
  | Some r => Ok r
  | None => Raise KeyError
  end.

(** ** Bounds, elements and findings *)

(** [(x1, y1, x2, y2)] *)
Definition bounds : Type := Z * Z * Z * Z.

(** The ["bounds"] entry of a finding dictionary: the key may be absent,
    hold [None], or hold a rectangle. *)
Inductive bounds_entry : Type :=
  | BoundsAbsent
  | BoundsNone
  | BoundsRect (b : bounds).

Definition entry_of_bounds (b : option bounds) : bounds_entry :=
  match b with
  | Some r => BoundsRect r
  | None => BoundsNone
  end.

(** The [element_data] dictionary built for each UI-tree node. *)
Record element : Type := mk_element {
  el_bounds : option bounds;
  el_text : string;
  el_content_desc : string;
  el_clickable : bool;
  el_focusable : bool;
  el_long_clickable : bool;
  el_checkable : bool;
  el_checked : bool;
  el_class : string;
  el_resource_id : string;
  el_package : string;
  el_xpath : string
}.

(** A finding dictionary as the rule checks build it. The fields that
    the enrichment loop copies from the catalog afterwards are not read
    by the deduplication pass nor by the score. *)
Record issue : Type := mk_issue {
  is_rule : string;
  is_priority : value;
  is_message : string;
  is_bounds : bounds_entry;
  is_xpath : string;
  is_resource_id : string;
  is_guideline : string
}.

(** ** Deduplication pass of [analyze_accessibility] *)

(** [tuple(i.get("bounds", ()))]: the default [()] covers an absent key
    only; [tuple(None)] raises [TypeError]. *)
Definition bounds_tuple (b : bounds_entry) : result (list Z) :=
  match b with
  | BoundsAbsent => Ok []
  | BoundsNone => Raise TypeError
  | BoundsRect (x1, y1, x2, y2) => Ok [x1; y1; x2; y2]
  end.

(** [key = (tuple(i.get("bounds", ())), i["rule"])] *)
Definition dedup_key (i : issue) : result (list Z * string) :=
  t ← bounds_tuple (is_bounds i);
  Ok (t, is_rule i).

(** The loop [for i in issues], threading [unique] and [seen]. *)
Fixpoint dedup_loop (issues unique : list issue) (seen : gset (list Z * string))
  : result (list issue) :=
  match issues with
  | [] => Ok unique
  | i :: rest =>
      key ← dedup_key i;
      if decide (key ∈ seen)
      then dedup_loop rest unique seen
      else dedup_loop rest (unique ++ [i]) (seen ∪ {[key]})
  end.

Definition deduplicate (issues : list issue) : result (list issue) :=
  dedup_loop issues [] ∅.

(** Every finding of [l] has a key, the keys are pairwise different and
    none of them is in [seen]. *)
Fixpoint distinct_from (seen : gset (list Z * string)) (l : list issue) : Prop :=
  match l with
  | [] => True
  | i :: rest =>
      exists key, dedup_key i = Ok key /\ (key ∉ seen)
                  /\ distinct_from (seen ∪ {[key]}) rest
  end.

(** ** Strings *)

(** Truth value of a Python string: non-empty. *)
Definition nonempty (s : string) : bool :=
  match s with
  | EmptyString => false
  | String _ _ => true
  end.

(** Strings are sequences of characters with code points below 256.
    [str.isspace] on such a character: tab to carriage return, the
    separators 28 to 31, the space, NEL (133) and the no-break space
    (160). *)
Definition is_space (c : ascii) : bool :=
  let n := nat_of_ascii c in
  ((9 <=? n)%nat && (n <=? 13)%nat) || ((28 <=? n)%nat && (n <=? 32)%nat)
  || (n =? 133)%nat || (n =? 160)%nat.

Fixpoint lstrip (s : string) : string :=
  match s with
  | EmptyString => EmptyString
  | String c r => if is_space c then lstrip r else s
  end.

Fixpoint rstrip (s : string) : string :=
  match s with
  | EmptyString => EmptyString
  | String c r =>
      let r' := rstrip r in
      if is_space c && negb (nonempty r') then EmptyString else String c r'
  end.

(** [s.strip()] *)
Definition strip (s : string) : string := rstrip (lstrip s).

(** [s.split(sep)] for a one-character separator; [cur] is the piece
    being read. *)
Fixpoint split_on (sep : ascii) (s cur : string) : list string :=
  match s with
  | EmptyString => [cur]
  | String c r =>
      if Ascii.eqb c sep then cur :: split_on sep r EmptyString
      else split_on sep r (cur +:+ String c EmptyString)
  end.

(** [s.split(sep)[-1]] *)
Fixpoint last_segment (sep : ascii) (s cur : string) : string :=
  match s with
  | EmptyString => cur
  | String c r =>
      if Ascii.eqb c sep then last_segment sep r EmptyString
      else last_segment sep r (cur +:+ String c EmptyString)
  end.

(** [s.replace("][", ",")] *)
Fixpoint replace_bracket_pair (s : string) : string :=
  match s with
  | EmptyString => EmptyString
  | String c r =>
      match r with
      | String c' r' =>
          if Ascii.eqb c "]" && Ascii.eqb c' "["
          then String "," (replace_bracket_pair r')
          else String c (replace_bracket_pair r)
      | EmptyString => String c EmptyString
      end
  end.

(** [s.replace(c, "")] *)
Fixpoint remove_char (c : ascii) (s : string) : string :=
  match s with
  | EmptyString => EmptyString
  | String c' r =>
      if Ascii.eqb c' c then remove_char c r else String c' (remove_char c r)
  end.

(** [sub in s] *)
Fixpoint is_prefix (p s : string) : bool :=
  match p, s with
  | EmptyString, _ => true
  | String a p', String b s' => Ascii.eqb a b && is_prefix p' s'
  | String _ _, EmptyString => false
  end.

Fixpoint contains (sub s : string) : bool :=
  is_prefix sub s ||
  match s with
  | EmptyString => false
  | String _ r => contains sub r
  end.

Definition digit_of (c : ascii) : option Z :=
  let n := nat_of_ascii c in
  if (48 <=? n)%nat && (n <=? 57)%nat then Some (Z.of_nat n - 48) else None.

(** The digits of an integer literal as [int()] reads them: decimal
    digits, single underscores allowed between digits. *)
Fixpoint parse_digits (s : string) (acc : Z) (after_digit : bool) : option Z :=
  match s with
  | EmptyString => if after_digit then Some acc else None
  | String c r =>
      if Ascii.eqb c "_" then
        if after_digit then parse_digits r acc false else None
      else
        match digit_of c with
        | Some d => parse_digits r (10 * acc + d) true
        | None => None
        end
  end.

(** [int(s)]: surrounding whitespace, an optional sign, then the
    digits; [None] stands for [ValueError]. *)
Definition py_int (s : string) : option Z :=
  match strip s with
  | String c r =>
      if Ascii.eqb c "+" then parse_digits r 0 false
      else if Ascii.eqb c "-" then Z.opp <$> parse_digits r 0 false
      else parse_digits (String c r) 0 false
  | EmptyString => None
  end.

(** [parse_bounds]: any exception inside the [try] yields [None]. *)
Definition parse_bounds (bounds_str : string) : option bounds :=
  let parts :=
    split_on "," (remove_char "]" (remove_char "[" (replace_bracket_pair bounds_str)))
             EmptyString in
  match parts with
  | [p1; p2; p3; p4] =>
      x1 ← py_int p1; y1 ← py_int p2; x2 ← py_int p3; y2 ← py_int p4;
      Some (Z.min x1 x2, Z.min y1 y2, Z.max x1 x2, Z.max y1 y2)
  | _ => None
  end.

(** ** Element model builder *)

(** A [node] of the UI tree: its attribute dictionary, and the path
    [element.getroottree().getpath(element)] that lxml computes for it. *)
Record node : Type := mk_node {
  attrib : gmap string string;
  tree_path : string
}.

(** [node.attrib.get(k, dflt)] *)
Definition attr (n : node) (k dflt : string) : string :=
  match attrib n !! k with
  | Some v => v
  | None => dflt
  end.

(** [get_formatted_xpath]; the [except] branch, which returns [""], is
    not reached: reading attributes with a default does not raise. *)
Definition get_formatted_xpath (element : node) : string :=
  let standard_xpath := tree_path element in
  let class_name := last_segment "." (attr element "class" "") "" in
  let text := attr element "text" "" in
  let content_desc := attr element "content-desc" "" in
  let resource_id := attr element "resource-id" "" in
  if nonempty resource_id then
    "//" +:+ class_name +:+ "[@resource-id='" +:+ resource_id +:+ "']"
  else if nonempty content_desc then
    "//" +:+ class_name +:+ "[@content-desc='" +:+ content_desc +:+ "']"
  else if nonempty text then
    "//" +:+ class_name +:+ "[@text='" +:+ text +:+ "']"
  else standard_xpath.

(** [coords = self.parse_bounds(bounds_str) if bounds_str else None] *)
Definition node_coords (n : node) : option bounds :=
  match attrib n !! "bounds" with
  | Some bounds_str => if nonempty bounds_str then parse_bounds bounds_str else None
  | None => None
  end.

Definition is_true (s : string) : bool := bool_decide (s = "true").

(** The [element_data] built in the first pass of
    [analyze_accessibility]. *)
Definition element_data (n : node) : element :=
  let coords := node_coords n in
  {| el_bounds := coords;
     el_text := strip (attr n "text" "");
     el_content_desc := strip (attr n "content-desc" "");
     el_clickable := is_true (attr n "clickable" "false");
     el_focusable := is_true (attr n "focusable" "false");
     el_long_clickable := is_true (attr n "long-clickable" "false");
     el_checkable := is_true (attr n "checkable" "false");
     el_checked := is_true (attr n "checked" "false");
     el_class := attr n "class" "";
     el_resource_id := attr n "resource-id" "";
     el_package := attr n "package" "";
     el_xpath := match coords with
                 | Some _ => get_formatted_xpath n
                 | None => ""
                 end |}.

Definition is_form_element (element_data : element) : bool :=
  let class_name := el_class element_data in
  existsb (fun form_class => contains form_class class_name)
    ["EditText"; "Spinner"; "CheckBox"; "RadioButton"; "Switch"; "SeekBar"].

(** The four collections filled by the first pass. *)
Record collected : Type := mk_collected {
  all_elements : list element;
  clickable_elements : list element;
  focusable_elements : list element;
  form_elements : list element
}.

Definition collect_elements (nodes : list node) : collected :=
  let all := element_data <$> nodes in
  {| all_elements := all;
     clickable_elements := List.filter el_clickable all;
     focusable_elements := List.filter el_focusable all;
     form_elements := List.filter is_form_element all |}.

(** ** Rule checks *)

(** [str(v)] *)
Definition py_str (v : value) : string :=
  match v with
  | VNone => "None"
  | VBool true => "True"
  | VBool false => "False"
  | VInt n => pretty n
  | VStr s => s
  end.

(** [a < v] for an integer [a]: integers and booleans compare, anything
    else raises [TypeError]. *)
Definition int_lt (a : Z) (v : value) : result bool :=
  match v with
  | VInt n => Ok (a <? n)
  | VBool b => Ok (a <? (if b then 1 else 0))
  | VNone | VStr _ => Raise TypeError
  end.

(** *** [check_missing_labels] *)

Fixpoint check_missing_labels_loop (rules : catalog) (elements : list element)
    (issues : list issue) : result (list issue) :=
  match elements with
  | [] => Ok issues
  | element :: rest =>
      if negb (nonempty (el_text element)) && negb (nonempty (el_content_desc element)) then
        rule ← rules_item rules "missing-labels";
        check_missing_labels_loop rules rest
          (issues ++ [ {| is_rule := "missing-labels";
                          is_priority := dict_get rule "priority" (VStr "critical");
                          is_message := "Clickable element has no visible label or content description";
                          is_bounds := entry_of_bounds (el_bounds element);
                          is_xpath := el_xpath element;
                          is_resource_id := el_resource_id element;
                          is_guideline := "WCAG 1.3.1 - Info and Relationships" |} ])
      else check_missing_labels_loop rules rest issues
  end.

Definition check_missing_labels (rules : catalog)
    (all_elements clickable_elements focusable_elements form_elements : list element)
    (screenshot_file : string) : result (list issue) :=
  check_missing_labels_loop rules clickable_elements [].

(** *** [_check_target_size] *)

(** [width < min_size or height < min_size], evaluated left to right. *)
Definition too_small (width height : Z) (min_size : value) : result bool :=
  match int_lt width min_size with
  | Ok true => Ok true
  | Ok false => int_lt height min_size
  | Raise e => Raise e
  end.

Definition target_size_issue (rule : gmap string value) (rule_id guideline : string)
    (min_size : value) (element : element) (width height : Z) : issue :=
  {| is_rule := rule_id;
     is_priority := dict_get rule "priority" (VStr "high");
     is_message := "Touch target too small " +:+ pretty width +:+ "x" +:+ pretty height
                   +:+ "px (minimum " +:+ py_str min_size +:+ "x" +:+ py_str min_size +:+ "px)";
     is_bounds := entry_of_bounds (el_bounds element);
     is_xpath := el_xpath element;
     is_resource_id := el_resource_id element;
     is_guideline := guideline |}.

Fixpoint check_target_size_loop (rule : gmap string value) (rule_id guideline : string)
    (min_size : value) (elements : list element) (issues : list issue)
  : result (list issue) :=
  match elements with
  | [] => Ok issues
  | element :: rest =>
      match el_bounds element with
      | Some (x1, y1, x2, y2) =>
          if el_clickable element then
            let width := x2 - x1 in
            let height := y2 - y1 in
            small ← too_small width height min_size;
            if (small : bool) then
              check_target_size_loop rule rule_id guideline min_size rest
                (issues ++ [target_size_issue rule rule_id guideline min_size element width height])
            else check_target_size_loop rule rule_id guideline min_size rest issues
          else check_target_size_loop rule rule_id guideline min_size rest issues
      | None => check_target_size_loop rule rule_id guideline min_size rest issues
      end
  end.

Definition _check_target_size (rules : catalog) (all_elements : list element)
    (rule_id guideline : string) : result (list issue) :=
  rule ← rules_item rules rule_id;
  let min_size := dict_get rule "min_size" (VInt 44) in
  check_target_size_loop rule rule_id guideline min_size all_elements [].

Definition check_touch_target_size (rules : catalog)
    (all_elements clickable_elements focusable_elements form_elements : list element)
    (screenshot_file : string) : result (list issue) :=
  _check_target_size rules all_elements "touch-target-size" "WCAG 2.5.5 - Target Size (Enhanced)".

Definition check_enhanced_target_size (rules : catalog)
    (all_elements clickable_elements focusable_elements form_elements : list element)
    (screenshot_file : string) : result (list issue) :=
  _check_target_size rules all_elements "enhanced-target-size" "WCAG 2.5.8 - Target Size (Minimum)".

Definition check_mobile_touch_target (rules : catalog)
    (all_elements clickable_elements focusable_elements form_elements : list element)
    (screenshot_file : string) : result (list issue) :=
  _check_target_size rules all_elements "mobile-touch-target" "WCAG M.1.1 - Touch Target Size".

(** *** [elements_overlap] and [check_overlapping_elements] *)

Definition elements_overlap (bounds1 bounds2 : bounds) : bool :=
  let '(x1, y1, x2, y2) := bounds1 in
  let '(x3, y3, x4, y4) := bounds2 in
  let overlap_x := negb ((x2 <? x3) || (x4 <? x1)) in
  let overlap_y := negb ((y2 <? y3) || (y4 <? y1)) in
  overlap_x && overlap_y.

(** The inner loop [for j in range(i+1, len(clickable_elements))]. *)
Fixpoint overlapping_inner (rules : catalog) (elem1 : element) (others : list element)
    (issues : list issue) : result (list issue) :=
  match others with
  | [] => Ok issues
  | elem2 :: rest =>
      match el_bounds elem1, el_bounds elem2 with
      | Some b1, Some b2 =>
          if elements_overlap b1 b2 then
            rule ← rules_item rules "overlapping-elements";
            overlapping_inner rules elem1 rest
              (issues ++ [ {| is_rule := "overlapping-elements";
                              is_priority := dict_get rule "priority" (VStr "medium");
                              is_message := "Clickable elements overlap and may cause touch errors";
                              is_bounds := entry_of_bounds (el_bounds elem1);
                              is_xpath := el_xpath elem1;
                              is_resource_id := el_resource_id elem1;
                              is_guideline := "WCAG 2.5.1 - Pointer Gestures" |} ])
          else overlapping_inner rules elem1 rest issues
      | _, _ => overlapping_inner rules elem1 rest issues
      end
  end.

(** The outer loop [for i in range(len(clickable_elements))]. *)
Fixpoint overlapping_outer (rules : catalog) (elements : list element)
    (issues : list issue) : result (list issue) :=
  match elements with
  | [] => Ok issues
  | elem1 :: rest =>
      issues' ← overlapping_inner rules elem1 rest issues;
      overlapping_outer rules rest issues'
  end.

Definition check_overlapping_elements (rules : catalog)
    (all_elements clickable_elements focusable_elements form_elements : list element)
    (screenshot_file : string) : result (list issue) :=
  overlapping_outer rules clickable_elements [].

(** *** [check_focus_order] *)

(** The sort key [(e["bounds"][1], e["bounds"][0])] and the order of
    Python tuples on it. *)
Definition bounds_0 (b : bounds) : Z := b.1.1.1.
Definition bounds_1 (b : bounds) : Z := b.1.1.2.

Definition focus_key (b : bounds) : Z * Z := (bounds_1 b, bounds_0 b).

Definition key_lt (k1 k2 : Z * Z) : bool :=
  (k1.1 <? k2.1) || ((k1.1 =? k2.1) && (k1.2 <? k2.2)).

(** [list.sort(key=...)] is a stable sort: an element goes after the
    elements whose key is not greater than its own. *)
Fixpoint insert_by_key (x : bounds * element) (sorted : list (bounds * element))
  : list (bounds * element) :=
  match sorted with
  | [] => [x]
  | y :: rest =>
      if key_lt (focus_key x.1) (focus_key y.1) then x :: y :: rest
      else y :: insert_by_key x rest
  end.

Definition sort_by_key (l : list (bounds * element)) : list (bounds * element) :=
  foldl (fun sorted x => insert_by_key x sorted) [] l.

(** [b] does not sort strictly before [a]. *)
Definition not_before (a b : bounds * element) : Prop :=
  key_lt (focus_key b.1) (focus_key a.1) = false.

(** [[e for e in focusable_elements if e["bounds"]]], each element paired
    with its bounds. *)
Definition with_bounds (elements : list element) : list (bounds * element) :=
  omap (fun e => (fun b => (b, e)) <$> el_bounds e) elements.

Definition has_illogical_focus_order (prev_element curr_element : bounds * element) : bool :=
  let prev_bounds := prev_element.1 in
  let curr_bounds := curr_element.1 in
  bounds_1 curr_bounds <? bounds_1 prev_bounds - 100.

(** The loop [for i in range(1, len(focusable_with_bounds))]. *)
Fixpoint focus_order_loop (rules : catalog) (prev : bounds * element)
    (rest : list (bounds * element)) (issues : list issue) : result (list issue) :=
  match rest with
  | [] => Ok issues
  | curr :: rest' =>
      if has_illogical_focus_order prev curr then
        rule ← rules_item rules "focus-order";
        focus_order_loop rules curr rest'
          (issues ++ [ {| is_rule := "focus-order";
                          is_priority := dict_get rule "priority" (VStr "high");
                          is_message := "Potential illogical focus order between elements";
                          is_bounds := BoundsRect curr.1;
                          is_xpath := el_xpath curr.2;
                          is_resource_id := el_resource_id curr.2;
                          is_guideline := "WCAG 2.4.3 - Focus Order" |} ])
      else focus_order_loop rules curr rest' issues
  end.

Definition check_focus_order (rules : catalog)
    (all_elements clickable_elements focusable_elements form_elements : list element)
    (screenshot_file : string) : result (list issue) :=
  let focusable_with_bounds := sort_by_key (with_bounds focusable_elements) in
  match focusable_with_bounds with
  | [] => Ok []
  | first :: rest => focus_order_loop rules first rest []
  end.

(** ** Rule catalog: [load_rules_config] *)

(** The [rules_config] argument: [None], a path, or a dictionary. *)
Inductive rules_config : Type :=
  | ConfigNone
  | ConfigPath (path : string)
  | ConfigDict (custom_rules : catalog).

(** One turn of the merge loop: [merged_rules[rule_id].update(rule_config)]
    when the id is known, [merged_rules[rule_id] = rule_config] otherwise.
    ([default_rules.copy()] is shallow, so the update also changes the
    default definition it overlays; the model follows the returned
    mapping only.) *)
Definition merge_rule (rule_id : string) (rule_config : gmap string value)
    (merged_rules : catalog) : catalog :=
  match merged_rules !! rule_id with
  | Some old => <[rule_id := rule_config ∪ old]> merged_rules
  | None => <[rule_id := rule_config]> merged_rules
  end.

Definition merge_rules (default_rules custom_rules : catalog) : catalog :=
  map_fold merge_rule default_rules custom_rules.

Section LoadRules.

(** [open(path, 'r')]: the text of the file, [None] for
    [FileNotFoundError]. *)
Variable read_file : string -> option string.

(** [json.load]: the parsed dictionary, [None] for
    [json.JSONDecodeError]. *)
Variable json_load : string -> option catalog.

Definition load_rules_config (default_rules : catalog) (rules_config : rules_config)
  : result catalog :=
  match rules_config with
  | ConfigNone => Ok default_rules
  | ConfigPath path =>
      match read_file path with
      | None => Ok default_rules
      | Some text =>
          match json_load text with
          | None => Raise JSONDecodeError
          | Some custom_rules => Ok (merge_rules default_rules custom_rules)
          end
      end
  | ConfigDict custom_rules => Ok (merge_rules default_rules custom_rules)
  end.

End LoadRules.

(** ** Audit score of [generate_report] *)

(** *** Python floats *)

(** [0.5] and [20.0] *)
Definition float_half : spec_float := S754_finite false 4503599627370496 (-53).
Definition float_twenty : spec_float := S754_finite false 5629499534213120 (-48).

(** [float(n)] for an integer operand of a float operation: the nearest
    double, [OverflowError] when there is none. *)
Definition float_of_int (n : Z) : result spec_float :=
  match binary_normalize 53 1024 n 0 false with
  | S754_infinity _ => Raise OverflowError
  | f => Ok f
  end.

(** [x / y] *)
Definition float_div (x y : spec_float) : result spec_float :=
  match y with
  | S754_zero _ => Raise ZeroDivisionError
  | _ => Ok (SFdiv 53 1024 x y)
  end.

(** [int(x)]: truncation toward zero. *)
Definition int_of_float (x : spec_float) : result Z :=
  match x with
  | S754_zero _ => Ok 0
  | S754_infinity _ => Raise OverflowError
  | S754_nan => Raise ValueError
  | S754_finite s m e => Ok (cond_Zopp s (Z.shiftl (Zpos m) e))
  end.

(** *** Severity summary *)

(** [summary = {"critical":0,"high":0,"medium":0,"low":0}] *)
Definition summary_init : gmap string Z :=
  {[ "critical" := 0; "high" := 0; "medium" := 0; "low" := 0 ]}.

(** [p = i.get("priority"); if p in summary: summary[p] += 1] *)
Definition count_issue (summary : gmap string Z) (i : issue) : gmap string Z :=
  match is_priority i with
  | VStr p =>
      match summary !! p with
      | Some n => <[p := n + 1]> summary
      | None => summary
      end
  | _ => summary
  end.

Definition severity_summary (issues : list issue) : gmap string Z :=
  foldl count_issue summary_init issues.

(** [summary[k]] *)
Definition summary_item (summary : gmap string Z) (k : string) : result Z :=
  match summary !! k with
  | Some n => Ok n
  | None => Raise KeyError
  end.

(** *** The score

    [weighted_sum = critical*3 + high*2 + medium*1 + low*0.5] and
    [100 if total_issues == 0 else
     max(0, 100 - int((weighted_sum/max(total_issues, 1))*20))]. *)
Definition score_of_counts (critical high medium low total_issues : Z) : result Z :=
  low_f ← float_of_int low;
  ints_f ← float_of_int (critical * 3 + high * 2 + medium * 1);
  let weighted_sum := SFadd 53 1024 ints_f (SFmul 53 1024 low_f float_half) in
  if total_issues =? 0 then Ok 100 else
  total_f ← float_of_int (Z.max total_issues 1);
  ratio ← float_div weighted_sum total_f;
  twenty ← float_of_int 20;
  k ← int_of_float (SFmul 53 1024 ratio twenty);
  Ok (Z.max 0 (100 - k)).

Definition audit_score (issues : list issue) : result Z :=
  let summary := severity_summary issues in
  let total_issues := Z.of_nat (length issues) in
  critical ← summary_item summary "critical";
  high ← summary_item summary "high";
  medium ← summary_item summary "medium";
  low ← summary_item summary "low";
  score_of_counts critical high medium low total_issues.


(** *** The score as the specification words it

    Counts per priority bucket, the weighted sum over the rationals and
    the floor of the scaled ratio. *)

Definition has_priority (p : string) (i : issue) : bool :=
  bool_decide (is_priority i = VStr p).

Definition count_priority (p : string) (issues : list issue) : Z :=
  Z.of_nat (length (List.filter (has_priority p) issues)).



(** Twice the weight of a finding: 6, 4, 2, 1 for critical, high,
    medium, low; 0 for any other priority. *)
Definition weight2 (i : issue) : Z :=
  match is_priority i with
  | VStr p =>
      if bool_decide (p = "critical") then 6
      else if bool_decide (p = "high") then 4
      else if bool_decide (p = "medium") then 2
      else if bool_decide (p = "low") then 1
      else 0
  | _ => 0
  end.

Definition weight2_sum (issues : list issue) : Z :=
  foldr (fun i acc => weight2 i + acc) 0 issues.

(** The number of findings below which the binary64 computation of the
    score is proved to agree with the exact formula. *)
Definition max_findings : Z := 2 ^ 45.


(** ** Auxiliary notions for binary64 rounding *)

(** Position of the fraction [rho / D] with respect to one half. *)
Definition loc_of (rho D : Z) : location :=
  if rho =? 0 then loc_Exact else loc_Inexact (2 * rho ?= D).

(** [N / D] lies in [[m, m+1)] at location [l]. *)
Definition inbetween (N D m : Z) (l : location) : Prop :=
  m * D <= N < (m + 1) * D /\ l = loc_of (N - m * D) D.

Definition inbetween_rec (N D : Z) (mrs : shr_record) : Prop :=
  0 <= shr_m mrs /\ inbetween N D (shr_m mrs) (loc_of_shr_record mrs).

(** [M] is the integer nearest to [N / D], ties going to the even one. *)
Definition nearest (N D M : Z) : Prop :=
  Z.abs (2 * M * D - 2 * N) <= D /\
  (Z.abs (2 * M * D - 2 * N) = D -> Z.even M = true).

(** [f] is the normalised double of the dyadic number [v * 2 ^ e]. *)
Definition represents (f : spec_float) (v : Z) (e : Z) : Prop :=
  exists (M : positive) (j : Z),
    f = S754_finite false M (e - j) /\ 0 <= j
    /\ Zpos M = v * 2 ^ j /\ 2 ^ 52 <= Zpos M < 2 ^ 53.

(** ** Sample data used by the examples and witnesses *)

(** A finding of the rule [missing-labels] without bounds, as the check
    builds it for a clickable node that has no [bounds] attribute. *)
Definition null_bounds_issue : issue :=
  {| is_rule := "missing-labels";
     is_priority := VStr "critical";
     is_message := "Clickable element has no visible label or content description";
     is_bounds := BoundsNone;
     is_xpath := "";
     is_resource_id := "";
     is_guideline := "WCAG 1.3.1 - Info and Relationships" |}.

(** A clickable node with no label and no [bounds] attribute, and a
    catalog holding the rule [missing-labels]. *)
Definition unlabeled_node : node :=
  {| attrib := {[ "class" := "android.widget.ImageButton"; "clickable" := "true" ]};
     tree_path := "/hierarchy/node" |}.

Definition labels_catalog : catalog :=
  {[ "missing-labels" := {[ "enabled" := VBool true; "priority" := VStr "critical" ]} ]}.

(** A node that carries a resource id but no [bounds] attribute. *)
Definition boundless_node : node :=
  {| attrib := {[ "class" := "android.widget.Button";
                  "resource-id" := "com.app:id/ok";
                  "text" := "OK" ]};
     tree_path := "/hierarchy/node" |}.

(** A node with parsed bounds and a resource id. *)
Definition bounded_node : node :=
  {| attrib := {[ "bounds" := "[0,0][50,50]";
                  "class" := "android.widget.Button";
                  "resource-id" := "com.app:id/ok" ]};
     tree_path := "/hierarchy/node" |}.

(** The catalog entry of [touch-target-size] and clickable elements of
    44 by 44 and 43 by 44 pixels. *)
Definition target_catalog : catalog :=
  {[ "touch-target-size" := {[ "priority" := VStr "high"; "min_size" := VInt 44 ]} ]}.

Definition square (width height : Z) : element :=
  {| el_bounds := Some (0, 0, width, height);
     el_text := "Go"; el_content_desc := "";
     el_clickable := true; el_focusable := true; el_long_clickable := false;
     el_checkable := false; el_checked := false;
     el_class := "android.widget.Button"; el_resource_id := "go";
     el_package := "app"; el_xpath := "//Button[@resource-id='go']" |}.

(** A target-size finding on the rectangle [0,0,43,44]. *)
Definition square_finding : issue :=
  {| is_rule := "touch-target-size"; is_priority := VStr "high";
     is_message := "Touch target too small 43x44px (minimum 44x44px)";
     is_bounds := BoundsRect (0, 0, 43, 44);
     is_xpath := "//Button[@resource-id='go']"; is_resource_id := "go";
     is_guideline := "WCAG 2.5.5 - Target Size (Enhanced)" |}.

(** A finding of the given priority. *)
Definition finding (priority : string) : issue :=
  {| is_rule := "missing-labels"; is_priority := VStr priority;
     is_message := ""; is_bounds := BoundsRect (0, 0, 10, 10);
     is_xpath := ""; is_resource_id := ""; is_guideline := "" |}.

(** Case analysis on the comparisons that decide a location. *)
Ltac loc_cases :=
  unfold loc_of in *;
  repeat match goal with
  | H : context [?a =? ?b] |- _ => destruct (Z.eqb_spec a b)
  | |- context [?a =? ?b] => destruct (Z.eqb_spec a b)
  | H : context [?a ?= ?b] |- _ => destruct (Z.compare_spec a b)
  | |- context [?a ?= ?b] => destruct (Z.compare_spec a b)
  end.

(** ** Lower case and text heuristics *)

(** [c.lower()] on a character below 256: the letters A to Z and the
    Latin-1 capitals U+00C0 to U+00DE, the multiplication sign U+00D7
    apart, move up by 32; every other character is kept. *)
Definition lower_char (c : ascii) : ascii :=
  let n := nat_of_ascii c in
  if ((65 <=? n)%nat && (n <=? 90)%nat)
     || ((192 <=? n)%nat && (n <=? 222)%nat && negb (n =? 215)%nat)
  then ascii_of_nat (n + 32) else c.

(** [s.lower()] *)
Fixpoint lower (s : string) : string :=
  match s with
  | EmptyString => EmptyString
  | String c r => String (lower_char c) (lower r)
  end.

Definition is_color_dependent_text (text : string) : bool :=
  let color_indicators :=
    ["red"; "green"; "blue"; "color"; "colored"; "highlighted"; "coloured"] in
  existsb (fun indicator => contains indicator (lower text)) color_indicators.

Definition is_unclear_link_text (text : string) : bool :=
  let unclear_texts := ["click here"; "read more"; "link"; "here"; "this"; "more info"] in
  bool_decide (lower text ∈ unclear_texts) || (String.length (strip text) <? 3)%nat.

Definition is_unclear_button_text (text : string) : bool :=
  let unclear_texts := ["submit"; "ok"; "cancel"; "yes"; "no"; "click"; "button"] in
  bool_decide (lower text ∈ unclear_texts) || (String.length (strip text) =? 0)%nat.

Definition texts_are_similar (text1 text2 : string) : bool :=
  let t1 := strip (lower text1) in
  let t2 := strip (lower text2) in
  contains t1 t2 || contains t2 t1 || String.eqb t1 t2.

(** ** The bounds attribute as the UI dump writes it *)

(** [[x1,y1][x2,y2]], the integers in decimal. *)
Definition format_bounds (x1 y1 x2 y2 : Z) : string :=
  "[" +:+ pretty x1 +:+ "," +:+ pretty y1 +:+ "][" +:+ pretty x2 +:+ "," +:+ pretty y2 +:+ "]".

(** A character that the bracket and comma handling of [parse_bounds]
    leaves alone and that [strip] does not remove. *)
Definition plain (c : ascii) : bool :=
  negb (Ascii.eqb c "[" || Ascii.eqb c "]" || Ascii.eqb c "," || is_space c).

Definition is_digit (c : ascii) : bool :=
  match digit_of c with
  | Some _ => true
  | None => false
  end.

Fixpoint all_chars (P : ascii -> bool) (s : string) : bool :=
  match s with
  | EmptyString => true
  | String c r => P c && all_chars P r
  end.

(** ** Rule checks that scan one collection

    Eleven checks share one shape: [for element in elements: if <test>:
    issues.append({...})], where the finding copies the bounds, the
    identity path and the resource id of the element, and reads
    [self.rules[rule_id]] for its priority. The rule definition is
    looked up only when an element is reported. *)
Definition scan_finding (rule : gmap string value)
    (rule_id default_priority guideline : string) (message : element -> string)
    (element : element) : issue :=
  {| is_rule := rule_id;
     is_priority := dict_get rule "priority" (VStr default_priority);
     is_message := message element;
     is_bounds := entry_of_bounds (el_bounds element);
     is_xpath := el_xpath element;
     is_resource_id := el_resource_id element;
     is_guideline := guideline |}.

Fixpoint scan_elements (rules : catalog) (rule_id default_priority guideline : string)
    (reported : element -> bool) (message : element -> string)
    (elements : list element) (issues : list issue) : result (list issue) :=
  match elements with
  | [] => Ok issues
  | element :: rest =>
      if reported element then
        rule ← rules_item rules rule_id;
        scan_elements rules rule_id default_priority guideline reported message rest
          (issues ++ [scan_finding rule rule_id default_priority guideline message element])
      else scan_elements rules rule_id default_priority guideline reported message rest issues
  end.

Definition check_text_alternatives (rules : catalog)
    (all_elements clickable_elements focusable_elements form_elements : list element)
    (screenshot_file : string) : result (list issue) :=
  scan_elements rules "text-alternatives" "critical" "WCAG 1.1.1 - Non-text Content"
    (fun element => contains "ImageView" (el_class element)
                    && negb (nonempty (el_content_desc element))
                    && negb (nonempty (el_text element)))
    (fun _ => "Image element missing text alternative (content description)")
    all_elements [].

Definition check_info_relationships (rules : catalog)
    (all_elements clickable_elements focusable_elements form_elements : list element)
    (screenshot_file : string) : result (list issue) :=
  scan_elements rules "info-relationships" "high" "WCAG 1.3.1 - Info and Relationships"
    (fun element => el_clickable element
                    && negb (nonempty (el_resource_id element))
                    && negb (nonempty (el_content_desc element)))
    (fun _ => "Interactive element missing programmatic identification")
    all_elements [].

Definition check_color_not_only (rules : catalog)
    (all_elements clickable_elements focusable_elements form_elements : list element)
    (screenshot_file : string) : result (list issue) :=
  scan_elements rules "color-not-only" "high" "WCAG 1.4.1 - Use of Color"
    (fun element => let text := el_text element in
                    nonempty text && is_color_dependent_text text)
    (fun _ => "Element may rely solely on color to convey information")
    all_elements [].

Definition check_images_of_text (rules : catalog)
    (all_elements clickable_elements focusable_elements form_elements : list element)
    (screenshot_file : string) : result (list issue) :=
  scan_elements rules "images-of-text" "medium" "WCAG 1.4.5 - Images of Text"
    (fun element => contains "ImageView" (el_class element)
                    && nonempty (el_content_desc element)
                    && (let desc := el_content_desc element in
                        (20 <? String.length desc)%nat))
    (fun _ => "Image appears to contain text that should be real text")
    all_elements [].

Definition check_text_spacing (rules : catalog)
    (all_elements clickable_elements focusable_elements form_elements : list element)
    (screenshot_file : string) : result (list issue) :=
  Ok [].

Definition check_link_purpose (rules : catalog)
    (all_elements clickable_elements focusable_elements form_elements : list element)
    (screenshot_file : string) : result (list issue) :=
  scan_elements rules "link-purpose" "high" "WCAG 2.4.4 - Link Purpose (In Context)"
    (fun element => let text := el_text element in
                    nonempty text && is_unclear_link_text text)
    (fun element => "Link purpose may be unclear: '" +:+ el_text element +:+ "'")
    clickable_elements [].

Definition check_focus_visible (rules : catalog)
    (all_elements clickable_elements focusable_elements form_elements : list element)
    (screenshot_file : string) : result (list issue) :=
  Ok [].

Definition check_pointer_gestures (rules : catalog)
    (all_elements clickable_elements focusable_elements form_elements : list element)
    (screenshot_file : string) : result (list issue) :=
  scan_elements rules "pointer-gestures" "medium" "WCAG 2.5.1 - Pointer Gestures"
    (fun element => el_long_clickable element && negb (el_clickable element))
    (fun _ => "Element requires long-press gesture without simple click alternative")
    all_elements [].

Definition check_label_in_name (rules : catalog)
    (all_elements clickable_elements focusable_elements form_elements : list element)
    (screenshot_file : string) : result (list issue) :=
  scan_elements rules "label-in-name" "high" "WCAG 2.5.3 - Label in Name"
    (fun element => let visible_text := el_text element in
                    let accessible_name := el_content_desc element in
                    nonempty visible_text && nonempty accessible_name
                    && negb (String.eqb visible_text accessible_name)
                    && negb (texts_are_similar visible_text accessible_name))
    (fun element => "Visible text '" +:+ el_text element
                    +:+ "' doesn't match accessible name '"
                    +:+ el_content_desc element +:+ "'")
    all_elements [].

Definition check_page_language (rules : catalog)
    (all_elements clickable_elements focusable_elements form_elements : list element)
    (screenshot_file : string) : result (list issue) :=
  Ok [].

Definition check_consistent_navigation (rules : catalog)
    (all_elements clickable_elements focusable_elements form_elements : list element)
    (screenshot_file : string) : result (list issue) :=
  Ok [].

Definition check_error_suggestion (rules : catalog)
    (all_elements clickable_elements focusable_elements form_elements : list element)
    (screenshot_file : string) : result (list issue) :=
  Ok [].

Definition check_name_role_value (rules : catalog)
    (all_elements clickable_elements focusable_elements form_elements : list element)
    (screenshot_file : string) : result (list issue) :=
  scan_elements rules "name-role-value" "high" "WCAG 4.1.2 - Name, Role, Value"
    (fun element => (el_clickable element || el_focusable element)
                    && (let has_name := nonempty (el_text element)
                                        || nonempty (el_content_desc element) in
                        negb has_name))
    (fun _ => "Interactive element missing accessible name")
    all_elements [].

Definition check_image_descriptions (rules : catalog)
    (all_elements clickable_elements focusable_elements form_elements : list element)
    (screenshot_file : string) : result (list issue) :=
  scan_elements rules "image-descriptions" "critical" "WCAG 1.1.1 - Non-text Content"
    (fun element => contains "ImageView" (el_class element)
                    && negb (nonempty (el_content_desc element)))
    (fun _ => "Image missing content description")
    all_elements [].

Definition check_form_labels (rules : catalog)
    (all_elements clickable_elements focusable_elements form_elements : list element)
    (screenshot_file : string) : result (list issue) :=
  scan_elements rules "form-labels" "high" "WCAG 3.3.2 - Labels or Instructions"
    (fun element => negb (nonempty (el_text element))
                    && negb (nonempty (el_content_desc element)))
    (fun _ => "Form element missing label")
    form_elements [].

Definition check_button_purpose (rules : catalog)
    (all_elements clickable_elements focusable_elements form_elements : list element)
    (screenshot_file : string) : result (list issue) :=
  scan_elements rules "button-purpose" "high" "WCAG 2.4.4 - Link Purpose (In Context)"
    (fun element => contains "Button" (el_class element)
                    && (let text := el_text element in
                        negb (nonempty text) || is_unclear_button_text text))
    (fun element => "Button purpose may be unclear: '" +:+ el_text element +:+ "'")
    clickable_elements [].

(** ** The passes of [analyze_accessibility] *)

(** A bound method [self.check_...]: it reads the catalog and receives
    the four collections and the screenshot path. *)
Definition check_method : Type :=
  catalog -> list element -> list element -> list element -> list element -> string
  -> result (list issue).

(** Truth value of a scalar. *)
Definition truthy (v : value) : bool :=
  match v with
  | VNone => false
  | VBool b => b
  | VInt n => negb (n =? 0)
  | VStr s => nonempty s
  end.

(** [self.rules.get(rule_id, {}).get(field, dflt)] *)
Definition rule_field (rules : catalog) (rule_id field : string) (dflt : value) : value :=
  dict_get (default ∅ (rules !! rule_id)) field dflt.

(** [self.rules.get(rule_id, {}).get('enabled', True)] *)
Definition rule_enabled (rules : catalog) (rule_id : string) : bool :=
  truthy (rule_field rules rule_id "enabled" (VBool true)).

(** The loop [for rule_id, check_method in rule_checks]. *)
Fixpoint run_rule_checks (rules : catalog) (c : collected) (screenshot_file : string)
    (rule_checks : list (string * check_method)) (issues : list issue)
  : result (list issue) :=
  match rule_checks with
  | [] => Ok issues
  | (rule_id, check) :: rest =>
      if rule_enabled rules rule_id then
        rule_issues ← check rules (all_elements c) (clickable_elements c)
                        (focusable_elements c) (form_elements c) screenshot_file;
        match rule_issues with
        | [] => run_rule_checks rules c screenshot_file rest issues
        | _ :: _ => run_rule_checks rules c screenshot_file rest (issues ++ rule_issues)
        end
      else run_rule_checks rules c screenshot_file rest issues
  end.

(** The five entries that the enrichment loop copies from the rule
    definition into a finding. *)
Record wcag_details : Type := mk_wcag_details {
  wd_guideline : value;
  wd_wcag_description : value;
  wd_why_it_matters : value;
  wd_how_to_fix : value;
  wd_success_criteria : value
}.

Definition rule_details (rule : gmap string value) : wcag_details :=
  {| wd_guideline := dict_get rule "guideline" (VStr "");
     wd_wcag_description := dict_get rule "wcag_description" (VStr "");
     wd_why_it_matters := dict_get rule "why_it_matters" (VStr "");
     wd_how_to_fix := dict_get rule "how_to_fix" (VStr "");
     wd_success_criteria := dict_get rule "success_criteria" (VStr "") |}.

(** A finding after the enrichment loop: the dictionary that the check
    built, updated with the details of its rule when the rule id is in
    the catalog. *)
Record enriched_issue : Type := mk_enriched_issue {
  base : issue;
  details : option wcag_details
}.

(** [if rule_id in self.rules: issue.update({...})] *)
Definition add_wcag_details (rules : catalog) (i : issue) : enriched_issue :=
  {| base := i; details := rule_details <$> rules !! is_rule i |}.

(** The ["guideline"] entry of an enriched finding: the update
    overwrites the string that the check stored. *)
Definition guideline_of (i : enriched_issue) : value :=
  match details i with
  | Some d => wd_guideline d
  | None => VStr (is_guideline (base i))
  end.

(** The deduplication loop, as it runs on the enriched findings. *)
Fixpoint dedup_enriched_loop (issues unique : list enriched_issue)
    (seen : gset (list Z * string)) : result (list enriched_issue) :=
  match issues with
  | [] => Ok unique
  | i :: rest =>
      key ← dedup_key (base i);
      if decide (key ∈ seen)
      then dedup_enriched_loop rest unique seen
      else dedup_enriched_loop rest (unique ++ [i]) (seen ∪ {[key]})
  end.

Section Analyze.

(** [check_color_contrast] reads the pixels of the screenshot file. *)
Variable check_color_contrast : check_method.

Definition rule_checks : list (string * check_method) :=
  [ ("text-alternatives", check_text_alternatives);
    ("info-relationships", check_info_relationships);
    ("color-not-only", check_color_not_only);
    ("color-contrast", check_color_contrast);
    ("images-of-text", check_images_of_text);
    ("text-spacing", check_text_spacing);
    ("focus-order", check_focus_order);
    ("link-purpose", check_link_purpose);
    ("focus-visible", check_focus_visible);
    ("pointer-gestures", check_pointer_gestures);
    ("label-in-name", check_label_in_name);
    ("touch-target-size", check_touch_target_size);
    ("enhanced-target-size", check_enhanced_target_size);
    ("page-language", check_page_language);
    ("consistent-navigation", check_consistent_navigation);
    ("error-suggestion", check_error_suggestion);
    ("name-role-value", check_name_role_value);
    ("mobile-touch-target", check_mobile_touch_target);
    ("missing-labels", check_missing_labels);
    ("image-descriptions", check_image_descriptions);
    ("overlapping-elements", check_overlapping_elements);
    ("form-labels", check_form_labels);
    ("button-purpose", check_button_purpose) ].

(** [analyze_accessibility] on the nodes of a parsed UI tree. *)
Definition analyze_accessibility (rules : catalog) (nodes : list node)
    (screenshot_file : string) : result (list enriched_issue) :=
  issues ← run_rule_checks rules (collect_elements nodes) screenshot_file rule_checks [];
  dedup_enriched_loop (add_wcag_details rules <$> issues) [] ∅.

End Analyze.

(** [check_color_contrast] when the screenshot file does not exist:
    [calculate_color_contrast] returns [None] for every element, and only
    the threshold is read from the rule definition. *)
Definition check_color_contrast_no_screenshot : check_method :=
  fun rules all_elements clickable_elements focusable_elements form_elements
      screenshot_file =>
    _ ← rules_item rules "color-contrast";
    Ok [].

(** ** Report: grouping, score class, highlight geometry *)

(** An entry of the dictionary built by [group_issues_by_rule]. *)
Record rule_group : Type := mk_rule_group {
  gr_rule : string;
  gr_priority : value;
  gr_description : value;
  gr_guideline : value;
  gr_wcag_description : value;
  gr_why_it_matters : value;
  gr_how_to_fix : value;
  gr_success_criteria : value;
  gr_instances : list issue
}.

Definition new_group (rules : catalog) (i : issue) : rule_group :=
  let rule := is_rule i in
  {| gr_rule := rule;
     gr_priority := is_priority i;
     gr_description := rule_field rules rule "description" (VStr "No description available.");
     gr_guideline := rule_field rules rule "guideline" (VStr "");
     gr_wcag_description := rule_field rules rule "wcag_description" (VStr "");
     gr_why_it_matters := rule_field rules rule "why_it_matters" (VStr "");
     gr_how_to_fix := rule_field rules rule "how_to_fix" (VStr "");
     gr_success_criteria := rule_field rules rule "success_criteria" (VStr "");
     gr_instances := [] |}.

Definition add_instance (i : issue) (g : rule_group) : rule_group :=
  {| gr_rule := gr_rule g;
     gr_priority := gr_priority g;
     gr_description := gr_description g;
     gr_guideline := gr_guideline g;
     gr_wcag_description := gr_wcag_description g;
     gr_why_it_matters := gr_why_it_matters g;
     gr_how_to_fix := gr_how_to_fix g;
     gr_success_criteria := gr_success_criteria g;
     gr_instances := gr_instances g ++ [i] |}.

(** [grouped[rule]['instances'].append(issue)]; the dictionary keeps
    the order in which its keys were inserted, so it is a list of
    entries. *)
Fixpoint append_instance (rule : string) (i : issue) (grouped : list (string * rule_group))
  : list (string * rule_group) :=
  match grouped with
  | [] => []
  | (k, g) :: rest =>
      if bool_decide (k = rule) then (k, add_instance i g) :: rest
      else (k, g) :: append_instance rule i rest
  end.

Definition group_step (rules : catalog) (grouped : list (string * rule_group)) (i : issue)
  : list (string * rule_group) :=
  let rule := is_rule i in
  let grouped :=
    if bool_decide (rule ∈ grouped.*1) then grouped
    else grouped ++ [(rule, new_group rules i)] in
  append_instance rule i grouped.

Definition group_issues_by_rule (rules : catalog) (issues_list : list issue)
  : list (string * rule_group) :=
  foldl (group_step rules) [] issues_list.

(** The entry of a rule, described from the whole list: its instances
    are the findings of the rule in scan order, and the priority is that
    of the first of them. *)
Definition rule_instances (rule : string) (issues_list : list issue) : list issue :=
  List.filter (fun i => bool_decide (is_rule i = rule)) issues_list.

Definition group_entry (rules : catalog) (issues_list : list issue) (rule : string)
  : rule_group :=
  let instances := rule_instances rule issues_list in
  {| gr_rule := rule;
     gr_priority := from_option is_priority VNone (head instances);
     gr_description := rule_field rules rule "description" (VStr "No description available.");
     gr_guideline := rule_field rules rule "guideline" (VStr "");
     gr_wcag_description := rule_field rules rule "wcag_description" (VStr "");
     gr_why_it_matters := rule_field rules rule "why_it_matters" (VStr "");
     gr_how_to_fix := rule_field rules rule "how_to_fix" (VStr "");
     gr_success_criteria := rule_field rules rule "success_criteria" (VStr "");
     gr_instances := instances |}.

(** The rule ids of a list of findings, each once, in the order of
    their first occurrence. *)
Definition rules_in_order (issues_list : list issue) : list string :=
  reverse (remove_dups (reverse (is_rule <$> issues_list))).

(** [pr_issues = [i for i in issues if i["priority"] == priority]] *)
Definition pr_issues (priority : string) (issues : list issue) : list issue :=
  List.filter (has_priority priority) issues.

(** [v == w] on scalars: a boolean compares as the integer 0 or 1. *)
Definition py_eq (v w : value) : bool :=
  match v, w with
  | VNone, VNone => true
  | VBool a, VBool b => Bool.eqb a b
  | VInt n, VInt m => n =? m
  | VBool a, VInt n | VInt n, VBool a => n =? (if a then 1 else 0)
  | VStr s, VStr t => String.eqb s t
  | _, _ => false
  end.

(** [covered_guidelines.add(issue["guideline"])] on the set kept as the
    list of its members; every finding carries the key. *)
Definition set_add (v : value) (s : list value) : list value :=
  if existsb (py_eq v) s then s else s ++ [v].

Definition covered_guidelines (issues : list enriched_issue) : list value :=
  foldl (fun s i => set_add (guideline_of i) s) [] issues.

(** [total_rules] of [load_wcag_coverage]. *)
Definition total_rules : Z := 120.

(** The entries [covered_rules] and [pending_rules] that
    [generate_report] writes into the coverage summary. *)
Definition coverage_summary (issues : list enriched_issue) : Z * Z :=
  let covered_rules := Z.of_nat (length (covered_guidelines issues)) in
  (covered_rules, total_rules - covered_rules).

(** The style class of the score card. *)
Definition score_class (audit_score : Z) : string :=
  if 90 <=? audit_score then "score-excellent"
  else if 70 <=? audit_score then "score-good"
  else if 50 <=? audit_score then "score-poor"
  else "score-critical".





(** ** Invariants of the analysis *)

(** The findings of a check method name rules of the catalog. *)
Definition reports_known_rules (check : check_method) : Prop :=
  forall (rules : catalog)
         (all_elements clickable_elements focusable_elements form_elements : list element)
         (screenshot_file : string) (found : list issue),
    check rules all_elements clickable_elements focusable_elements form_elements
      screenshot_file = Ok found ->
    Forall (fun i => is_Some (rules !! is_rule i)) found.

(** [fmap] on results. *)
Definition result_map {A B : Type} (f : A -> B) (r : result A) : result B :=
  match r with
  | Ok a => Ok (f a)
  | Raise e => Raise e
  end.

(** ** Sample data for the checks of the analysis and the report *)

(** A rule definition with the fields that the analysis reads. *)
Definition sample_rule (priority guideline : string) : gmap string value :=
  {[ "enabled" := VBool true; "priority" := VStr priority; "guideline" := VStr guideline ]}.

Definition size_rule (priority guideline : string) (min_size : Z) : gmap string value :=
  <["min_size" := VInt min_size]> (sample_rule priority guideline).

(** A catalog with the rules that a small button and an unlabeled image
    can be reported under. *)
Definition sample_catalog : catalog :=
  {[ "text-alternatives" := sample_rule "critical" "WCAG 1.1.1 - Non-text Content";
     "color-contrast" := sample_rule "high" "WCAG 1.4.3 - Contrast (Minimum)";
     "link-purpose" := sample_rule "high" "WCAG 2.4.4 - Link Purpose (In Context)";
     "touch-target-size" := size_rule "high" "WCAG 2.5.5 - Target Size" 44;
     "enhanced-target-size" := size_rule "medium" "WCAG 2.5.5 - Target Size (Enhanced)" 48;
     "name-role-value" := sample_rule "high" "WCAG 4.1.2 - Name, Role, Value";
     "mobile-touch-target" := size_rule "high" "Mobile Accessibility - Touch Target Size" 44;
     "missing-labels" := sample_rule "critical" "WCAG 1.3.1 - Info and Relationships";
     "image-descriptions" := sample_rule "critical" "WCAG 1.1.1 - Non-text Content";
     "overlapping-elements" := sample_rule "medium" "WCAG 2.5.1 - Pointer Gestures";
     "button-purpose" := sample_rule "high" "WCAG 2.4.4 - Link Purpose (In Context)" ]}.

(** An override that switches [missing-labels] off. *)
Definition labels_off : catalog :=
  {[ "missing-labels" := {[ "enabled" := VBool false ]} ]}.

(** An override whose minimum size is a string. *)
Definition text_min_size : catalog :=
  {[ "touch-target-size" := {[ "min_size" := VStr "44" ]} ]}.

(** A small button with padded text, and an image without description. *)
Definition small_button : node :=
  {| attrib := {[ "bounds" := "[0,0][40,40]";
                  "class" := "android.widget.Button";
                  "clickable" := "true";
                  "resource-id" := "com.app:id/ok";
                  "text" := " OK " ]};
     tree_path := "/hierarchy/node[1]" |}.

Definition bare_image : element :=
  {| el_bounds := Some (0, 0, 100, 100);
     el_text := ""; el_content_desc := "";
     el_clickable := false; el_focusable := false; el_long_clickable := false;
     el_checkable := false; el_checked := false;
     el_class := "android.widget.ImageView"; el_resource_id := "logo";
     el_package := "app"; el_xpath := "//ImageView[@resource-id='logo']" |}.

(** * Proofs *)

(** ** The error monad *)

Lemma bind_Ok {A B : Type} (a : A) (k : A -> result B) : (Ok a ≫= k) = k a.
Proof. reflexivity. Qed.

(** ** Binary64 arithmetic

    The operations of [SpecFloat] at precision 53 round a positive
    quotient or product to the nearest double; on small integers and
    half-integers they are exact. *)

(** [digits2_pos] counts the binary digits. *)
Lemma digits2_pos_spec (p : positive) :
  2 ^ (Zpos (digits2_pos p) - 1) <= Zpos p < 2 ^ Zpos (digits2_pos p).
Proof.
  induction p as [p IH|p IH|]; simpl digits2_pos.
  - rewrite Pos2Z.inj_succ, Z.pow_succ_r by lia.
    replace (Z.succ (Z.pos (digits2_pos p)) - 1) with (Z.succ (Zpos (digits2_pos p) - 1)) by lia.
    rewrite Z.pow_succ_r by lia. lia.
  - rewrite Pos2Z.inj_succ, Z.pow_succ_r by lia.
    replace (Z.succ (Z.pos (digits2_pos p)) - 1) with (Z.succ (Zpos (digits2_pos p) - 1)) by lia.
    rewrite Z.pow_succ_r by lia. lia.
  - simpl. lia.
Qed.

Lemma digits2_pos_unique (p : positive) (d : Z) :
  2 ^ (d - 1) <= Zpos p < 2 ^ d -> Zpos (digits2_pos p) = d.
Proof.
  intros [Hl Hu]. pose proof (digits2_pos_spec p) as [Hl' Hu'].
  assert (0 < d) as Hd.
  { destruct (Z.lt_ge_cases 0 d) as [|Hn]; [done|].
    exfalso. destruct (Z.eq_dec d 0) as [->|]; [simpl in Hu; lia|].
    rewrite Z.pow_neg_r in Hu by lia. lia. }
  destruct (Z.lt_trichotomy (Zpos (digits2_pos p)) d) as [Hlt|[Heq|Hgt]]; [|done|].
  - exfalso. assert (2 ^ Zpos (digits2_pos p) <= 2 ^ (d - 1)) by (apply Z.pow_le_mono_r; lia). lia.
  - exfalso. assert (2 ^ d <= 2 ^ (Zpos (digits2_pos p) - 1)) by (apply Z.pow_le_mono_r; lia). lia.
Qed.

(** Shifting the mantissa right by one bit halves the scale and keeps
    track of the location of the fraction. *)
Lemma shr_1_inbetween N D mrs :
  0 < D -> inbetween_rec N D mrs -> inbetween_rec N (2 * D) (shr_1 mrs).
Proof.
  intros HD [Hm [Hb Hl]]. destruct mrs as [m r s]. simpl in Hm, Hb, Hl.
  unfold inbetween_rec, inbetween.
  destruct m as [|[p|p|]|p]; try lia; destruct r, s; simpl in *;
    try (set (X := Z.pos p * D) in *;
         assert (Z.pos p~0 * D = 2 * X) as E0 by (unfold X; lia);
         assert (Z.pos p~1 * D = 2 * X + D) as E1 by (unfold X; lia);
         assert (Z.pos p * (2 * D) = 2 * X) as E2 by (unfold X; lia);
         rewrite ?E0, ?E1, ?E2 in *; clear E0 E1 E2);
    loc_cases; try discriminate; try lia; (split; [lia|]); (split; [lia|]); try reflexivity; try lia.
Qed.

Lemma iter_shr_1_inbetween N p : forall D mrs,
  0 < D -> inbetween_rec N D mrs ->
  inbetween_rec N (D * 2 ^ Zpos p) (SpecFloat.iter_pos shr_1 p mrs).
Proof.
  induction p as [p IH|p IH|]; intros D mrs HD H; simpl SpecFloat.iter_pos.
  - replace (D * 2 ^ Z.pos p~1) with ((2 * D) * 2 ^ Z.pos p * 2 ^ Z.pos p).
    + apply IH; [lia|]. apply IH; [lia|]. by apply shr_1_inbetween.
    + replace (Z.pos p~1) with (1 + (Z.pos p + Z.pos p)) by lia.
      rewrite !Z.pow_add_r by lia. lia.
  - replace (D * 2 ^ Z.pos p~0) with (D * 2 ^ Z.pos p * 2 ^ Z.pos p).
    + apply IH; [lia|]. by apply IH.
    + replace (Z.pos p~0) with (Z.pos p + Z.pos p) by lia.
      rewrite !Z.pow_add_r by lia. lia.
  - replace (D * 2 ^ 1) with (2 * D) by lia. by apply shr_1_inbetween.
Qed.

Lemma shr_record_of_loc_inbetween N D m l :
  0 <= m -> inbetween N D m l -> inbetween_rec N D (shr_record_of_loc m l).
Proof.
  intros Hm [Hb Hl]. unfold inbetween_rec, inbetween.
  destruct l as [|[]]; simpl; auto.
Qed.

(** Rounding on the location picks the nearest integer, ties to even. *)
Lemma round_nearest_even_spec N D mrs :
  0 < D -> inbetween_rec N D mrs ->
  let M := round_nearest_even (shr_m mrs) (loc_of_shr_record mrs) in
  nearest N D M /\ shr_m mrs <= M <= shr_m mrs + 1.
Proof.
  intros HD [Hm [Hb Hl]]. destruct mrs as [m r s]. simpl in *.
  unfold nearest.
  destruct r, s; simpl in *; loc_cases; try discriminate; try lia;
    try destruct (IntDef.Z.even m) eqn:Hev;
    (split; [split|]; [nia| |nia]); intros Habs; try done; try (exfalso; nia).
  change (Z.even (m + 1) = true). rewrite Z.even_add.
  change (Z.even m) with (IntDef.Z.even m). by rewrite Hev.
Qed.

Lemma fexp_normal e : -1074 <= e - 53 -> fexp 53 1024 e = e - 53.
Proof. unfold fexp, emin. lia. Qed.

Lemma inbetween_scale_bounds N D K m m1 a :
  0 < D -> 0 < K ->
  m * D <= N < (m + 1) * D ->
  m1 * (D * K) <= N < (m1 + 1) * (D * K) ->
  a * K <= m < 2 * a * K ->
  a <= m1 < 2 * a.
Proof.
  intros HD HK Hm Hm1 Ha.
  assert (m1 * K < m + 1).
  { apply (Z.mul_lt_mono_pos_r D); [done|]. nia. }
  assert (m < (m1 + 1) * K).
  { apply (Z.mul_lt_mono_pos_r D); [done|]. nia. }
  split.
  - assert (a < m1 + 1); [|lia]. apply (Z.mul_lt_mono_pos_r K); [done|]. lia.
  - apply (Z.mul_lt_mono_pos_r K); [done|]. lia.
Qed.

(** In the normal range [shr_fexp] brings the mantissa to 53 bits. *)
Lemma shr_fexp_spec (m : positive) e l N D :
  0 < D -> inbetween N D (Zpos m) l ->
  53 <= Zpos (digits2_pos m) -> -1074 <= e ->
  exists mrs,
    shr_fexp 53 1024 (Zpos m) e l = (mrs, e + (Zpos (digits2_pos m) - 53))
    /\ inbetween_rec N (D * 2 ^ (Zpos (digits2_pos m) - 53)) mrs
    /\ 2 ^ 52 <= shr_m mrs < 2 ^ 53.
Proof.
  intros HD Hin Hd He.
  pose proof (digits2_pos_spec m) as Hdig.
  set (d := Zpos (digits2_pos m)) in *.
  unfold shr_fexp. simpl Zdigits2. fold d.
  rewrite fexp_normal by lia.
  replace (d + e - 53 - e) with (d - 53) by lia.
  assert (inbetween_rec N D (shr_record_of_loc (Zpos m) l)) as Hrec.
  { apply shr_record_of_loc_inbetween; [lia|done]. }
  assert (2 ^ (d - 1) = 2 ^ 52 * 2 ^ (d - 53)) as E1.
  { rewrite <- Z.pow_add_r by lia. f_equal. lia. }
  assert (2 ^ d = 2 * 2 ^ 52 * 2 ^ (d - 53)) as E2.
  { replace d with (1 + 52 + (d - 53)) at 1 by lia.
    rewrite !Z.pow_add_r by lia. lia. }
  assert (0 < 2 ^ (d - 53)) as HK by (apply Z.pow_pos_nonneg; lia).
  assert (forall mrs, inbetween_rec N (D * 2 ^ (d - 53)) mrs -> 2 ^ 52 <= shr_m mrs < 2 ^ 53) as Hbnd.
  { intros mrs [_ [Hb _]]. destruct Hin as [Hb0 _].
    change (2 ^ 53) with (2 * 2 ^ 52).
    eapply (inbetween_scale_bounds N D (2 ^ (d - 53)) (Zpos m)); eauto. lia. }
  destruct (d - 53) as [|p|p] eqn:Hn; [| |lia].
  - exists (shr_record_of_loc (Zpos m) l). simpl shr.
    rewrite Z.add_0_r. split; [done|].
    assert (inbetween_rec N (D * 2 ^ 0) (shr_record_of_loc (Z.pos m) l)) as H0.
    { by rewrite Z.pow_0_r, Z.mul_1_r. }
    split; [done|]. by apply Hbnd.
  - exists (SpecFloat.iter_pos shr_1 p (shr_record_of_loc (Zpos m) l)). simpl shr.
    split; [done|].
    assert (inbetween_rec N (D * 2 ^ Zpos p) (SpecFloat.iter_pos shr_1 p (shr_record_of_loc (Zpos m) l))) as H0.
    { by apply iter_shr_1_inbetween. }
    split; [done|]. by apply Hbnd.
Qed.

Lemma digits2_pos_ge (q : positive) (k : Z) :
  0 <= k -> 2 ^ k <= Zpos q -> k + 1 <= Zpos (digits2_pos q).
Proof.
  intros Hk Hq. pose proof (digits2_pos_spec q) as [_ Hu].
  destruct (Z.lt_ge_cases k (Zpos (digits2_pos q))) as [|Hge]; [lia|].
  assert (2 ^ Zpos (digits2_pos q) <= 2 ^ k) by (apply Z.pow_le_mono_r; lia). lia.
Qed.

(** [binary_round_aux] on a positive number in the normal range: the
    result is the double nearest to the number, either at the exponent
    of its 53 leading bits or, after a carry, at the next one. *)
Lemma binary_round_aux_spec (m : positive) e l N D :
  0 < D -> inbetween N D (Zpos m) l ->
  53 <= Zpos (digits2_pos m) -> -1074 <= e ->
  e + (Zpos (digits2_pos m) - 53) < 971 ->
  exists M E,
    binary_round_aux 53 1024 false (Zpos m) e l = S754_finite false M E
    /\ 2 ^ 52 <= Zpos M < 2 ^ 53
    /\ nearest N (D * 2 ^ (E - e)) (Zpos M)
    /\ (E = e + (Zpos (digits2_pos m) - 53)
        \/ (E = e + (Zpos (digits2_pos m) - 53) + 1 /\ Zpos M = 2 ^ 52
            /\ (2 ^ 54 - 1) * (D * 2 ^ (Zpos (digits2_pos m) - 53)) <= 2 * N)).
Proof.
  intros HD Hin Hd He Hov.
  destruct (shr_fexp_spec m e l N D HD Hin Hd He) as (mrs & Heq & Hrec & Hb).
  set (n := Zpos (digits2_pos m) - 53) in *.
  assert (0 < D * 2 ^ n) as HD'.
  { apply Z.mul_pos_pos; [done|]. apply Z.pow_pos_nonneg; lia. }
  destruct (round_nearest_even_spec N (D * 2 ^ n) mrs HD' Hrec) as [Hnear Hrange].
  unfold binary_round_aux. rewrite Heq.
  set (M' := round_nearest_even (shr_m mrs) (loc_of_shr_record mrs)) in *.
  destruct M' as [|q|q] eqn:HM'; [lia| |lia].
  assert (inbetween (Zpos q) 1 (Zpos q) loc_Exact) as Hin2.
  { split; [lia|]. unfold loc_of. by rewrite Z.mul_1_r, Z.sub_diag. }
  assert (53 <= Zpos (digits2_pos q)) as Hdq.
  { apply (digits2_pos_ge q 52); lia. }
  destruct (shr_fexp_spec q (e + n) loc_Exact (Zpos q) 1 ltac:(lia) Hin2 Hdq ltac:(lia))
    as (mrs2 & Heq2 & Hrec2 & Hb2).
  rewrite Heq2.
  pose proof (digits2_pos_spec q) as Hdigq.
  destruct (Z.eq_dec (Zpos q) (2 ^ 53)) as [Hcarry|Hnc].
  - assert (Zpos (digits2_pos q) = 54) as Hd54.
    { apply digits2_pos_unique. rewrite Hcarry. simpl; lia. }
    rewrite Hd54 in *.
    destruct Hrec2 as [_ [Hb3 _]]. change (54 - 53) with 1 in *.
    assert (shr_m mrs2 = 2 ^ 52) as Hm2 by (rewrite Hcarry in Hb3; simpl in *; lia).
    rewrite Hm2. change (2 ^ 52) with (Zpos 4503599627370496).
    exists 4503599627370496%positive, (e + n + 1).
    destruct (Z.leb_spec (e + n + 1) (1024 - 53)); [|lia].
    split; [done|]. split; [simpl; lia|].
    destruct Hnear as [Hn1 Hn2]. rewrite Hcarry in Hn1, Hn2.
    replace (e + n + 1 - e) with (n + 1) by lia.
    rewrite Z.pow_add_r by lia. change (2 ^ 1) with 2.
    set (K := D * 2 ^ n) in *.
    replace (D * (2 ^ n * 2)) with (2 * K) by (unfold K; lia).
    split.
    + split; [|done]. change (Zpos 4503599627370496) with (2 ^ 52). change (2 ^ 53) with (2 * 2 ^ 52) in Hn1. lia.
    + right. split; [done|]. split; [done|]. change (2 ^ 53) with 9007199254740992 in Hn1. change (2 ^ 54) with 18014398509481984. lia.
  - assert (Zpos (digits2_pos q) = 53) as Hd53.
    { apply digits2_pos_unique. simpl; lia. }
    rewrite Hd53 in *. change (53 - 53) with 0 in *.
    destruct Hrec2 as [_ [Hb3 _]]. rewrite Z.pow_0_r in Hb3.
    assert (shr_m mrs2 = Zpos q) as Hm2 by lia.
    rewrite Hm2. exists q, (e + n). rewrite Z.add_0_r.
    destruct (Z.leb_spec (e + n) (1024 - 53)); [|lia].
    split; [done|]. split; [lia|].
    replace (e + n - e) with n by lia. split; [done|]. by left.
Qed.

Lemma digits2_pos_mul_pow2 (m a : positive) (k : Z) :
  0 <= k -> Zpos m = Zpos a * 2 ^ k ->
  Zpos (digits2_pos m) = Zpos (digits2_pos a) + k.
Proof.
  intros Hk Hm. apply digits2_pos_unique.
  pose proof (digits2_pos_spec a) as [Hl Hu]. rewrite Hm.
  assert (0 < 2 ^ k) by (apply Z.pow_pos_nonneg; lia).
  pose proof (digits2_pos_ge a 0 ltac:(lia) ltac:(simpl; lia)).
  replace (Zpos (digits2_pos a) + k - 1) with (Zpos (digits2_pos a) - 1 + k) by lia.
  rewrite !Z.pow_add_r by lia. nia.
Qed.

(** A number that fits 53 bits is not changed by rounding. *)
Lemma binary_round_aux_exact (m a : positive) (k e : Z) :
  Zpos m = Zpos a * 2 ^ k -> 0 <= k ->
  Zpos (digits2_pos a) = 53 -> -1074 <= e -> e + k < 971 ->
  binary_round_aux 53 1024 false (Zpos m) e loc_Exact = S754_finite false a (e + k).
Proof.
  intros Hm Hk Hda He Hov.
  pose proof (digits2_pos_mul_pow2 m a k Hk Hm) as Hdm.
  assert (inbetween (Zpos m) 1 (Zpos m) loc_Exact) as Hin.
  { split; [lia|]. unfold loc_of. by rewrite Z.mul_1_r, Z.sub_diag. }
  destruct (binary_round_aux_spec m e loc_Exact (Zpos m) 1 ltac:(lia) Hin ltac:(lia) He ltac:(lia))
    as (M & E & Heq & HM & [Hn _] & Halt).
  rewrite Heq. rewrite Hdm, Hda in Halt. replace (53 + k - 53) with k in Halt by lia.
  pose proof (digits2_pos_spec a) as Hsa. rewrite Hda in Hsa.
  assert (0 < 2 ^ k) as HK by (apply Z.pow_pos_nonneg; lia).
  destruct Halt as [HE|(HE & HM2 & Hbig)].
  - subst E. replace (e + k - e) with k in Hn by lia. rewrite Hm in Hn.
    set (K := 2 ^ k) in *. apply Z.abs_le in Hn.
    assert (Zpos M = Zpos a) as HMa; [|by inversion HMa].
    assert (Zpos M - Zpos a < 1) by nia.
    assert (-1 < Zpos M - Zpos a) by nia. lia.
  - exfalso. rewrite Hm in Hbig. set (K := 2 ^ k) in *.
    change (2 ^ 54) with (2 * 2 ^ 53) in Hbig. nia.
Qed.

Lemma pos_iter_xO (m d : positive) :
  Zpos (Pos.iter xO m d) = Zpos m * 2 ^ Zpos d.
Proof.
  revert m. induction d as [d IH|d IH|]; intros m; simpl Pos.iter.
  - rewrite Pos2Z.inj_xO, !IH.
    replace (Z.pos d~1) with (1 + (Z.pos d + Z.pos d)) by lia.
    rewrite !Z.pow_add_r by lia. lia.
  - rewrite !IH. replace (Z.pos d~0) with (Z.pos d + Z.pos d) by lia.
    rewrite !Z.pow_add_r by lia. lia.
  - lia.
Qed.

Lemma shl_align_spec (m : positive) (e e' : Z) :
  exists mz ez, shl_align m e e' = (mz, ez)
    /\ ez = Z.min e e' /\ Zpos mz = Zpos m * 2 ^ (e - ez).
Proof.
  unfold shl_align. destruct (e' - e) as [|d|d] eqn:Hd.
  - exists m, e. split; [done|]. split; [lia|]. rewrite Z.sub_diag. simpl; lia.
  - exists m, e. split; [done|]. split; [lia|]. rewrite Z.sub_diag. simpl; lia.
  - exists (Pos.iter xO m d), e'. split; [done|]. split; [lia|].
    rewrite pos_iter_xO. f_equal. f_equal. lia.
Qed.

Lemma binary_round_exact (mm v : positive) (ee k : Z) :
  Zpos mm = Zpos v * 2 ^ k -> 0 <= k -> Zpos v < 2 ^ 53 ->
  -1000 <= ee -> ee + k < 900 ->
  represents (binary_round 53 1024 false mm ee) (Zpos v) (ee + k).
Proof.
  intros Hmm Hk Hv He Hov.
  pose proof (digits2_pos_mul_pow2 mm v k Hk Hmm) as Hdm.
  pose proof (digits2_pos_spec v) as Hsv.
  pose proof (digits2_pos_ge v 0 ltac:(lia) ltac:(simpl; lia)) as Hdv1.
  assert (Zpos (digits2_pos v) <= 53) as Hdv.
  { destruct (Z.le_gt_cases (Zpos (digits2_pos v)) 53) as [|Hgt]; [done|].
    assert (2 ^ 53 <= 2 ^ (Zpos (digits2_pos v) - 1)) by (apply Z.pow_le_mono_r; lia). lia. }
  set (dv := Zpos (digits2_pos v)) in *.
  set (j := 53 - dv).
  assert (0 < Zpos v * 2 ^ j) as HMpos.
  { apply Z.mul_pos_pos; [lia|]. apply Z.pow_pos_nonneg; lia. }
  destruct (Zpos v * 2 ^ j) as [|M|M] eqn:HM; [lia| |lia].
  assert (Zpos (digits2_pos M) = 53) as HdM.
  { rewrite (digits2_pos_mul_pow2 M v j); [fold dv; lia|lia|done]. }
  pose proof (digits2_pos_spec M) as HsM. rewrite HdM in HsM.
  exists M, j. split; [|split; [lia|split; [done|simpl in *; lia]]].
  unfold binary_round.
  destruct (shl_align_spec mm ee (fexp 53 1024 (Zpos (digits2_pos mm) + ee)))
    as (mz & ez & Hal & Hez & Hmz).
  rewrite Hal. rewrite fexp_normal in Hez by lia.
  assert (Zpos mz = Zpos M * 2 ^ (k - j + (ee - ez))) as Hmz'.
  { rewrite Hmz, Hmm, <- HM.
    destruct (Z.le_gt_cases j k).
    - replace k with (j + (k - j)) at 1 by lia.
      rewrite !Z.pow_add_r by lia. lia.
    - assert (ez = Zpos (digits2_pos mm) + ee - 53) as -> by lia.
      rewrite Hdm. fold dv. replace (ee - (dv + k + ee - 53)) with (j - k) by (unfold j; lia).
      replace (k - j + (j - k)) with 0 by lia.
      rewrite Z.pow_0_r, Z.mul_1_r, <- Z.mul_assoc, <- Z.pow_add_r by lia.
      f_equal. f_equal. lia. }
  rewrite (binary_round_aux_exact mz M (k - j + (ee - ez)) ez); [f_equal; lia|done|lia|done|lia|lia].
Qed.

(** The quotient and remainder of the division core locate [N / D]. *)
Lemma new_location_spec (D r : Z) :
  0 < D -> 0 <= r < D -> new_location D r = loc_of r D.
Proof.
  intros HD Hr. unfold new_location, new_location_even, new_location_odd, loc_of.
  destruct (Z.even D) eqn:Hev; [done|].
  destruct (Z.eqb_spec r 0); [done|]. f_equal.
  assert (Z.odd D = true) as Hodd by (rewrite <- Z.negb_even, Hev; done).
  apply Z.odd_spec in Hodd as [c Hc].
  destruct (Z.compare_spec (2 * r + 1) D), (Z.compare_spec (2 * r) D); try done; lia.
Qed.

Lemma SFdiv_core_binary_spec (Mw Mt : positive) (Ew Et : Z) :
  Zpos (digits2_pos Mw) = 53 -> Zpos (digits2_pos Mt) = 53 ->
  -1000 <= Ew - Et ->
  exists (q : positive) (l : location),
    SFdiv_core_binary 53 1024 (Zpos Mw) Ew (Zpos Mt) Et = (Zpos q, Ew - Et - 53, l)
    /\ inbetween (Zpos Mw * 2 ^ 53) (Zpos Mt) (Zpos q) l
    /\ 2 ^ 52 <= Zpos q < 2 ^ 54.
Proof.
  intros Hdw Hdt He.
  pose proof (digits2_pos_spec Mw) as Hsw. rewrite Hdw in Hsw.
  pose proof (digits2_pos_spec Mt) as Hst. rewrite Hdt in Hst.
  unfold SFdiv_core_binary. simpl Zdigits2. rewrite Hdw, Hdt.
  rewrite fexp_normal by lia.
  replace (Z.min (53 + Ew - (53 + Et) - 53) (Ew - Et)) with (Ew - Et - 53) by lia.
  replace (Ew - Et - (Ew - Et - 53)) with 53 by lia.
  rewrite Z.shiftl_mul_pow2 by lia.
  pose proof (Z_div_mod (Zpos Mw * 2 ^ 53) (Zpos Mt) ltac:(lia)) as Hdiv.
  destruct (Z.div_eucl (Zpos Mw * 2 ^ 53) (Zpos Mt)) as [q r].
  destruct Hdiv as [Hqr Hr].
  assert (2 ^ 52 <= q < 2 ^ 54) as Hq.
  { change (2 ^ 52) with 4503599627370496 in *. change (2 ^ 53) with 9007199254740992 in *.
    change (2 ^ 54) with 18014398509481984 in *. change (53 - 1) with 52 in *.
    change (2 ^ 52) with 4503599627370496 in *. nia. }
  destruct q as [|q|q]; [simpl in Hq; lia| |lia].
  exists q, (new_location (Zpos Mt) r). split; [done|]. split; [|done].
  rewrite new_location_spec by lia.
  split; [nia|]. f_equal. lia.
Qed.

(** The integer arithmetic behind the score: the quotient rounded to
    nearest, times twenty rounded to nearest (ties to even), truncated. *)
Lemma truncated_product_exact (W t M eps Mz k : Z) :
  0 < t < 2 ^ 45 -> 0 < W <= 6 * t ->
  2 ^ 52 <= M -> 0 <= eps ->
  Z.abs (2 * M * t - W * 2 ^ eps) <= t ->
  4 <= k <= 6 ->
  Z.abs (2 * Mz * 2 ^ k - 40 * M) <= 2 ^ k ->
  (Z.abs (2 * Mz * 2 ^ k - 40 * M) = 2 ^ k -> Z.even Mz = true) ->
  k < eps /\ Mz / 2 ^ (eps - k) = 10 * W / t.
Proof.
  intros Ht HW HM Heps Hdiv Hk Hmul Htie.
  apply Z.abs_le in Hdiv. destruct Hdiv as [Hd1 Hd2].
  assert (0 < 2 ^ eps) as HA0 by (apply Z.pow_pos_nonneg; lia).
  change (2 ^ 45) with 35184372088832 in Ht.
  change (2 ^ 52) with 4503599627370496 in HM.
  assert (9007199254740991 <= 6 * 2 ^ eps) as HA.
  { assert (W * 2 ^ eps <= 6 * t * 2 ^ eps) by (apply Z.mul_le_mono_nonneg_r; lia).
    assert (4503599627370496 * t <= M * t) by (apply Z.mul_le_mono_nonneg_r; lia).
    apply (Z.mul_le_mono_pos_r _ _ t); lia. }
  assert (51 <= eps) as Heps51.
  { destruct (Z.le_gt_cases 51 eps) as [|Hlt]; [done|].
    assert (2 ^ eps <= 2 ^ 50) by (apply Z.pow_le_mono_r; lia).
    change (2 ^ 50) with 1125899906842624 in *. lia. }
  split; [lia|].
  assert (2 ^ eps = 2 ^ k * 2 ^ (eps - k)) as HAB.
  { rewrite <- Z.pow_add_r by lia. f_equal. lia. }
  assert (2 ^ (eps - k) = 2 * 2 ^ (eps - k - 1)) as HBeven.
  { replace (eps - k) with (1 + (eps - k - 1)) at 1 by lia.
    rewrite Z.pow_add_r by lia. done. }
  assert (0 < 2 ^ (eps - k - 1)) as HB0 by (apply Z.pow_pos_nonneg; lia).
  assert (2 ^ k = 16 \/ 2 ^ k = 32 \/ 2 ^ k = 64) as Hc.
  { assert (k = 4 \/ k = 5 \/ k = 6) as Hk' by lia.
    destruct Hk' as [Hk'|[Hk'|Hk']]; rewrite Hk'; simpl; lia. }
  set (B' := 2 ^ (eps - k - 1)) in *. clearbody B'.
  rewrite HBeven in *. clear HBeven.
  set (A := 2 ^ eps) in *. clearbody A.
  set (c := 2 ^ k) in *. clearbody c.
  subst A.
  pose proof (Z.div_mod (10 * W) t ltac:(lia)) as Hqr.
  pose proof (Z.mod_pos_bound (10 * W) t ltac:(lia)) as Hr.
  assert (0 <= 10 * W / t) as Hn0 by (apply Z.div_pos; lia).
  set (n := 10 * W / t) in *. clearbody n.
  set (rho := (10 * W) mod t) in *. clearbody rho.
  assert (Z.abs (2 * Mz * c - 40 * M) <= c) as Hmul0 by done.
  apply Z.abs_le in Hmul. destruct Hmul as [Hm1 Hm2].
  assert (10 * W * (c * (2 * B')) = (t * n + rho) * (c * (2 * B'))) as HWA by (by rewrite Hqr).
  assert (0 <= M * t) as HMt by (apply Z.mul_nonneg_nonneg; lia).
  symmetry. apply Z.div_unique with (r := Mz - n * (2 * B')); [|lia].
  left. split.
  - (* lower bound *)
    destruct (Z.le_gt_cases (n * (2 * B')) Mz) as [|Hlt]; [lia|]. exfalso.
    assert (0 <= rho * B') as HrB by (apply Z.mul_nonneg_nonneg; lia).
    destruct (Z.eq_dec rho 0) as [Hrho|Hrho].
    + subst rho.
      destruct Hc as [Hc|[Hc|Hc]]; subst c.
      * assert (Mz * 16 <= (n * (2 * B') - 1) * 16) as H0 by lia.
        assert ((2 * n * (16 * (2 * B')) - 20) * t <= 40 * M * t) as H5 by lia.
        apply Z.mul_le_mono_pos_r in H5; [|lia].
        set (Y := n * B') in *.
        assert (40 * M = 64 * Y - 16) as H6 by lia.
        assert (Mz = 2 * Y - 1) as HMz by lia.
        assert (Z.even Mz = true) as Hev.
        { apply Htie. rewrite HMz, H6.
          replace (2 * (2 * Y - 1) * 16 - (64 * Y - 16)) with (-16) by lia. done. }
        rewrite HMz in Hev. rewrite Z.even_sub, Z.even_mul in Hev. simpl in Hev. done.
      * assert ((40 * M) * t <= (2 * (32 * Mz) + 32) * t) as H3
          by (apply Z.mul_le_mono_nonneg_r; lia).
        assert (Mz * t <= (n * (2 * B') - 1) * t) as H0
          by (apply Z.mul_le_mono_nonneg_r; lia).
        lia.
      * assert ((40 * M) * t <= (2 * (64 * Mz) + 64) * t) as H3
          by (apply Z.mul_le_mono_nonneg_r; lia).
        assert (Mz * t <= (n * (2 * B') - 1) * t) as H0
          by (apply Z.mul_le_mono_nonneg_r; lia).
        lia.
    + assert (1 * B' <= rho * B') as HrB1 by (apply Z.mul_le_mono_nonneg_r; lia).
      assert (Mz * t <= (n * (2 * B') - 1) * t) as H0
        by (apply Z.mul_le_mono_nonneg_r; lia).
      destruct Hc as [Hc|[Hc|Hc]]; subst c.
      * assert ((40 * M) * t <= (2 * (Mz * 16) + 16) * t) as H3
          by (apply Z.mul_le_mono_nonneg_r; lia).
        lia.
      * assert ((40 * M) * t <= (2 * (Mz * 32) + 32) * t) as H3
          by (apply Z.mul_le_mono_nonneg_r; lia).
        lia.
      * assert ((40 * M) * t <= (2 * (Mz * 64) + 64) * t) as H3
          by (apply Z.mul_le_mono_nonneg_r; lia).
        lia.
  - (* upper bound *)
    destruct (Z.lt_ge_cases Mz ((n + 1) * (2 * B'))) as [|Hge]; [lia|]. exfalso.
    assert (rho * B' <= (t - 1) * B') as HrB by (apply Z.mul_le_mono_nonneg_r; lia).
    assert ((n + 1) * (2 * B') * t <= Mz * t) as H0
      by (apply Z.mul_le_mono_nonneg_r; lia).
    destruct Hc as [Hc|[Hc|Hc]]; subst c.
    + assert ((2 * (Mz * 16) - 16) * t <= (40 * M) * t) as H3
        by (apply Z.mul_le_mono_nonneg_r; lia).
      lia.
    + assert ((2 * (Mz * 32) - 32) * t <= (40 * M) * t) as H3
        by (apply Z.mul_le_mono_nonneg_r; lia).
      lia.
    + assert ((2 * (Mz * 64) - 64) * t <= (40 * M) * t) as H3
        by (apply Z.mul_le_mono_nonneg_r; lia).
      lia.
Qed.

Lemma represents_digits f v e :
  represents f v e ->
  exists M j, f = S754_finite false M (e - j) /\ 0 <= j /\ Zpos M = v * 2 ^ j
    /\ 2 ^ 52 <= Zpos M < 2 ^ 53 /\ Zpos (digits2_pos M) = 53.
Proof.
  intros (M & j & -> & Hj & HM & Hb). exists M, j.
  repeat split; try done; try lia. apply digits2_pos_unique. simpl; lia.
Qed.

Lemma represents_shift_bound f v e :
  represents f v e -> 0 < v -> exists M j, f = S754_finite false M (e - j)
    /\ 0 <= j <= 52 /\ Zpos M = v * 2 ^ j
    /\ 2 ^ 52 <= Zpos M < 2 ^ 53 /\ Zpos (digits2_pos M) = 53.
Proof.
  intros Hr Hv. destruct (represents_digits _ _ _ Hr) as (M & j & -> & Hj & HM & Hb & Hd).
  exists M, j. repeat split; try done; try lia.
  destruct (Z.le_gt_cases j 52) as [|Hgt]; [done|]. exfalso.
  assert (2 ^ 53 <= 2 ^ j) by (apply Z.pow_le_mono_r; lia). nia.
Qed.

Lemma binary_normalize_exact (n : Z) :
  0 < n < 2 ^ 53 -> represents (binary_normalize 53 1024 n 0 false) n 0.
Proof.
  intros Hn. destruct n as [|p|p]; [lia| |lia]. simpl binary_normalize.
  replace 0 with (0 + 0) at 2 by lia.
  apply binary_round_exact; lia.
Qed.

Lemma SFmul_half_exact f v e :
  represents f v e -> 0 < v -> -900 <= e <= 900 ->
  represents (SFmul 53 1024 f float_half) v (e - 1).
Proof.
  intros Hr Hv He.
  destruct (represents_shift_bound _ _ _ Hr Hv) as (M & j & -> & Hj & HM & Hb & Hd).
  unfold float_half, SFmul. simpl xorb.
  rewrite (binary_round_aux_exact _ M 52); try done; try lia.
  exists M, j. split; [f_equal; lia|]. split; [lia|]. split; [done|lia].
Qed.

Lemma SFadd_exact x y a b :
  represents x a 0 -> represents y b (-1) -> 0 < a -> 0 < b ->
  2 * a + b < 2 ^ 53 ->
  represents (SFadd 53 1024 x y) (2 * a + b) (-1).
Proof.
  intros Hx Hy Ha Hb Hsum.
  destruct (represents_shift_bound _ _ _ Hx Ha) as (Ma & ja & -> & Hja & HMa & Hba & Hda).
  destruct (represents_shift_bound _ _ _ Hy Hb) as (Mb & jb & -> & Hjb & HMb & Hbb & Hdb).
  unfold SFadd.
  set (ez := Z.min (0 - ja) (-1 - jb)).
  destruct (shl_align_spec Ma (0 - ja) ez) as (m1 & e1 & Hal1 & He1 & Hm1).
  destruct (shl_align_spec Mb (-1 - jb) ez) as (m2 & e2 & Hal2 & He2 & Hm2).
  rewrite Hal1, Hal2. simpl fst. simpl cond_Zopp.
  assert (e1 = ez) as -> by lia. assert (e2 = ez) as -> by lia.
  set (k := -1 - ez).
  assert (0 <= k) as Hk by lia.
  assert (Zpos m1 = 2 * a * 2 ^ k) as Hm1'.
  { rewrite Hm1, HMa, <- Z.mul_assoc, <- Z.pow_add_r by lia.
    replace (ja + (0 - ja - ez)) with (1 + k) by lia.
    rewrite Z.pow_add_r by lia. lia. }
  assert (Zpos m2 = b * 2 ^ k) as Hm2'.
  { rewrite Hm2, HMb, <- Z.mul_assoc, <- Z.pow_add_r by lia.
    f_equal. f_equal. lia. }
  simpl Z.add. change (Z.pos (m1 + m2)) with (Z.pos m1 + Z.pos m2).
  assert (Zpos (m1 + m2) = (2 * a + b) * 2 ^ k) as Hs by lia.
  simpl binary_normalize.
  destruct (2 * a + b) as [|w|w] eqn:Hw; [lia| |lia].
  replace (-1) with (ez + k) by lia.
  apply binary_round_exact; try done; lia.
Qed.

Lemma scale_abs_le (a b c P : Z) :
  0 < P -> Z.abs (a * P - b * P) <= c * P -> Z.abs (a - b) <= c.
Proof.
  intros HP H. replace (a * P - b * P) with ((a - b) * P) in H by lia.
  rewrite Z.abs_mul, (Z.abs_eq P) in H by lia.
  apply (Z.mul_le_mono_pos_r _ _ P); done.
Qed.

Lemma scale_abs_eq (a b c P : Z) :
  0 < P -> Z.abs (a - b) = c -> Z.abs (a * P - b * P) = c * P.
Proof.
  intros HP H. replace (a * P - b * P) with ((a - b) * P) by lia.
  rewrite Z.abs_mul, (Z.abs_eq P) by lia. by rewrite H.
Qed.

Lemma digits2_pos_le (q : positive) (k : Z) :
  0 <= k -> Zpos q < 2 ^ k -> Zpos (digits2_pos q) <= k.
Proof.
  intros Hk Hq. pose proof (digits2_pos_spec q) as [Hl _].
  destruct (Z.le_gt_cases (Zpos (digits2_pos q)) k) as [|Hgt]; [done|].
  assert (2 ^ k <= 2 ^ (Zpos (digits2_pos q) - 1)) by (apply Z.pow_le_mono_r; lia). lia.
Qed.

(** The quotient of the doubles of [W / 2] and [t] is within half a unit
    in the last place of [W / (2 * t)]. *)
Lemma SFdiv_nearest (x y : spec_float) (W t : Z) :
  represents x W (-1) -> represents y t 0 -> 0 < W -> 0 < t ->
  exists (M : positive) (eps : Z),
    SFdiv 53 1024 x y = S754_finite false M (- eps)
    /\ 2 ^ 52 <= Zpos M < 2 ^ 53 /\ 0 <= eps <= 200
    /\ Z.abs (2 * Zpos M * t - W * 2 ^ eps) <= t.
Proof.
  intros Hx Hy HW Ht.
  destruct (represents_shift_bound _ _ _ Hx HW) as (Mw & jw & -> & Hjw & HMw & Hbw & Hdw).
  destruct (represents_shift_bound _ _ _ Hy Ht) as (Mt & jt & -> & Hjt & HMt & Hbt & Hdt).
  unfold SFdiv.
  destruct (SFdiv_core_binary_spec Mw Mt (-1 - jw) (0 - jt) Hdw Hdt ltac:(lia))
    as (q & l & Hcore & Hin & Hq).
  rewrite Hcore. simpl xorb.
  assert (53 <= Zpos (digits2_pos q)) as Hdq1.
  { apply (digits2_pos_ge q 52); lia. }
  assert (Zpos (digits2_pos q) <= 54) as Hdq2.
  { apply (digits2_pos_le q 54); lia. }
  destruct (binary_round_aux_spec q (-1 - jw - (0 - jt) - 53) l
              (Zpos Mw * 2 ^ 53) (Zpos Mt) ltac:(lia) Hin
              ltac:(lia) ltac:(lia) ltac:(lia))
    as (M & E & Heq & HM & [Hn _] & Halt).
  set (e := -1 - jw - (0 - jt) - 53) in *.
  assert (e <= E <= e + 2) as HE by lia. clear Halt.
  exists M, (- E). rewrite Heq, Z.opp_involutive.
  split; [done|]. split; [done|]. split; [lia|].
  set (P := 2 ^ (E + jw + 54)).
  assert (0 < P) as HP by (apply Z.pow_pos_nonneg; lia).
  assert (Zpos Mt * 2 ^ (E - e) = t * P) as E1.
  { rewrite HMt, <- Z.mul_assoc, <- Z.pow_add_r by lia. unfold P. f_equal. f_equal. lia. }
  assert (2 * (Zpos Mw * 2 ^ 53) = W * 2 ^ (- E) * P) as E2.
  { rewrite HMw. unfold P. rewrite <- !Z.mul_assoc, <- !Z.pow_add_r by lia.
    replace (- E + (E + jw + 54)) with (1 + (jw + 53)) by lia.
    rewrite (Z.pow_add_r 2 1) by lia. lia. }
  rewrite E1, E2 in Hn.
  apply (scale_abs_le _ _ _ P); [done|].
  replace (2 * Zpos M * t * P) with (2 * Zpos M * (t * P)) by lia. done.
Qed.

(** Multiplying a double by [20.0] rounds [20 * M] to 53 bits, ties to
    even. *)
Lemma SFmul_twenty_nearest (M : positive) (E : Z) :
  2 ^ 52 <= Zpos M < 2 ^ 53 -> -900 <= E <= 0 ->
  exists (Mz : positive) (k : Z),
    SFmul 53 1024 (S754_finite false M E) float_twenty = S754_finite false Mz (E + k)
    /\ 4 <= k <= 6
    /\ Z.abs (2 * Zpos Mz * 2 ^ k - 40 * Zpos M) <= 2 ^ k
    /\ (Z.abs (2 * Zpos Mz * 2 ^ k - 40 * Zpos M) = 2 ^ k -> Z.even (Zpos Mz) = true).
Proof.
  intros HM HE. unfold SFmul, float_twenty. simpl xorb.
  set (m := (M * 5629499534213120)%positive).
  assert (Zpos m = 20 * Zpos M * 2 ^ 48) as Hm by (unfold m; lia).
  assert (2 ^ 104 <= Zpos m < 2 ^ 106) as Hmb.
  { rewrite Hm. change (2 ^ 52) with 4503599627370496 in HM.
    change (2 ^ 53) with 9007199254740992 in HM. simpl. lia. }
  assert (105 <= Zpos (digits2_pos m)) as Hd1.
  { apply (digits2_pos_ge m 104); lia. }
  assert (Zpos (digits2_pos m) <= 106) as Hd2.
  { apply (digits2_pos_le m 106); lia. }
  assert (inbetween (Zpos m) 1 (Zpos m) loc_Exact) as Hin.
  { split; [lia|]. unfold loc_of. by rewrite Z.mul_1_r, Z.sub_diag. }
  destruct (binary_round_aux_spec m (E + -48) loc_Exact (Zpos m) 1 ltac:(lia) Hin
              ltac:(lia) ltac:(lia) ltac:(lia))
    as (Mz & E' & Heq & HMz & [Hn Htie] & Halt).
  exists Mz, (E' - E). rewrite Heq.
  split; [f_equal; lia|]. split; [lia|].
  assert (0 <= E' - E) as Hk by lia.
  assert (1 * 2 ^ (E' - (E + -48)) = 2 ^ (E' - E) * 2 ^ 48) as E1.
  { rewrite Z.mul_1_l, <- Z.pow_add_r by lia. f_equal. lia. }
  assert (2 * Zpos m = 40 * Zpos M * 2 ^ 48) as E2 by lia.
  rewrite E1, E2 in Hn, Htie.
  replace (2 * Zpos Mz * (2 ^ (E' - E) * 2 ^ 48))
    with (2 * Zpos Mz * 2 ^ (E' - E) * 2 ^ 48) in Hn, Htie by lia.
  split.
  - apply (scale_abs_le _ _ _ (2 ^ 48)); [done|done].
  - intros Heqk. apply Htie. by apply scale_abs_eq.
Qed.

Lemma float_of_int_zero : float_of_int 0 = Ok (S754_zero false).
Proof. reflexivity. Qed.

Lemma float_of_int_twenty : float_of_int 20 = Ok float_twenty.
Proof. vm_compute. reflexivity. Qed.

(** Integers below [2 ^ 53] convert to doubles exactly. *)
Lemma float_of_int_exact (n : Z) :
  0 < n < 2 ^ 53 ->
  exists f, float_of_int n = Ok f /\ represents f n 0.
Proof.
  intros Hn. pose proof (binary_normalize_exact n Hn) as Hr.
  exists (binary_normalize 53 1024 n 0 false). split; [|done].
  unfold float_of_int. destruct Hr as (M & j & -> & _). done.
Qed.

Lemma represents_double f v e :
  represents f v e -> 0 < v -> 2 * v < 2 ^ 53 -> represents f (2 * v) (e - 1).
Proof.
  intros (M & j & -> & Hj & HM & Hb) Hv H2.
  assert (1 <= j) as Hj1.
  { destruct (Z.eq_dec j 0) as [->|]; [|lia]. rewrite Z.pow_0_r in HM. lia. }
  exists M, (j - 1). split; [f_equal; lia|]. split; [lia|]. split; [|done].
  rewrite HM. replace j with (1 + (j - 1)) at 1 by lia.
  rewrite Z.pow_add_r by lia. lia.
Qed.

(** The weighted sum [critical*3 + high*2 + medium*1 + low*0.5] is
    computed without rounding. *)
Lemma weighted_sum_exact (s l : Z) (sf lf : spec_float) :
  0 <= s -> 0 <= l -> 0 < 2 * s + l < 2 ^ 53 ->
  float_of_int s = Ok sf -> float_of_int l = Ok lf ->
  represents (SFadd 53 1024 sf (SFmul 53 1024 lf float_half)) (2 * s + l) (-1).
Proof.
  intros Hs Hl HW Hsf Hlf.
  destruct (Z.eq_dec l 0) as [->|Hl0]; [|destruct (Z.eq_dec s 0) as [->|Hs0]].
  - rewrite float_of_int_zero in Hlf. inversion Hlf; subst lf.
    destruct (float_of_int_exact s ltac:(lia)) as (f & Hf & Hr).
    rewrite Hf in Hsf. inversion Hsf; subst f.
    rewrite Z.add_0_r.
    pose proof (represents_double _ _ _ Hr ltac:(lia) ltac:(lia)) as Hr2.
    destruct Hr2 as (M & j & -> & Hrest). simpl.
    exists M, j. done.
  - rewrite float_of_int_zero in Hsf. inversion Hsf; subst sf.
    destruct (float_of_int_exact l ltac:(lia)) as (f & Hf & Hr).
    rewrite Hf in Hlf. inversion Hlf; subst f.
    pose proof (SFmul_half_exact _ _ _ Hr ltac:(lia) ltac:(lia)) as Hr2.
    simpl Z.add. change (0 - 1) with (-1) in Hr2.
    destruct Hr2 as (M & j & Heq & Hrest). rewrite Heq. simpl.
    exists M, j. done.
  - destruct (float_of_int_exact l ltac:(lia)) as (f & Hf & Hr).
    rewrite Hf in Hlf. inversion Hlf; subst f.
    destruct (float_of_int_exact s ltac:(lia)) as (f & Hf' & Hr').
    rewrite Hf' in Hsf. inversion Hsf; subst f.
    pose proof (SFmul_half_exact _ _ _ Hr ltac:(lia) ltac:(lia)) as Hr2.
    apply SFadd_exact; try done; lia.
Qed.

Lemma int_of_float_finite (M : positive) (e : Z) :
  0 <= e -> int_of_float (S754_finite false M (- e)) = Ok (Zpos M / 2 ^ e).
Proof.
  intros He. unfold int_of_float. simpl cond_Zopp.
  rewrite Z.shiftl_div_pow2 by lia. by rewrite Z.opp_involutive.
Qed.

(** The binary64 score of the counts is the exact integer formula for
    up to [2 ^ 45] findings. *)
Theorem score_of_counts_exact (c h m l t : Z) :
  0 <= c -> 0 <= h -> 0 <= m -> 0 <= l ->
  c + h + m + l <= t -> 0 < t < 2 ^ 45 ->
  score_of_counts c h m l t
  = Ok (Z.max 0 (100 - 10 * (6 * c + 4 * h + 2 * m + l) / t)).
Proof.
  intros Hc Hh Hm Hl Hsum Ht.
  set (s := c * 3 + h * 2 + m * 1).
  set (W := 6 * c + 4 * h + 2 * m + l).
  assert (W = 2 * s + l) as HWs by (unfold W, s; lia).
  assert (0 <= W <= 6 * t) as HW by lia.
  assert (t < 2 ^ 45) as Ht45 by lia.
  change (2 ^ 45) with 35184372088832 in Ht.
  assert (2 ^ 53 = 9007199254740992) as E53 by done.
  unfold score_of_counts. fold s.
  destruct (Z.eqb_spec t 0) as [|_]; [lia|].
  rewrite Z.max_l by lia.
  destruct (float_of_int_exact t ltac:(lia)) as (tf & Htf & Hrt).
  destruct (Z.eq_dec W 0) as [HW0|HW0].
  - assert (l = 0) as -> by lia. assert (s = 0) as -> by lia.
    rewrite float_of_int_zero, !bind_Ok, Htf, bind_Ok, float_of_int_twenty.
    destruct Hrt as (Mt & jt & -> & _). cbn.
    rewrite HW0. rewrite Z.div_0_l by lia. done.
  - assert (exists lf, float_of_int l = Ok lf) as [lf Hlf].
    { destruct (Z.eq_dec l 0) as [->|]; [by eexists|].
      destruct (float_of_int_exact l ltac:(lia)) as (f & Hf & _). by exists f. }
    assert (exists sf, float_of_int s = Ok sf) as [sf Hsf].
    { destruct (Z.eq_dec s 0) as [Hs0|]; [rewrite Hs0; by eexists|].
      destruct (float_of_int_exact s ltac:(lia)) as (f & Hf & _). by exists f. }
    rewrite Hlf, bind_Ok, Hsf, bind_Ok, Htf, bind_Ok, float_of_int_twenty.
    pose proof (weighted_sum_exact s l sf lf ltac:(lia) ltac:(lia) ltac:(lia) Hsf Hlf) as Hws.
    rewrite <- HWs in Hws.
    destruct (SFdiv_nearest _ _ W t Hws Hrt ltac:(lia) ltac:(lia))
      as (M & eps & Hdiv & HM & Heps & Hnear).
    unfold float_div. destruct Hrt as (Mt & jt & Htfeq & _). rewrite Htfeq in *.
    rewrite bind_Ok, Hdiv, bind_Ok.
    destruct (SFmul_twenty_nearest M (- eps) HM ltac:(lia))
      as (Mz & k & Hmul & Hk & Hn2 & Htie).
    rewrite Hmul.
    destruct (truncated_product_exact W t (Zpos M) eps (Zpos Mz) k
                ltac:(lia) ltac:(lia) ltac:(lia) ltac:(lia) Hnear Hk Hn2 Htie)
      as [Hke Htr].
    replace (- eps + k) with (- (eps - k)) by lia.
    rewrite int_of_float_finite by lia. rewrite bind_Ok. by rewrite Htr.
Qed.

(** ** Deduplication *)

Lemma bounds_tuple_raise (b : bounds_entry) (e : exn) :
  bounds_tuple b = Raise e -> b = BoundsNone /\ e = TypeError.
Proof. destruct b as [| |[[[x1 y1] x2] y2]]; simpl; intros H; by inversion H. Qed.

Lemma dedup_key_none (i : issue) :
  is_bounds i = BoundsNone -> dedup_key i = Raise TypeError.
Proof. unfold dedup_key. by intros ->. Qed.

Lemma dedup_key_raise (i : issue) (e : exn) :
  dedup_key i = Raise e -> is_bounds i = BoundsNone /\ e = TypeError.
Proof.
  unfold dedup_key. destruct (bounds_tuple (is_bounds i)) eqn:Hb; simpl; [done|].
  intros H. inversion H; subst. by apply bounds_tuple_raise.
Qed.

Lemma dedup_loop_raises (issues : list issue) :
  forall unique seen,
    (exists i, i ∈ issues /\ is_bounds i = BoundsNone) ->
    dedup_loop issues unique seen = Raise TypeError.
Proof.
  induction issues as [|i rest IH]; intros unique seen (j & Hin & Hnone).
  - by apply elem_of_nil in Hin.
  - simpl. destruct (dedup_key i) as [key|e] eqn:Hkey.
    + apply elem_of_cons in Hin as [->|Hin].
      { rewrite dedup_key_none in Hkey by done. discriminate. }
      rewrite bind_Ok. case_decide; apply IH; eauto.
    + apply dedup_key_raise in Hkey as [_ ->]. done.
Qed.

Lemma dedup_loop_kept (issues : list issue) :
  forall unique seen out,
    dedup_loop issues unique seen = Ok out ->
    exists kept, out = unique ++ kept /\ distinct_from seen kept.
Proof.
  induction issues as [|i rest IH]; intros unique seen out Hout; simpl in Hout.
  - inversion Hout; subst. exists []. by rewrite app_nil_r.
  - destruct (dedup_key i) as [key|e] eqn:Hkey; [|discriminate].
    rewrite bind_Ok in Hout. case_decide as Hseen.
    + by apply IH.
    + destruct (IH _ _ _ Hout) as (kept & -> & Hkept).
      exists (i :: kept). split; [by rewrite <- app_assoc|].
      simpl. eauto.
Qed.

Lemma dedup_loop_distinct (l : list issue) :
  forall unique seen,
    distinct_from seen l -> dedup_loop l unique seen = Ok (unique ++ l).
Proof.
  induction l as [|i rest IH]; intros unique seen Hd; simpl.
  - by rewrite app_nil_r.
  - destruct Hd as (key & Hkey & Hseen & Hrest).
    rewrite Hkey, bind_Ok. case_decide; [done|].
    rewrite IH by done. by rewrite <- app_assoc.
Qed.

(** C1 (the code departs from the claim): a finding whose bounds are
    [None] makes the deduplication pass raise [TypeError], whatever the
    other findings are, because [tuple(None)] is not defined; nothing is
    dropped and nothing is returned. *)
Theorem C1_dedup_null_bounds_raises (issues : list issue) :
  (exists i, i ∈ issues /\ is_bounds i = BoundsNone) ->
  deduplicate issues = Raise TypeError.
Proof. apply dedup_loop_raises. Qed.

Lemma C1_dedup_null_bounds_raises_witness :
  (exists i, i ∈ [null_bounds_issue; null_bounds_issue] /\ is_bounds i = BoundsNone)
  /\ deduplicate [null_bounds_issue; null_bounds_issue] = Raise TypeError.
Proof.
  assert (exists i, i ∈ [null_bounds_issue; null_bounds_issue] /\ is_bounds i = BoundsNone) as H.
  { exists null_bounds_issue. split; [apply elem_of_cons; by left|reflexivity]. }
  split; [exact H|exact (C1_dedup_null_bounds_raises _ H)].
Defined.

(** C8: the deduplication pass is idempotent wherever it returns. *)
Theorem C8_dedup_idempotent (X Y : list issue) :
  deduplicate X = Ok Y -> deduplicate Y = Ok Y.
Proof.
  unfold deduplicate. intros HX.
  destruct (dedup_loop_kept _ _ _ _ HX) as (kept & -> & Hkept).
  simpl. by apply (dedup_loop_distinct kept []).
Qed.

Lemma C8_dedup_idempotent_witness :
  deduplicate [finding "high"; square_finding; finding "low"; square_finding]
  = Ok [finding "high"; square_finding]
  /\ deduplicate [finding "high"; square_finding] = Ok [finding "high"; square_finding].
Proof.
  assert (deduplicate [finding "high"; square_finding; finding "low"; square_finding]
          = Ok [finding "high"; square_finding]) as H by (vm_compute; reflexivity).
  split; [exact H|exact (C8_dedup_idempotent _ _ H)].
Defined.

(** Findings without bounds do reach the deduplication pass: every
    rule check copies [element["bounds"]], which is [None] for a node
    whose bounds are absent or malformed. *)
Lemma null_bounds_reach_dedup :
  let c := collect_elements [unlabeled_node; unlabeled_node] in
  exists found,
    check_missing_labels labels_catalog (all_elements c) (clickable_elements c)
      (focusable_elements c) (form_elements c) "" = Ok found
    /\ length found = 2%nat
    /\ Forall (fun i => is_bounds i = BoundsNone) found
    /\ deduplicate found = Raise TypeError.
Proof.
  eexists. split; [vm_compute; reflexivity|].
  split; [reflexivity|]. split; [by repeat constructor|reflexivity].
Qed.

(** ** Overlap of rectangles *)

(** C3, as stated, fails: the rectangles [0,0,10,10] and [10,0,20,10]
    touch along an edge and are reported as overlapping. *)
Lemma C3_touching_edges_counterexample :
  elements_overlap (0, 0, 10, 10) (10, 0, 20, 10) <> false.
Proof. vm_compute. discriminate. Qed.

(** C3 (amended): [elements_overlap] is symmetric, and it answers true
    exactly when the closed x-intervals and the closed y-intervals both
    intersect; rectangles that share an edge therefore count as
    overlapping, and only rectangles strictly apart on some axis do not. *)
Theorem C3_overlap_closed_intervals (x1 y1 x2 y2 x3 y3 x4 y4 : Z) :
  elements_overlap (x1, y1, x2, y2) (x3, y3, x4, y4)
  = elements_overlap (x3, y3, x4, y4) (x1, y1, x2, y2)
  /\ (elements_overlap (x1, y1, x2, y2) (x3, y3, x4, y4) = true
      <-> (x3 <= x2 /\ x1 <= x4) /\ (y3 <= y2 /\ y1 <= y4))
  /\ (elements_overlap (x1, y1, x2, y2) (x3, y3, x4, y4) = false
      <-> x2 < x3 \/ x4 < x1 \/ y2 < y3 \/ y4 < y1).
Proof.
  unfold elements_overlap.
  destruct (Z.ltb_spec x2 x3), (Z.ltb_spec x4 x1), (Z.ltb_spec y2 y3), (Z.ltb_spec y4 y1),
    (Z.ltb_spec x4 x1), (Z.ltb_spec x2 x3), (Z.ltb_spec y4 y1), (Z.ltb_spec y2 y3);
    simpl; try lia; (split; [reflexivity|split; split; intros; try discriminate; lia]).
Qed.

(** ** Identity path of an element *)

Lemma nonempty_true (s : string) : nonempty s = true <-> s <> "".
Proof. destruct s; simpl; split; intros; congruence. Qed.

Lemma nonempty_false (s : string) : nonempty s = false <-> s = "".
Proof. destruct s; simpl; split; intros; congruence. Qed.

(** C4, as stated, fails: a node with identity-bearing attributes but
    without parsed bounds gets the empty identity path. *)
Lemma C4_boundless_node_counterexample :
  attr boundless_node "resource-id" "" <> ""
  /\ attr boundless_node "text" "" <> ""
  /\ el_xpath (element_data boundless_node) = "".
Proof. vm_compute. repeat split; discriminate. Qed.

(** C4 (amended): the identity path is computed only for a node whose
    bounds were parsed; it then follows the precedence resource-id,
    accessible description, visible text, structural path, and is
    non-empty as soon as one of the three attributes is. A node without
    parsed bounds gets the empty string whatever its attributes. *)
Theorem C4_identity_path_precedence (n : node) :
  let class_name := last_segment "." (attr n "class" "") "" in
  let resource_id := attr n "resource-id" "" in
  let content_desc := attr n "content-desc" "" in
  let text := attr n "text" "" in
  let xpath := el_xpath (element_data n) in
  (node_coords n = None -> xpath = "")
  /\ (forall b, node_coords n = Some b ->
        (resource_id <> "" ->
           xpath = "//" +:+ class_name +:+ "[@resource-id='" +:+ resource_id +:+ "']")
        /\ (resource_id = "" -> content_desc <> "" ->
           xpath = "//" +:+ class_name +:+ "[@content-desc='" +:+ content_desc +:+ "']")
        /\ (resource_id = "" -> content_desc = "" -> text <> "" ->
           xpath = "//" +:+ class_name +:+ "[@text='" +:+ text +:+ "']")
        /\ (resource_id = "" -> content_desc = "" -> text = "" ->
           xpath = tree_path n)
        /\ (resource_id <> "" \/ content_desc <> "" \/ text <> "" -> xpath <> "")).
Proof.
  intros class_name resource_id content_desc text xpath.
  unfold xpath, element_data. simpl el_xpath. split.
  - by intros ->.
  - intros b ->. unfold get_formatted_xpath.
    fold class_name resource_id content_desc text.
    destruct (nonempty resource_id) eqn:Hr;
      [apply nonempty_true in Hr|apply nonempty_false in Hr;
       destruct (nonempty content_desc) eqn:Hc;
         [apply nonempty_true in Hc|apply nonempty_false in Hc;
          destruct (nonempty text) eqn:Ht;
            [apply nonempty_true in Ht|apply nonempty_false in Ht]]];
      repeat split; intros; try congruence; try discriminate;
      by intuition congruence.
Qed.

Lemma C4_identity_path_precedence_witness :
  node_coords bounded_node = Some (0, 0, 50, 50)
  /\ attr bounded_node "resource-id" "" <> ""
  /\ el_xpath (element_data bounded_node) = "//Button[@resource-id='com.app:id/ok']".
Proof.
  assert (node_coords bounded_node = Some (0, 0, 50, 50)) as Hc by (vm_compute; reflexivity).
  assert (attr bounded_node "resource-id" "" <> "") as Hr by (vm_compute; discriminate).
  split; [exact Hc|]. split; [exact Hr|].
  exact (proj1 (proj2 (C4_identity_path_precedence bounded_node) _ Hc) Hr).
Defined.

(** ** Rule catalog *)

Lemma load_rules_config_none read_file json_load (default_rules : catalog) :
  load_rules_config read_file json_load default_rules ConfigNone = Ok default_rules.
Proof. reflexivity. Qed.

(** A missing file is recovered: the defaults are returned. *)
Lemma load_rules_config_missing_file read_file json_load (default_rules : catalog) path :
  read_file path = None ->
  load_rules_config read_file json_load default_rules (ConfigPath path) = Ok default_rules.
Proof. intros H. simpl. by rewrite H. Qed.

(** A readable source is merged into the defaults. *)
Lemma load_rules_config_parsed read_file json_load (default_rules custom_rules : catalog)
    path text :
  read_file path = Some text -> json_load text = Some custom_rules ->
  load_rules_config read_file json_load default_rules (ConfigPath path)
  = Ok (merge_rules default_rules custom_rules).
Proof. intros Hr Hj. simpl. by rewrite Hr, Hj. Qed.

(** The merge: an override whose id is known overlays the supplied
    fields on the default definition, an unknown id is inserted as it
    is, and every other default is kept. *)
Lemma merge_rules_lookup (default_rules custom_rules : catalog) (rule_id : string) :
  merge_rules default_rules custom_rules !! rule_id =
  match custom_rules !! rule_id with
  | Some rule_config =>
      Some (match default_rules !! rule_id with
            | Some old => rule_config ∪ old
            | None => rule_config
            end)
  | None => default_rules !! rule_id
  end.
Proof.
  unfold merge_rules. revert rule_id.
  apply (map_fold_weak_ind
           (fun (r : catalog) (m : catalog) => forall rule_id,
              r !! rule_id = match m !! rule_id with
                             | Some rule_config =>
                                 Some (match default_rules !! rule_id with
                                       | Some old => rule_config ∪ old
                                       | None => rule_config
                                       end)
                             | None => default_rules !! rule_id
                             end)).
  - intros rule_id. by rewrite lookup_empty.
  - intros i x m r Hfresh IH rule_id. unfold merge_rule.
    pose proof (IH i) as Hi. rewrite Hfresh in Hi.
    destruct (decide (i = rule_id)) as [->|Hne].
    + rewrite Hi. destruct (default_rules !! rule_id); by rewrite !lookup_insert_eq.
    + rewrite (lookup_insert_ne m) by done.
      destruct (r !! i); rewrite lookup_insert_ne by done; apply IH.
Qed.

Lemma merged_field_lookup (rule_config old : gmap string value) (field : string) :
  (rule_config ∪ old) !! field =
  match rule_config !! field with
  | Some v => Some v
  | None => old !! field
  end.
Proof.
  destruct (rule_config !! field) eqn:H.
  - by apply lookup_union_Some_l.
  - by rewrite lookup_union_r.
Qed.

(** C5 (the code departs from the claim): when the override file exists
    but does not hold valid JSON, [load_rules_config] raises
    [JSONDecodeError] (only [FileNotFoundError] is caught) and the
    defaults are not returned. *)
Theorem C5_invalid_json_not_recovered (read_file : string -> option string)
    (json_load : string -> option catalog) (default_rules : catalog) (path text : string) :
  read_file path = Some text -> json_load text = None ->
  load_rules_config read_file json_load default_rules (ConfigPath path)
  = Raise JSONDecodeError.
Proof. intros Hr Hj. simpl. by rewrite Hr, Hj. Qed.

Lemma C5_invalid_json_not_recovered_witness :
  (fun _ : string => Some "{not json") "rules.json" = Some "{not json"
  /\ (fun _ : string => @None catalog) "{not json" = None
  /\ load_rules_config (fun _ => Some "{not json") (fun _ => None) ∅ (ConfigPath "rules.json")
     = Raise JSONDecodeError.
Proof.
  split; [reflexivity|]. split; [reflexivity|].
  exact (C5_invalid_json_not_recovered (fun _ => Some "{not json") (fun _ => None) ∅
           "rules.json" "{not json" eq_refl eq_refl).
Defined.

(** ** Target size *)

Lemma check_target_size_loop_spec rule rule_id guideline (m : Z) (elements : list element) :
  forall issues,
  exists found,
    check_target_size_loop rule rule_id guideline (VInt m) elements issues
    = Ok (issues ++ found)
    /\ forall i, i ∈ found <->
         exists e x1 y1 x2 y2,
           e ∈ elements /\ el_bounds e = Some (x1, y1, x2, y2) /\ el_clickable e = true
           /\ (x2 - x1 < m \/ y2 - y1 < m)
           /\ i = target_size_issue rule rule_id guideline (VInt m) e (x2 - x1) (y2 - y1).
Proof.
  induction elements as [|e rest IH]; intros issues; simpl.
  - exists []. rewrite app_nil_r. split; [done|].
    intros i. split; [by intros ?%elem_of_nil|].
    by intros (e & ? & ? & ? & ? & ?%elem_of_nil & _).
  - assert (forall (found : list issue) i,
      (i ∈ found <-> exists e0 x1 y1 x2 y2,
           e0 ∈ rest /\ el_bounds e0 = Some (x1, y1, x2, y2) /\ el_clickable e0 = true
           /\ (x2 - x1 < m \/ y2 - y1 < m)
           /\ i = target_size_issue rule rule_id guideline (VInt m) e0 (x2 - x1) (y2 - y1)) ->
      ~ (exists x1 y1 x2 y2, el_bounds e = Some (x1, y1, x2, y2) /\ el_clickable e = true
           /\ (x2 - x1 < m \/ y2 - y1 < m)) ->
      (i ∈ found <-> exists e0 x1 y1 x2 y2,
           e0 ∈ e :: rest /\ el_bounds e0 = Some (x1, y1, x2, y2) /\ el_clickable e0 = true
           /\ (x2 - x1 < m \/ y2 - y1 < m)
           /\ i = target_size_issue rule rule_id guideline (VInt m) e0 (x2 - x1) (y2 - y1))) as Hskip.
    { intros found i Hi Hno. rewrite Hi. split.
      - intros (e0 & x1 & y1 & x2 & y2 & Hin & Hrest).
        exists e0, x1, y1, x2, y2. split; [by apply elem_of_cons; right|done].
      - intros (e0 & x1 & y1 & x2 & y2 & Hin & Hb & Hc & Hsz & Heq).
        apply elem_of_cons in Hin as [->|Hin].
        + exfalso. apply Hno. by exists x1, y1, x2, y2.
        + by exists e0, x1, y1, x2, y2. }
    destruct (el_bounds e) as [[[[x1 y1] x2] y2]|] eqn:Hb.
    + destruct (el_clickable e) eqn:Hc.
      * unfold too_small, int_lt.
        destruct (Z.ltb_spec (x2 - x1) m) as [Hw|Hw];
          [|destruct (Z.ltb_spec (y2 - y1) m) as [Hh|Hh]]; rewrite bind_Ok.
        1,2: destruct (IH (issues ++
               [target_size_issue rule rule_id guideline (VInt m) e (x2 - x1) (y2 - y1)]))
               as (found & Heq & Hfound);
             exists (target_size_issue rule rule_id guideline (VInt m) e (x2 - x1) (y2 - y1) :: found);
             (split; [by rewrite Heq, <- app_assoc|]);
             intros i; rewrite elem_of_cons, Hfound; split;
             [ intros [->|(e0 & a1 & b1 & a2 & b2 & Hin & Hrest)];
               [ exists e, x1, y1, x2, y2; split; [by apply elem_of_cons; left|];
                 repeat split; try done; lia
               | exists e0, a1, b1, a2, b2; split; [by apply elem_of_cons; right|done] ]
             | intros (e0 & a1 & b1 & a2 & b2 & Hin & Hb0 & Hc0 & Hsz & ->);
               apply elem_of_cons in Hin as [->|Hin];
               [ left; rewrite Hb in Hb0; by inversion Hb0
               | right; by exists e0, a1, b1, a2, b2 ] ].
        destruct (IH issues) as (found & Heq & Hfound).
        exists found. split; [done|]. intros i. apply Hskip; [apply Hfound|].
        intros (a1 & b1 & a2 & b2 & Hb0 & _ & Hsz). inversion Hb0; subst. lia.
      * destruct (IH issues) as (found & Heq & Hfound).
        exists found. split; [done|]. intros i. apply Hskip; [apply Hfound|].
        by intros (a1 & b1 & a2 & b2 & _ & ? & _).
    + destruct (IH issues) as (found & Heq & Hfound).
      exists found. split; [done|]. intros i. apply Hskip; [apply Hfound|].
      by intros (a1 & b1 & a2 & b2 & ? & _).
Qed.

(** C7: with a configured minimum size [m], the target-size check
    reports exactly the clickable elements with parsed bounds whose width
    or height is strictly below [m]. *)
Theorem C7_target_size_boundary (rules : catalog) (rule : gmap string value)
    (rule_id guideline : string) (m : Z) (all_elements : list element) :
  rules !! rule_id = Some rule ->
  dict_get rule "min_size" (VInt 44) = VInt m ->
  exists found,
    _check_target_size rules all_elements rule_id guideline = Ok found
    /\ forall i, i ∈ found <->
         exists e x1 y1 x2 y2,
           e ∈ all_elements /\ el_bounds e = Some (x1, y1, x2, y2)
           /\ el_clickable e = true
           /\ (x2 - x1 < m \/ y2 - y1 < m)
           /\ i = target_size_issue rule rule_id guideline (VInt m) e (x2 - x1) (y2 - y1).
Proof.
  intros Hrule Hmin. unfold _check_target_size, rules_item.
  rewrite Hrule, bind_Ok, Hmin.
  destruct (check_target_size_loop_spec rule rule_id guideline m all_elements [])
    as (found & Heq & Hfound).
  exists found. by split.
Qed.

Lemma target_size_44_by_44_not_flagged :
  check_touch_target_size target_catalog [square 44 44] [square 44 44] [] [] "" = Ok [].
Proof. vm_compute. reflexivity. Qed.

Lemma target_size_43_by_44_flagged :
  exists i, check_touch_target_size target_catalog [square 43 44] [square 43 44] [] [] ""
            = Ok [i]
            /\ is_message i = "Touch target too small 43x44px (minimum 44x44px)".
Proof. eexists. split; vm_compute; reflexivity. Qed.

Lemma C7_target_size_boundary_witness :
  target_catalog !! "touch-target-size"
    = Some ({[ "priority" := VStr "high"; "min_size" := VInt 44 ]} : gmap string value)
  /\ exists found,
       _check_target_size target_catalog [square 43 44; square 44 44]
         "touch-target-size" "WCAG 2.5.5 - Target Size (Enhanced)" = Ok found
       /\ forall i, i ∈ found <->
            exists e x1 y1 x2 y2,
              e ∈ [square 43 44; square 44 44] /\ el_bounds e = Some (x1, y1, x2, y2)
              /\ el_clickable e = true
              /\ (x2 - x1 < 44 \/ y2 - y1 < 44)
              /\ i = target_size_issue {[ "priority" := VStr "high"; "min_size" := VInt 44 ]}
                       "touch-target-size" "WCAG 2.5.5 - Target Size (Enhanced)"
                       (VInt 44) e (x2 - x1) (y2 - y1).
Proof.
  split; [vm_compute; reflexivity|].
  apply (C7_target_size_boundary target_catalog
           {[ "priority" := VStr "high"; "min_size" := VInt 44 ]}).
  - vm_compute; reflexivity.
  - vm_compute; reflexivity.
Defined.

(** ** Focus order *)

Lemma key_lt_asym (k1 k2 : Z * Z) : key_lt k1 k2 = true -> key_lt k2 k1 = false.
Proof.
  unfold key_lt. destruct k1 as [a1 b1], k2 as [a2 b2]; simpl.
  destruct (Z.ltb_spec a1 a2), (Z.ltb_spec a2 a1), (Z.eqb_spec a1 a2), (Z.eqb_spec a2 a1),
    (Z.ltb_spec b1 b2), (Z.ltb_spec b2 b1); simpl; intros; try done; lia.
Qed.

Lemma insert_by_key_hd (x a : bounds * element) (l : list (bounds * element)) :
  not_before a x -> HdRel not_before a l -> HdRel not_before a (insert_by_key x l).
Proof.
  intros Hax Hal. destruct l as [|y rest]; simpl.
  - by constructor.
  - destruct (key_lt _ _); constructor; [done|]. by inversion Hal.
Qed.

Lemma insert_by_key_sorted (x : bounds * element) (l : list (bounds * element)) :
  Sorted not_before l -> Sorted not_before (insert_by_key x l).
Proof.
  induction l as [|y rest IH]; intros Hs; simpl.
  - by repeat constructor.
  - inversion Hs as [|? ? Hrest Hhd]; subst.
    destruct (key_lt (focus_key x.1) (focus_key y.1)) eqn:Hlt.
    + constructor; [done|]. constructor. by apply key_lt_asym.
    + constructor; [by apply IH|]. by apply insert_by_key_hd.
Qed.

Lemma sort_by_key_sorted (l : list (bounds * element)) :
  Sorted not_before (sort_by_key l).
Proof.
  unfold sort_by_key.
  assert (forall acc, Sorted not_before acc ->
            Sorted not_before (foldl (fun sorted x => insert_by_key x sorted) acc l)) as H.
  { induction l as [|x rest IH]; intros acc Hacc; simpl; [done|].
    apply IH. by apply insert_by_key_sorted. }
  apply H. constructor.
Qed.

(** Between two consecutive elements of the sorted list the later one
    is never higher on the screen, so the test of
    [has_illogical_focus_order] fails. *)
Lemma sorted_pair_is_logical (prev curr : bounds * element) :
  not_before prev curr -> has_illogical_focus_order prev curr = false.
Proof.
  unfold not_before, has_illogical_focus_order, key_lt, focus_key. simpl.
  destruct (Z.ltb_spec (bounds_1 curr.1) (bounds_1 prev.1)); simpl; [done|]. intros _.
  destruct (Z.ltb_spec (bounds_1 curr.1) (bounds_1 prev.1 - 100)); [lia|done].
Qed.

Lemma focus_order_loop_sorted (rules : catalog) (rest : list (bounds * element)) :
  forall prev issues,
    Sorted not_before (prev :: rest) ->
    focus_order_loop rules prev rest issues = Ok issues.
Proof.
  induction rest as [|curr rest' IH]; intros prev issues Hs; simpl; [done|].
  inversion Hs as [|? ? Hrest Hhd]; subst. inversion Hhd; subst.
  rewrite sorted_pair_is_logical by done. by apply IH.
Qed.

(** C9: the focus-order check never reports a finding: once the
    focusable elements are sorted by (top, left), no element lies more
    than 100 pixels above its predecessor. *)
Theorem C9_focus_order_never_flags (rules : catalog)
    (all_elements clickable_elements focusable_elements form_elements : list element)
    (screenshot_file : string) :
  check_focus_order rules all_elements clickable_elements focusable_elements
    form_elements screenshot_file = Ok [].
Proof.
  unfold check_focus_order.
  pose proof (sort_by_key_sorted (with_bounds focusable_elements)) as Hs.
  destruct (sort_by_key (with_bounds focusable_elements)) as [|first rest]; [done|].
  by apply focus_order_loop_sorted.
Qed.

(** ** Severity summary and audit score *)

Lemma count_priority_cons (p : string) (i : issue) (rest : list issue) :
  count_priority p (i :: rest)
  = (if has_priority p i then 1 else 0) + count_priority p rest.
Proof.
  unfold count_priority. simpl. destruct (has_priority p i); simpl length; lia.
Qed.

Lemma count_priority_nonneg (p : string) (issues : list issue) :
  0 <= count_priority p issues.
Proof. unfold count_priority. lia. Qed.

(** The loop over the findings adds to each bucket of the summary the
    number of findings of that priority, and ignores every other
    priority. *)
Lemma foldl_count_issue_lookup (issues : list issue) :
  forall (summary : gmap string Z) (k : string),
    foldl count_issue summary issues !! k
    = (fun n => n + count_priority k issues) <$> (summary !! k).
Proof.
  induction issues as [|i rest IH]; intros summary k; simpl.
  - destruct (summary !! k); simpl; [f_equal; unfold count_priority; simpl; lia|done].
  - rewrite IH, count_priority_cons. unfold count_issue, has_priority.
    destruct (is_priority i) as [| | |p] eqn:Hp;
      try (rewrite bool_decide_eq_false_2 by done;
           destruct (summary !! k); simpl; [f_equal; lia|done]).
    destruct (decide (p = k)) as [->|Hne].
    + rewrite bool_decide_eq_true_2 by done.
      destruct (summary !! k) eqn:Hk; simpl; [|by rewrite Hk].
      rewrite lookup_insert_eq. simpl. f_equal. lia.
    + rewrite bool_decide_eq_false_2 by congruence.
      destruct (summary !! p) eqn:Hsp.
      * rewrite lookup_insert_ne by done.
        destruct (summary !! k); simpl; [f_equal; lia|done].
      * destruct (summary !! k); simpl; [f_equal; lia|done].
Qed.

Lemma severity_summary_lookup (issues : list issue) (k : string) :
  k ∈ ["critical"; "high"; "medium"; "low"] ->
  severity_summary issues !! k = Some (count_priority k issues).
Proof.
  intros Hk. unfold severity_summary. rewrite foldl_count_issue_lookup.
  repeat (apply elem_of_cons in Hk as [->|Hk]; [vm_compute (summary_init !! _); simpl; f_equal; lia|]).
  by apply elem_of_nil in Hk.
Qed.

Lemma audit_score_counts (issues : list issue) :
  audit_score issues
  = score_of_counts (count_priority "critical" issues) (count_priority "high" issues)
      (count_priority "medium" issues) (count_priority "low" issues)
      (Z.of_nat (length issues)).
Proof.
  unfold audit_score, summary_item.
  rewrite !severity_summary_lookup by set_solver.
  by rewrite !bind_Ok.
Qed.

(** A finding falls in at most one bucket, and its doubled weight is
    read off the bucket. *)
Lemma priority_buckets (i : issue) :
  let c := if has_priority "critical" i then 1 else 0 in
  let h := if has_priority "high" i then 1 else 0 in
  let m := if has_priority "medium" i then 1 else 0 in
  let l := if has_priority "low" i then 1 else 0 in
  c + h + m + l <= 1 /\ weight2 i = 6 * c + 4 * h + 2 * m + l.
Proof.
  unfold has_priority, weight2.
  destruct (is_priority i) as [| | |p]; simpl;
    repeat case_bool_decide; simplify_eq; split; lia.
Qed.

Lemma counts_le_length (issues : list issue) :
  count_priority "critical" issues + count_priority "high" issues
  + count_priority "medium" issues + count_priority "low" issues
  <= Z.of_nat (length issues).
Proof.
  induction issues as [|i rest IH]; [done|].
  rewrite !count_priority_cons. pose proof (priority_buckets i) as [H _].
  simpl in H. simpl length. lia.
Qed.

Lemma weight2_sum_counts (issues : list issue) :
  weight2_sum issues
  = 6 * count_priority "critical" issues + 4 * count_priority "high" issues
    + 2 * count_priority "medium" issues + count_priority "low" issues.
Proof.
  induction issues as [|i rest IH]; [done|].
  rewrite !count_priority_cons. pose proof (priority_buckets i) as [_ H].
  simpl in H. simpl weight2_sum. fold (weight2_sum rest). lia.
Qed.

Lemma weight2_bounds (i : issue) : 0 <= weight2 i <= 6.
Proof.
  unfold weight2. destruct (is_priority i); try lia. repeat case_bool_decide; lia.
Qed.

Lemma weight2_sum_bounds (issues : list issue) :
  0 <= weight2_sum issues <= 6 * Z.of_nat (length issues).
Proof.
  induction issues as [|i rest IH]; simpl; [lia|].
  pose proof (weight2_bounds i). fold (weight2_sum rest). lia.
Qed.

(** The audit score computed in binary64 arithmetic is the exact
    integer formula, as long as the number of findings is below
    [max_findings]. *)
Lemma audit_score_exact (issues : list issue) :
  Z.of_nat (length issues) < max_findings ->
  audit_score issues
  = Ok (if Z.of_nat (length issues) =? 0 then 100
        else Z.max 0 (100 - 10 * weight2_sum issues / Z.of_nat (length issues))).
Proof.
  intros Hlen. rewrite audit_score_counts.
  destruct (Z.eqb_spec (Z.of_nat (length issues)) 0) as [H0|H0].
  - destruct issues; [|simpl in H0; lia]. vm_compute. reflexivity.
  - rewrite weight2_sum_counts.
    apply score_of_counts_exact; try apply count_priority_nonneg.
    + apply counts_le_length.
    + unfold max_findings in Hlen. lia.
Qed.





(** The bound [max_findings] cannot be dropped: with 89345936091306
    critical findings among 130750150377521 (about [2 ^ 47], more than
    any memory holds) the exact quotient is just below 41 and the
    binary64 product rounds up to 41.0. *)
Lemma score_of_counts_beyond_bound :
  score_of_counts 89345936091306 0 0 0 130750150377521 = Ok 59
  /\ Z.max 0 (100 - 10 * (6 * 89345936091306) / 130750150377521) = 60.
Proof. split; vm_compute; reflexivity. Qed.

(** *** Findings of unknown priority *)





Lemma weight2_unknown (i : issue) :
  (forall p, p ∈ ["critical"; "high"; "medium"; "low"] -> is_priority i <> VStr p) ->
  weight2 i = 0.
Proof.
  intros H. unfold weight2. destruct (is_priority i) as [| | |p]; try done.
  repeat case_bool_decide; try done; subst; exfalso; eapply H; try reflexivity; set_solver.
Qed.

Lemma weight2_sum_unknown (issues : list issue) :
  (forall i, i ∈ issues ->
     forall p, p ∈ ["critical"; "high"; "medium"; "low"] -> is_priority i <> VStr p) ->
  weight2_sum issues = 0.
Proof.
  induction issues as [|i rest IH]; intros H; simpl; [done|].
  fold (weight2_sum rest). rewrite weight2_unknown, IH; [done| |].
  - intros j Hj. apply H. by apply elem_of_cons; right.
  - apply H. by apply elem_of_cons; left.
Qed.



Lemma weight2_sum_app (l1 l2 : list issue) :
  weight2_sum (l1 ++ l2) = weight2_sum l1 + weight2_sum l2.
Proof.
  induction l1 as [|i rest IH]; simpl; [done|].
  fold (weight2_sum (rest ++ l2)) (weight2_sum rest). lia.
Qed.

Lemma weight2_sum_perm (l1 l2 : list issue) :
  l1 ≡ₚ l2 -> weight2_sum l1 = weight2_sum l2.
Proof.
  induction 1 as [|x l l' _ IH|x y l|l l' l'' _ IH1 _ IH2]; simpl;
    fold weight2_sum; try lia.
Qed.

(** Unknown-priority findings added to a list never lower its score. *)
Lemma unknown_findings_never_lower_score (A U : list issue) :
  (forall i, i ∈ U ->
     forall p, p ∈ ["critical"; "high"; "medium"; "low"] -> is_priority i <> VStr p) ->
  Z.of_nat (length (A ++ U)) < max_findings ->
  exists sA sAU, audit_score A = Ok sA /\ audit_score (A ++ U) = Ok sAU /\ sA <= sAU.
Proof.
  intros Hunk Hlen. rewrite length_app, Nat2Z.inj_add in Hlen.
  rewrite !audit_score_exact by (rewrite ?length_app, ?Nat2Z.inj_add; lia).
  do 2 eexists. split; [done|]. split; [done|].
  rewrite weight2_sum_app, (weight2_sum_unknown U) by done.
  rewrite Z.add_0_r, length_app, Nat2Z.inj_add.
  pose proof (weight2_sum_bounds A) as [HW HW6].
  set (WA := weight2_sum A) in *. set (tA := Z.of_nat (length A)) in *.
  set (tU := Z.of_nat (length U)) in *.
  assert (0 <= tA) as HtA by (unfold tA; lia).
  assert (0 <= tU) as HtU by (unfold tU; lia).
  clearbody WA tA tU.
  destruct (Z.eqb_spec tA 0) as [H0|H0].
  - assert (WA = 0) as -> by lia.
    destruct (Z.eqb_spec (tA + tU) 0); [done|].
    rewrite Z.mul_0_r, Z.div_0_l by lia. lia.
  - destruct (Z.eqb_spec (tA + tU) 0); [lia|].
    assert (10 * WA / (tA + tU) <= 10 * WA / tA).
    { apply Z.div_le_compat_l; lia. }
    lia.
Qed.

(** *** Monotonicity of the score *)

(** C2, as stated, fails: one critical finding scores 40, and adding a
    medium finding to it raises the score to 60. *)
Lemma C2_lighter_finding_counterexample :
  ~ (forall (A B extra : list issue) (sA sB : Z),
       B ≡ₚ A ++ extra ->
       (forall x, x ∈ extra ->
          is_priority x ∈ [VStr "medium"; VStr "high"; VStr "critical"]) ->
       audit_score A = Ok sA -> audit_score B = Ok sB -> sB <= sA).
Proof.
  intros H.
  specialize (H [finding "critical"] [finding "critical"; finding "medium"]
                [finding "medium"] 40 60).
  assert (60 <= 40); [|lia]. apply H.
  - done.
  - intros x Hx. apply list_elem_of_singleton in Hx as ->. set_solver.
  - vm_compute; reflexivity.
  - vm_compute; reflexivity.
Qed.

Lemma extra_weight_at_least_mean (W t : Z) (extra : list issue) :
  (forall x, x ∈ extra -> W <= weight2 x * t) ->
  Z.of_nat (length extra) * W <= weight2_sum extra * t.
Proof.
  induction extra as [|x rest IH]; intros H; simpl; [lia|].
  fold (weight2_sum rest).
  assert (W <= weight2 x * t) by (apply H; by apply elem_of_cons; left).
  assert (Z.of_nat (length rest) * W <= weight2_sum rest * t).
  { apply IH. intros y Hy. apply H. by apply elem_of_cons; right. }
  lia.
Qed.

(** C2 (amended): when B is A plus additional findings of priority
    medium, high or critical, each weighing at least the mean weight of
    the findings of A (which any critical finding does), the audit score
    of B is at most the audit score of A. *)
Theorem C2_score_monotone_heavier (A B extra : list issue) :
  B ≡ₚ A ++ extra ->
  (forall x, x ∈ extra ->
     is_priority x ∈ [VStr "medium"; VStr "high"; VStr "critical"]) ->
  (forall x, x ∈ extra -> weight2_sum A <= weight2 x * Z.of_nat (length A)) ->
  Z.of_nat (length B) < max_findings ->
  exists sA sB, audit_score A = Ok sA /\ audit_score B = Ok sB /\ sB <= sA.
Proof.
  intros Hperm _ Hheavy Hlen.
  pose proof (Permutation_length Hperm) as HlenB.
  pose proof (weight2_sum_perm _ _ Hperm) as HWB.
  rewrite length_app in HlenB. rewrite weight2_sum_app in HWB.
  rewrite !audit_score_exact by lia.
  do 2 eexists. split; [done|]. split; [done|].
  rewrite HWB, HlenB, Nat2Z.inj_add.
  pose proof (weight2_sum_bounds A) as [HWA _].
  pose proof (weight2_sum_bounds extra) as [HWE _].
  pose proof (extra_weight_at_least_mean _ _ _ Hheavy) as Hmean.
  set (WA := weight2_sum A) in *. set (WE := weight2_sum extra) in *.
  set (tA := Z.of_nat (length A)) in *. set (k := Z.of_nat (length extra)) in *.
  assert (0 <= tA) as HtA by (unfold tA; lia).
  assert (0 <= k) as Hk by (unfold k; lia).
  clearbody WA WE tA k.
  destruct (Z.eqb_spec tA 0) as [H0|H0].
  - destruct (Z.eqb_spec (tA + k) 0); [done|].
    assert (0 <= 10 * (WA + WE) / (tA + k)) by (apply Z.div_pos; lia). lia.
  - destruct (Z.eqb_spec (tA + k) 0); [lia|].
    assert (10 * WA / tA <= 10 * (WA + WE) / (tA + k)); [|lia].
    set (q := 10 * WA / tA).
    assert (0 <= q) as Hq by (apply Z.div_pos; lia).
    assert (tA * q <= 10 * WA) as H1 by (apply Z.mul_div_le; lia).
    assert (k * q <= 10 * WE) as H2.
    { apply (Z.mul_le_mono_pos_r _ _ tA); [lia|].
      assert (k * (tA * q) <= k * (10 * WA)) by (apply Z.mul_le_mono_nonneg_l; lia).
      lia. }
    apply Z.div_le_lower_bound; lia.
Qed.

Lemma C2_score_monotone_heavier_witness :
  exists sA sB,
    audit_score [finding "medium"] = Ok sA
    /\ audit_score [finding "critical"; finding "medium"] = Ok sB /\ sB <= sA.
Proof.
  apply (C2_score_monotone_heavier [finding "medium"] [finding "critical"; finding "medium"]
           [finding "critical"]).
  - apply Permutation_swap.
  - intros x Hx. apply list_elem_of_singleton in Hx as ->. set_solver.
  - intros x Hx. apply list_elem_of_singleton in Hx as ->. vm_compute. discriminate.
  - vm_compute; reflexivity.
Defined.

(** * Further properties of the code *)

(** ** Parsing the bounds attribute *)

Lemma append_cons (c : ascii) (r t : string) : String c r +:+ t = String c (r +:+ t).
Proof. reflexivity. Qed.

Lemma append_nil_r (s : string) : s +:+ "" = s.
Proof. induction s as [|c r IH]; [done|]. by rewrite append_cons, IH. Qed.

Lemma append_assoc (s t u : string) : (s +:+ t) +:+ u = s +:+ t +:+ u.
Proof. induction s as [|c r IH]; [done|]. by rewrite !append_cons, IH. Qed.

Lemma plain_chars (c : ascii) :
  plain c = true ->
  Ascii.eqb c "[" = false /\ Ascii.eqb c "]" = false /\ Ascii.eqb c "," = false
  /\ is_space c = false.
Proof.
  unfold plain. destruct (Ascii.eqb c "["), (Ascii.eqb c "]"), (Ascii.eqb c ","),
    (is_space c); simpl; intros; done.
Qed.

Lemma replace_bracket_pair_cons (c : ascii) (s : string) :
  Ascii.eqb c "]" = false ->
  replace_bracket_pair (String c s) = String c (replace_bracket_pair s).
Proof. intros Hc. simpl. rewrite Hc. by destruct s. Qed.

Lemma replace_bracket_pair_plain (s t : string) :
  all_chars plain s = true ->
  replace_bracket_pair (s +:+ t) = s +:+ replace_bracket_pair t.
Proof.
  induction s as [|c r IH]; [done|]. intros [Hc Hr]%andb_prop.
  apply plain_chars in Hc as (_ & Hc & _).
  rewrite !append_cons.
  rewrite replace_bracket_pair_cons by done. by rewrite IH.
Qed.

Lemma remove_char_plain (ch : ascii) (s t : string) :
  ch = "["%char \/ ch = "]"%char ->
  all_chars plain s = true ->
  remove_char ch (s +:+ t) = s +:+ remove_char ch t.
Proof.
  intros Hch. induction s as [|c r IH]; [done|]. intros [Hc Hr]%andb_prop.
  apply plain_chars in Hc as (Hc1 & Hc2 & _). rewrite !append_cons. simpl.
  destruct Hch as [->| ->]; rewrite ?Hc1, ?Hc2; by rewrite IH.
Qed.

Lemma split_on_plain (s t : string) :
  all_chars plain s = true ->
  forall cur, split_on "," (s +:+ t) cur = split_on "," t (cur +:+ s).
Proof.
  induction s as [|c r IH]; intros Hs cur.
  - by rewrite append_nil_r.
  - apply andb_prop in Hs as [Hc Hr]. apply plain_chars in Hc as (_ & _ & Hc & _).
    rewrite append_cons. simpl. rewrite Hc, IH by done.
    by rewrite append_assoc.
Qed.

Lemma strip_plain (s : string) : all_chars plain s = true -> strip s = s.
Proof.
  intros Hs. unfold strip.
  assert (lstrip s = s) as ->.
  { destruct s as [|c r]; [done|]. apply andb_prop in Hs as [Hc _].
    apply plain_chars in Hc as (_ & _ & _ & Hc). simpl. by rewrite Hc. }
  induction s as [|c r IH]; [done|]. apply andb_prop in Hs as [Hc Hr].
  apply plain_chars in Hc as (_ & _ & _ & Hc). simpl. by rewrite Hc, IH.
Qed.

(** The parts of a bounds attribute in the form of the UI dump. *)
Lemma parse_bounds_parts (A B C D : string) :
  all_chars plain A = true -> all_chars plain B = true ->
  all_chars plain C = true -> all_chars plain D = true ->
  split_on ","
    (remove_char "]" (remove_char "["
       (replace_bracket_pair ("[" +:+ A +:+ "," +:+ B +:+ "][" +:+ C +:+ "," +:+ D +:+ "]"))))
    "" = [A; B; C; D].
Proof.
  intros HA HB HC HD.
  change ("[" +:+ A +:+ "," +:+ B +:+ "][" +:+ C +:+ "," +:+ D +:+ "]")
    with (String "[" (A +:+ String "," (B +:+ String "]" (String "["
            (C +:+ String "," (D +:+ String "]" EmptyString)))))).
  rewrite replace_bracket_pair_cons by done.
  rewrite replace_bracket_pair_plain by done.
  rewrite replace_bracket_pair_cons by done.
  rewrite replace_bracket_pair_plain by done.
  change (replace_bracket_pair (String "]" (String "["
            (C +:+ String "," (D +:+ String "]" EmptyString)))))
    with (String "," (replace_bracket_pair (C +:+ String "," (D +:+ String "]" EmptyString)))).
  rewrite replace_bracket_pair_plain by done.
  rewrite replace_bracket_pair_cons by done.
  rewrite replace_bracket_pair_plain by done.
  change (replace_bracket_pair (String "]" EmptyString)) with (String "]" EmptyString).
  change (remove_char "[" (String "[" ?s)) with (remove_char "[" s).
  cbn [remove_char Ascii.eqb Bool.eqb].
  repeat (rewrite (remove_char_plain "[") by (by left || done);
          cbn [remove_char Ascii.eqb Bool.eqb]).
  repeat (rewrite (remove_char_plain "]") by (by right || done);
          cbn [remove_char Ascii.eqb Bool.eqb]).
  repeat (rewrite split_on_plain by done; cbn [split_on Ascii.eqb Bool.eqb String.append]).
  reflexivity.
Qed.

Lemma is_digit_spec (c : ascii) :
  is_digit c = true ->
  exists d, digit_of c = Some d /\ 0 <= d <= 9 /\ plain c = true
            /\ Ascii.eqb c "_" = false /\ Ascii.eqb c "+" = false
            /\ Ascii.eqb c "-" = false.
Proof.
  destruct c as [[] [] [] [] [] [] [] []]; vm_compute; try discriminate;
    intros _; eexists; repeat split; discriminate.
Qed.

Lemma pretty_N_char_digit (d : N) :
  (d < 10)%N ->
  is_digit (pretty_N_char d) = true /\ digit_of (pretty_N_char d) = Some (Z.of_N d).
Proof.
  intros Hd.
  assert (d = 0 \/ d = 1 \/ d = 2 \/ d = 3 \/ d = 4 \/ d = 5 \/ d = 6 \/ d = 7
          \/ d = 8 \/ d = 9)%N as H by lia.
  repeat (destruct H as [->|H]; [by vm_compute|]). subst. by vm_compute.
Qed.

Lemma pretty_N_go_digits (x : N) :
  forall s, all_chars is_digit s = true -> all_chars is_digit (pretty_N_go x s) = true.
Proof.
  induction x as [x IH] using (well_founded_ind N.lt_wf_0). intros s Hs.
  destruct (decide (x = 0)%N) as [->|Hx]; [by rewrite pretty_N_go_0|].
  rewrite pretty_N_go_step by lia. apply IH.
  - apply N.div_lt; lia.
  - simpl. rewrite Hs, andb_true_r. apply pretty_N_char_digit. by apply N.mod_lt.
Qed.

Lemma parse_digits_pretty_N_go (x : N) :
  (0 < x)%N ->
  exists p, forall s acc after_digit,
    parse_digits (pretty_N_go x s) acc after_digit
    = parse_digits s (acc * p + Z.of_N x) true.
Proof.
  induction x as [x IH] using (well_founded_ind N.lt_wf_0). intros Hx.
  assert (forall s acc after_digit,
            parse_digits (String (pretty_N_char (x `mod` 10)) s) acc after_digit
            = parse_digits s (10 * acc + Z.of_N (x `mod` 10)) true) as Hstep.
  { intros s acc after_digit.
    destruct (pretty_N_char_digit (x `mod` 10)) as [Hd Hv]; [by apply N.mod_lt|].
    apply is_digit_spec in Hd as (d & _ & _ & _ & Hu & _).
    simpl. by rewrite Hu, Hv. }
  pose proof (N.div_mod x 10 ltac:(lia)) as Hdm.
  destruct (decide (x `div` 10 = 0)%N) as [H0|H0].
  - exists 10. intros s acc after_digit.
    rewrite pretty_N_go_step, H0, pretty_N_go_0, Hstep by done.
    f_equal. lia.
  - destruct (IH (x `div` 10)%N) as [p Hp];
      [apply N.div_lt; lia|by apply N.neq_0_lt_0|].
    exists (10 * p). intros s acc after_digit.
    rewrite pretty_N_go_step, Hp, Hstep by done.
    f_equal. lia.
Qed.

Lemma all_chars_impl (P Q : ascii -> bool) (s : string) :
  (forall c, P c = true -> Q c = true) -> all_chars P s = true -> all_chars Q s = true.
Proof.
  intros HPQ. induction s as [|c r IH]; [done|]. simpl.
  intros [Hc Hr]%andb_prop. by rewrite (HPQ c Hc), IH.
Qed.

Lemma pretty_positive_digits (x : positive) :
  all_chars is_digit (pretty x) = true
  /\ parse_digits (pretty x) 0 false = Some (Zpos x)
  /\ exists c r, pretty x = String c r /\ is_digit c = true.
Proof.
  unfold pretty, pretty_positive, pretty, pretty_N.
  rewrite decide_False by done.
  assert (all_chars is_digit (pretty_N_go (N.pos x) "") = true) as Hd
    by (by apply pretty_N_go_digits).
  split; [done|]. split.
  - destruct (parse_digits_pretty_N_go (N.pos x)) as [p Hp]; [lia|].
    rewrite Hp. simpl. f_equal.
  - destruct (pretty_N_go (N.pos x) "") as [|c r] eqn:Hs.
    + destruct (parse_digits_pretty_N_go (N.pos x)) as [p Hp]; [lia|].
      specialize (Hp "" 0 false). rewrite Hs in Hp. done.
    + exists c, r. split; [done|]. by apply andb_prop in Hd as [Hc _].
Qed.

Lemma pretty_Z_plain (n : Z) : all_chars plain (pretty n) = true.
Proof.
  assert (forall x : positive, all_chars plain (pretty x) = true) as Hpos.
  { intros x. destruct (pretty_positive_digits x) as [Hd _].
    eapply all_chars_impl; [|done]. intros c Hc.
    by apply is_digit_spec in Hc as (d & _ & _ & Hp & _). }
  destruct n as [|x|x]; [done|apply Hpos|].
  change (pretty (Z.neg x)) with (String "-" (pretty x)). simpl. apply Hpos.
Qed.

(** [int] reads back the decimal form of an integer. *)
Lemma py_int_pretty (n : Z) : py_int (pretty n) = Some n.
Proof.
  unfold py_int. rewrite strip_plain by apply pretty_Z_plain.
  destruct n as [|x|x]; [done| |].
  - change (pretty (Z.pos x)) with (pretty x).
    destruct (pretty_positive_digits x) as (_ & Hv & c & r & Hs & Hc).
    rewrite Hs in *. apply is_digit_spec in Hc as (d & _ & _ & _ & _ & Hplus & Hminus).
    by rewrite Hplus, Hminus.
  - change (pretty (Z.neg x)) with (String "-" (pretty x)).
    destruct (pretty_positive_digits x) as (_ & Hv & _).
    change (Ascii.eqb "-" "+") with false. change (Ascii.eqb "-" "-") with true.
    cbn [negb]. by rewrite Hv.
Qed.

(** X1: [parse_bounds] reads back every rectangle written in the form of the
    UI dump, [[x1,y1][x2,y2]], for all integers, negative ones included;
    the corners come out ordered. *)
Theorem parse_bounds_reads_dump_format (x1 y1 x2 y2 : Z) :
  parse_bounds (format_bounds x1 y1 x2 y2)
  = Some (Z.min x1 x2, Z.min y1 y2, Z.max x1 x2, Z.max y1 y2).
Proof.
  unfold parse_bounds, format_bounds.
  rewrite parse_bounds_parts by apply pretty_Z_plain.
  by rewrite !py_int_pretty.
Qed.

(** ** Parsed bounds *)

Lemma parse_bounds_ordered (bounds_str : string) (x1 y1 x2 y2 : Z) :
  parse_bounds bounds_str = Some (x1, y1, x2, y2) -> x1 <= x2 /\ y1 <= y2.
Proof.
  unfold parse_bounds.
  destruct (split_on _ _ _) as [|p1 [|p2 [|p3 [|p4 [|? ?]]]]]; try done.
  destruct (py_int p1) as [a|]; [|done]. destruct (py_int p2) as [b|]; [|done].
  destruct (py_int p3) as [c|]; [|done]. destruct (py_int p4) as [d|]; [|done].
  simpl. intros H. inversion H; subst. lia.
Qed.

Lemma element_data_bounds (n : node) (b : bounds) :
  el_bounds (element_data n) = Some b ->
  exists bounds_str, attrib n !! "bounds" = Some bounds_str /\ parse_bounds bounds_str = Some b.
Proof.
  simpl. unfold node_coords. destruct (attrib n !! "bounds") as [s|]; [|done].
  destruct (nonempty s); [|done]. intros H. by exists s.
Qed.

(** X2: [parse_bounds] orders the corners, so the rectangle of every element
    is normalised: its width and height are not negative, and it
    overlaps itself. ([elements_overlap] is not reflexive on rectangles
    with swapped corners.) *)
Theorem element_bounds_normalised (n : node) (x1 y1 x2 y2 : Z) :
  el_bounds (element_data n) = Some (x1, y1, x2, y2) ->
  0 <= x2 - x1 /\ 0 <= y2 - y1
  /\ elements_overlap (x1, y1, x2, y2) (x1, y1, x2, y2) = true
  /\ elements_overlap (x2, y1, x1, y2) (x2, y1, x1, y2) = bool_decide (x1 = x2).
Proof.
  intros (s & _ & [Hx Hy]%parse_bounds_ordered)%element_data_bounds.
  split; [lia|]. split; [lia|]. unfold elements_overlap. split.
  - destruct (Z.ltb_spec x2 x1), (Z.ltb_spec y2 y1); simpl; try done; lia.
  - destruct (Z.ltb_spec x1 x2), (Z.ltb_spec y2 y1); simpl; try lia.
    + by rewrite bool_decide_eq_false_2 by lia.
    + by rewrite bool_decide_eq_true_2 by lia.
Qed.

Lemma element_bounds_normalised_witness :
  el_bounds (element_data bounded_node) = Some (0, 0, 50, 50)
  /\ elements_overlap (0, 0, 50, 50) (0, 0, 50, 50) = true.
Proof.
  assert (el_bounds (element_data bounded_node) = Some (0, 0, 50, 50)) as H
    by (vm_compute; reflexivity).
  split; [exact H|].
  exact (proj1 (proj2 (proj2 (element_bounds_normalised bounded_node 0 0 50 50 H)))).
Defined.

(** ** Whitespace stripping and the text heuristics *)

Lemma rstrip_idemp (s : string) : rstrip (rstrip s) = rstrip s.
Proof.
  induction s as [|c r IH]; [done|]. simpl.
  destruct (is_space c && negb (nonempty (rstrip r))) eqn:Hc; [done|].
  simpl. by rewrite IH, Hc.
Qed.

Lemma lstrip_head (s : string) :
  match lstrip s with
  | EmptyString => True
  | String c _ => is_space c = false
  end.
Proof.
  induction s as [|c r IH]; [done|]. simpl.
  destruct (is_space c) eqn:Hc; [done|]. simpl. done.
Qed.

Lemma lstrip_rstrip_lstrip (s : string) : lstrip (rstrip (lstrip s)) = rstrip (lstrip s).
Proof.
  pose proof (lstrip_head s) as H. destruct (lstrip s) as [|c r]; [done|].
  simpl. rewrite H. simpl. by rewrite H.
Qed.

Lemma strip_idemp (s : string) : strip (strip s) = strip s.
Proof. unfold strip. by rewrite lstrip_rstrip_lstrip, rstrip_idemp. Qed.

Lemma is_prefix_refl (s : string) : is_prefix s s = true.
Proof. induction s as [|c r IH]; [done|]. simpl. by rewrite Ascii.eqb_refl. Qed.

Lemma contains_refl (s : string) : contains s s = true.
Proof. destruct s; simpl; [done|]. by rewrite Ascii.eqb_refl, is_prefix_refl. Qed.

(** ** Checks that scan one collection *)

Lemma scan_elements_found rules rule rule_id default_priority guideline reported message
    (elements : list element) :
  rules !! rule_id = Some rule ->
  forall issues,
    scan_elements rules rule_id default_priority guideline reported message elements issues
    = Ok (issues ++ (scan_finding rule rule_id default_priority guideline message
                       <$> List.filter reported elements)).
Proof.
  intros Hrule. induction elements as [|e rest IH]; intros issues; simpl.
  - by rewrite app_nil_r.
  - destruct (reported e); [|apply IH].
    unfold rules_item. rewrite Hrule, bind_Ok, IH, <- app_assoc. done.
Qed.

Lemma scan_elements_missing_rule rules rule_id default_priority guideline reported message
    (elements : list element) :
  rules !! rule_id = None ->
  forall issues,
    scan_elements rules rule_id default_priority guideline reported message elements issues
    = if existsb reported elements then Raise KeyError else Ok issues.
Proof.
  intros Hrule. induction elements as [|e rest IH]; intros issues; simpl; [done|].
  destruct (reported e); simpl; [|apply IH].
  unfold rules_item. by rewrite Hrule.
Qed.

(** [check_missing_labels] has the shape of the scanning checks. *)
Lemma check_missing_labels_loop_scan rules (elements : list element) :
  forall issues,
    check_missing_labels_loop rules elements issues
    = scan_elements rules "missing-labels" "critical" "WCAG 1.3.1 - Info and Relationships"
        (fun element => negb (nonempty (el_text element))
                        && negb (nonempty (el_content_desc element)))
        (fun _ => "Clickable element has no visible label or content description")
        elements issues.
Proof.
  induction elements as [|e rest IH]; intros issues; simpl; [done|].
  destruct (negb (nonempty (el_text e)) && negb (nonempty (el_content_desc e))); [|apply IH].
  destruct (rules_item rules "missing-labels") as [rule|]; [|done].
  rewrite !bind_Ok. apply IH.
Qed.

Lemma elem_of_filter_list {A : Type} (P : A -> bool) (l : list A) (x : A) :
  x ∈ List.filter P l <-> x ∈ l /\ P x = true.
Proof. rewrite !list_elem_of_In. apply filter_In. Qed.

Lemma scan_elements_ext rules rule_id default_priority guideline reported reported' message
    (elements : list element) :
  (forall e, reported e = reported' e) ->
  forall issues,
    scan_elements rules rule_id default_priority guideline reported message elements issues
    = scan_elements rules rule_id default_priority guideline reported' message elements issues.
Proof.
  intros Hext. induction elements as [|e rest IH]; intros issues; simpl; [done|].
  rewrite <- Hext. destruct (reported e); [|apply IH].
  destruct (rules_item rules rule_id); [|done]. rewrite !bind_Ok. apply IH.
Qed.

Lemma texts_are_similar_refl (text : string) : texts_are_similar text text = true.
Proof. unfold texts_are_similar. by rewrite contains_refl. Qed.

(** X4: [texts_are_similar] is symmetric and reflexive, and its third
    disjunct [t1 == t2] adds nothing to the two containment tests. *)
Theorem texts_are_similar_symmetric (text1 text2 : string) :
  texts_are_similar text1 text2 = texts_are_similar text2 text1
  /\ texts_are_similar text1 text1 = true
  /\ texts_are_similar text1 text2
     = contains (strip (lower text1)) (strip (lower text2))
       || contains (strip (lower text2)) (strip (lower text1)).
Proof.
  unfold texts_are_similar.
  set (t1 := strip (lower text1)). set (t2 := strip (lower text2)).
  split; [|split].
  - rewrite (String.eqb_sym t1 t2). by rewrite (orb_comm (contains t1 t2)).
  - by rewrite contains_refl.
  - destruct (String.eqb_spec t1 t2) as [->|_].
    + by rewrite contains_refl.
    + by rewrite orb_false_r.
Qed.

(** X5: In [check_label_in_name] the guard [visible_text != accessible_name]
    decides nothing: equal texts are similar, so the check reports the
    same elements without it. *)
Theorem label_in_name_equality_guard_redundant (rules : catalog)
    (all_elements clickable_elements focusable_elements form_elements : list element)
    (screenshot_file : string) :
  check_label_in_name rules all_elements clickable_elements focusable_elements
    form_elements screenshot_file
  = scan_elements rules "label-in-name" "high" "WCAG 2.5.3 - Label in Name"
      (fun element => nonempty (el_text element) && nonempty (el_content_desc element)
                      && negb (texts_are_similar (el_text element) (el_content_desc element)))
      (fun element => "Visible text '" +:+ el_text element
                      +:+ "' doesn't match accessible name '"
                      +:+ el_content_desc element +:+ "'")
      all_elements [].
Proof.
  unfold check_label_in_name. apply scan_elements_ext. intros e.
  destruct (String.eqb_spec (el_text e) (el_content_desc e)) as [Heq|_].
  - rewrite Heq, texts_are_similar_refl. simpl. by rewrite !andb_false_r.
  - simpl. by rewrite andb_true_r.
Qed.

(** X3: The texts of an element are stored stripped, so the [strip] calls of
    the two text heuristics change nothing on them: for a non-empty
    element text the test [len(text.strip()) == 0] of
    [is_unclear_button_text] never holds, and [is_unclear_link_text]
    measures the text itself. *)
Theorem element_text_is_stripped (n : node) :
  let text := el_text (element_data n) in
  strip text = text
  /\ strip (el_content_desc (element_data n)) = el_content_desc (element_data n)
  /\ (text <> "" ->
      is_unclear_button_text text
      = bool_decide (lower text ∈ ["submit"; "ok"; "cancel"; "yes"; "no"; "click"; "button"]))
  /\ is_unclear_link_text text
     = bool_decide (lower text ∈ ["click here"; "read more"; "link"; "here"; "this"; "more info"])
       || (String.length text <? 3)%nat.
Proof.
  simpl. split; [apply strip_idemp|]. split; [apply strip_idemp|]. split.
  - intros Hne. unfold is_unclear_button_text. rewrite strip_idemp.
    destruct (strip (attr n "text" "")); [done|]. simpl. by rewrite orb_false_r.
  - unfold is_unclear_link_text. by rewrite strip_idemp.
Qed.

Lemma element_text_is_stripped_witness :
  el_text (element_data small_button) <> ""
  /\ is_unclear_button_text (el_text (element_data small_button))
     = bool_decide (lower (el_text (element_data small_button))
                      ∈ ["submit"; "ok"; "cancel"; "yes"; "no"; "click"; "button"]).
Proof.
  assert (el_text (element_data small_button) <> "") as H by (vm_compute; discriminate).
  split; [exact H|].
  exact (proj1 (proj2 (proj2 (element_text_is_stripped small_button))) H).
Defined.

(** X6: Every clickable element without a label is reported twice: the
    elements that [check_missing_labels] reports are all reported by
    [check_name_role_value] as well. *)
Theorem missing_labels_within_name_role_value (rules : catalog)
    (rule1 rule2 : gmap string value) (nodes : list node) (screenshot_file : string) :
  rules !! "missing-labels" = Some rule1 ->
  rules !! "name-role-value" = Some rule2 ->
  let c := collect_elements nodes in
  exists found1 found2,
    check_missing_labels rules (all_elements c) (clickable_elements c)
      (focusable_elements c) (form_elements c) screenshot_file = Ok found1
    /\ check_name_role_value rules (all_elements c) (clickable_elements c)
         (focusable_elements c) (form_elements c) screenshot_file = Ok found2
    /\ forall i, i ∈ found1 ->
         exists e, e ∈ all_elements c
           /\ i = scan_finding rule1 "missing-labels" "critical"
                    "WCAG 1.3.1 - Info and Relationships"
                    (fun _ => "Clickable element has no visible label or content description") e
           /\ scan_finding rule2 "name-role-value" "high" "WCAG 4.1.2 - Name, Role, Value"
                (fun _ => "Interactive element missing accessible name") e ∈ found2.
Proof.
  intros H1 H2 c. unfold check_missing_labels, check_name_role_value.
  rewrite check_missing_labels_loop_scan.
  rewrite (scan_elements_found _ _ _ _ _ _ _ _ H1), (scan_elements_found _ _ _ _ _ _ _ _ H2).
  do 2 eexists. split; [done|]. split; [done|]. simpl.
  intros i (e & -> & He)%list_elem_of_fmap.
  apply elem_of_filter_list in He as [He Hrep].
  apply elem_of_filter_list in He as [He Hclick].
  apply andb_prop in Hrep as [Ht Hd].
  exists e. split; [done|]. split; [done|].
  apply list_elem_of_fmap. exists e. split; [done|].
  apply elem_of_filter_list. split; [done|].
  rewrite Hclick. simpl.
  destruct (nonempty (el_text e)); [done|]. by destruct (nonempty (el_content_desc e)).
Qed.

Lemma missing_labels_within_name_role_value_witness :
  sample_catalog !! "missing-labels"
    = Some (sample_rule "critical" "WCAG 1.3.1 - Info and Relationships")
  /\ sample_catalog !! "name-role-value"
    = Some (sample_rule "high" "WCAG 4.1.2 - Name, Role, Value")
  /\ exists found1 found2,
       check_missing_labels sample_catalog
         (all_elements (collect_elements [unlabeled_node]))
         (clickable_elements (collect_elements [unlabeled_node]))
         (focusable_elements (collect_elements [unlabeled_node]))
         (form_elements (collect_elements [unlabeled_node])) "" = Ok found1
       /\ check_name_role_value sample_catalog
            (all_elements (collect_elements [unlabeled_node]))
            (clickable_elements (collect_elements [unlabeled_node]))
            (focusable_elements (collect_elements [unlabeled_node]))
            (form_elements (collect_elements [unlabeled_node])) "" = Ok found2
       /\ length found1 = 1%nat /\ length found2 = 1%nat.
Proof.
  assert (sample_catalog !! "missing-labels"
          = Some (sample_rule "critical" "WCAG 1.3.1 - Info and Relationships")) as H1
    by (vm_compute; reflexivity).
  assert (sample_catalog !! "name-role-value"
          = Some (sample_rule "high" "WCAG 4.1.2 - Name, Role, Value")) as H2
    by (vm_compute; reflexivity).
  split; [exact H1|]. split; [exact H2|].
  destruct (missing_labels_within_name_role_value sample_catalog _ _ [unlabeled_node] "" H1 H2)
    as (found1 & found2 & E1 & E2 & _).
  exists found1, found2. split; [exact E1|]. split; [exact E2|].
  vm_compute in E1, E2. inversion E1. inversion E2. split; reflexivity.
Defined.

(** X7: Every image without text alternative is reported twice: the
    elements that [check_text_alternatives] reports are all reported by
    [check_image_descriptions] as well. *)
Theorem text_alternatives_within_image_descriptions (rules : catalog)
    (rule1 rule2 : gmap string value)
    (all_elements clickable_elements focusable_elements form_elements : list element)
    (screenshot_file : string) :
  rules !! "text-alternatives" = Some rule1 ->
  rules !! "image-descriptions" = Some rule2 ->
  exists found1 found2,
    check_text_alternatives rules all_elements clickable_elements
      focusable_elements form_elements screenshot_file = Ok found1
    /\ check_image_descriptions rules all_elements clickable_elements
         focusable_elements form_elements screenshot_file = Ok found2
    /\ forall i, i ∈ found1 ->
         exists e, e ∈ all_elements
           /\ i = scan_finding rule1 "text-alternatives" "critical"
                    "WCAG 1.1.1 - Non-text Content"
                    (fun _ => "Image element missing text alternative (content description)") e
           /\ scan_finding rule2 "image-descriptions" "critical"
                "WCAG 1.1.1 - Non-text Content"
                (fun _ => "Image missing content description") e ∈ found2.
Proof.
  intros H1 H2. unfold check_text_alternatives, check_image_descriptions.
  rewrite (scan_elements_found _ _ _ _ _ _ _ _ H1), (scan_elements_found _ _ _ _ _ _ _ _ H2).
  do 2 eexists. split; [done|]. split; [done|]. simpl.
  intros i (e & -> & He)%list_elem_of_fmap.
  apply elem_of_filter_list in He as [He Hrep].
  apply andb_prop in Hrep as [Hrep _].
  exists e. split; [done|]. split; [done|].
  apply list_elem_of_fmap. exists e. split; [done|].
  by apply elem_of_filter_list.
Qed.

Lemma text_alternatives_within_image_descriptions_witness :
  sample_catalog !! "text-alternatives"
    = Some (sample_rule "critical" "WCAG 1.1.1 - Non-text Content")
  /\ sample_catalog !! "image-descriptions"
    = Some (sample_rule "critical" "WCAG 1.1.1 - Non-text Content")
  /\ exists found1 found2,
       check_text_alternatives sample_catalog [bare_image] [] [] [] "" = Ok found1
       /\ check_image_descriptions sample_catalog [bare_image] [] [] [] "" = Ok found2
       /\ length found1 = 1%nat /\ length found2 = 1%nat.
Proof.
  assert (sample_catalog !! "text-alternatives"
          = Some (sample_rule "critical" "WCAG 1.1.1 - Non-text Content")) as H1
    by (vm_compute; reflexivity).
  assert (sample_catalog !! "image-descriptions"
          = Some (sample_rule "critical" "WCAG 1.1.1 - Non-text Content")) as H2
    by (vm_compute; reflexivity).
  split; [exact H1|]. split; [exact H2|].
  destruct (text_alternatives_within_image_descriptions sample_catalog _ _
              [bare_image] [] [] [] "" H1 H2) as (found1 & found2 & E1 & E2 & _).
  exists found1, found2. split; [exact E1|]. split; [exact E2|].
  vm_compute in E1, E2. inversion E1. inversion E2. split; reflexivity.
Defined.

(** X8: A scanning check reads its rule definition only when it reports an
    element: without the rule in the catalog it returns no finding on a
    collection that has nothing to report, and raises [KeyError] as soon
    as one element is to be reported. *)
Theorem scan_elements_rule_lookup_is_lazy (rules : catalog)
    (rule_id default_priority guideline : string)
    (reported : element -> bool) (message : element -> string) (elements : list element) :
  rules !! rule_id = None ->
  ((forall e, e ∈ elements -> reported e = false) ->
     scan_elements rules rule_id default_priority guideline reported message elements []
     = Ok [])
  /\ ((exists e, e ∈ elements /\ reported e = true) ->
     scan_elements rules rule_id default_priority guideline reported message elements []
     = Raise KeyError).
Proof.
  intros Hrule. rewrite (scan_elements_missing_rule _ _ _ _ _ _ _ Hrule). split.
  - intros Hnone. destruct (existsb reported elements) eqn:Hex; [|done].
    apply existsb_exists in Hex as (e & He & Hr).
    apply list_elem_of_In in He. rewrite Hnone in Hr by done. done.
  - intros (e & He & Hr).
    assert (existsb reported elements = true) as ->; [|done].
    apply existsb_exists. exists e. split; [by apply list_elem_of_In|done].
Qed.

Lemma scan_elements_rule_lookup_is_lazy_witness :
  (∅ : catalog) !! "image-descriptions" = None
  /\ check_image_descriptions ∅ [bare_image] [] [] [] "" = Raise KeyError
  /\ check_image_descriptions ∅ [square 44 44] [] [] [] "" = Ok [].
Proof.
  assert ((∅ : catalog) !! "image-descriptions" = None) as H by reflexivity.
  split; [exact H|]. split.
  - apply (proj2 (scan_elements_rule_lookup_is_lazy ∅ "image-descriptions" "critical"
                    "WCAG 1.1.1 - Non-text Content" _ _ [bare_image] H)).
    exists bare_image. split; [apply list_elem_of_singleton; reflexivity|reflexivity].
  - apply (proj1 (scan_elements_rule_lookup_is_lazy ∅ "image-descriptions" "critical"
                    "WCAG 1.1.1 - Non-text Content" _ _ [square 44 44] H)).
    intros e He. apply list_elem_of_singleton in He. rewrite He. reflexivity.
Defined.

Lemma check_target_size_loop_not_number rule rule_id guideline (min_size : value)
    (elements : list element) :
  (min_size = VNone \/ exists s, min_size = VStr s) ->
  forall issues,
    check_target_size_loop rule rule_id guideline min_size elements issues
    = if existsb (fun e => bool_decide (is_Some (el_bounds e)) && el_clickable e) elements
      then Raise TypeError else Ok issues.
Proof.
  intros Hmin. induction elements as [|e rest IH]; intros issues; simpl; [done|].
  destruct (el_bounds e) as [[[[x1 y1] x2] y2]|] eqn:Hb; simpl.
  - destruct (el_clickable e); simpl; [|apply IH].
    destruct Hmin as [->|[s ->]]; done.
  - apply IH.
Qed.

(** X9: Error behaviour of [_check_target_size]: the rule definition is read
    before the loop, so a missing rule raises [KeyError] even on an empty
    screen; a minimum size that is not a number ([null] or a string in
    the override file) raises [TypeError] as soon as one clickable
    element has bounds, and goes unnoticed otherwise. *)
Theorem target_size_errors (rules : catalog) (rule_id guideline : string)
    (all_elements : list element) :
  (rules !! rule_id = None ->
     _check_target_size rules all_elements rule_id guideline = Raise KeyError)
  /\ (forall rule min_size,
        rules !! rule_id = Some rule ->
        rule !! "min_size" = Some min_size ->
        (min_size = VNone \/ exists s, min_size = VStr s) ->
        ((exists e, e ∈ all_elements /\ is_Some (el_bounds e) /\ el_clickable e = true) ->
           _check_target_size rules all_elements rule_id guideline = Raise TypeError)
        /\ ((forall e, e ∈ all_elements -> is_Some (el_bounds e) -> el_clickable e = false) ->
           _check_target_size rules all_elements rule_id guideline = Ok [])).
Proof.
  unfold _check_target_size, rules_item. split.
  - by intros ->.
  - intros rule min_size -> Hmin Hbad. rewrite bind_Ok. unfold dict_get. rewrite Hmin.
    rewrite (check_target_size_loop_not_number _ _ _ _ _ Hbad). split.
    + intros (e & He & Hb & Hc).
      assert (existsb (fun e => bool_decide (is_Some (el_bounds e)) && el_clickable e)
                all_elements = true) as ->; [|done].
      apply existsb_exists. exists e. split; [by apply list_elem_of_In|].
      by rewrite bool_decide_eq_true_2, Hc.
    + intros Hnone.
      destruct (existsb _ all_elements) eqn:Hex; [|done].
      apply existsb_exists in Hex as (e & He & Hr).
      apply list_elem_of_In in He. apply andb_prop in Hr as [Hb Hc].
      apply bool_decide_eq_true in Hb. rewrite (Hnone e He Hb) in Hc. done.
Qed.

Lemma target_size_errors_witness :
  (∅ : catalog) !! "touch-target-size" = None
  /\ _check_target_size ∅ [] "touch-target-size" "WCAG 2.5.5 - Target Size (Enhanced)"
     = Raise KeyError
  /\ _check_target_size (merge_rules sample_catalog text_min_size) [square 50 50]
       "touch-target-size" "WCAG 2.5.5 - Target Size (Enhanced)" = Raise TypeError.
Proof.
  assert ((∅ : catalog) !! "touch-target-size" = None) as H by reflexivity.
  split; [exact H|]. split.
  - exact (proj1 (target_size_errors ∅ "touch-target-size" _ []) H).
  - refine (proj1 (proj2 (target_size_errors (merge_rules sample_catalog text_min_size)
                     "touch-target-size" _ [square 50 50])
                     ({[ "min_size" := VStr "44" ]} ∪ size_rule "high" "WCAG 2.5.5 - Target Size" 44)
                     (VStr "44") _ _ _) _).
    + vm_compute. reflexivity.
    + vm_compute. reflexivity.
    + right. exists "44". reflexivity.
    + exists (square 50 50). split; [apply list_elem_of_singleton; reflexivity|].
      split; [eexists; reflexivity|reflexivity].
Defined.

(** X10: The target-size checks are monotone in the configured minimum: an
    element reported under a rule with minimum [m1] is reported under any
    rule with a minimum [m2 >= m1] (with the default catalog, everything
    that [touch-target-size] reports at 44 is reported again by
    [enhanced-target-size] at 48). *)
Theorem target_size_monotone (rules : catalog) (rule1 rule2 : gmap string value)
    (id1 id2 guideline1 guideline2 : string) (m1 m2 : Z) (all_elements : list element) :
  rules !! id1 = Some rule1 -> rules !! id2 = Some rule2 ->
  dict_get rule1 "min_size" (VInt 44) = VInt m1 ->
  dict_get rule2 "min_size" (VInt 44) = VInt m2 ->
  m1 <= m2 ->
  exists found1 found2,
    _check_target_size rules all_elements id1 guideline1 = Ok found1
    /\ _check_target_size rules all_elements id2 guideline2 = Ok found2
    /\ forall i, i ∈ found1 ->
         exists e width height,
           e ∈ all_elements
           /\ i = target_size_issue rule1 id1 guideline1 (VInt m1) e width height
           /\ target_size_issue rule2 id2 guideline2 (VInt m2) e width height ∈ found2.
Proof.
  intros H1 H2 Hm1 Hm2 Hle. unfold _check_target_size, rules_item.
  rewrite H1, H2, !bind_Ok, Hm1, Hm2.
  destruct (check_target_size_loop_spec rule1 id1 guideline1 m1 all_elements [])
    as (found1 & Heq1 & Hf1).
  destruct (check_target_size_loop_spec rule2 id2 guideline2 m2 all_elements [])
    as (found2 & Heq2 & Hf2).
  exists found1, found2. split; [done|]. split; [done|].
  intros i (e & x1 & y1 & x2 & y2 & He & Hb & Hc & Hsz & ->)%Hf1.
  exists e, (x2 - x1), (y2 - y1). split; [done|]. split; [done|].
  apply Hf2. exists e, x1, y1, x2, y2. repeat split; try done. lia.
Qed.

Lemma target_size_monotone_witness :
  sample_catalog !! "touch-target-size" = Some (size_rule "high" "WCAG 2.5.5 - Target Size" 44)
  /\ sample_catalog !! "enhanced-target-size"
     = Some (size_rule "medium" "WCAG 2.5.5 - Target Size (Enhanced)" 48)
  /\ 44 <= 48
  /\ exists found1 found2,
       _check_target_size sample_catalog [square 43 44; square 46 46]
         "touch-target-size" "WCAG 2.5.5 - Target Size (Enhanced)" = Ok found1
       /\ _check_target_size sample_catalog [square 43 44; square 46 46]
            "enhanced-target-size" "WCAG 2.5.8 - Target Size (Minimum)" = Ok found2
       /\ length found1 = 1%nat /\ length found2 = 2%nat.
Proof.
  assert (sample_catalog !! "touch-target-size"
          = Some (size_rule "high" "WCAG 2.5.5 - Target Size" 44)) as H1
    by (vm_compute; reflexivity).
  assert (sample_catalog !! "enhanced-target-size"
          = Some (size_rule "medium" "WCAG 2.5.5 - Target Size (Enhanced)" 48)) as H2
    by (vm_compute; reflexivity).
  assert (44 <= 48) as Hle by lia.
  split; [exact H1|]. split; [exact H2|]. split; [exact Hle|].
  destruct (target_size_monotone sample_catalog _ _ "touch-target-size" "enhanced-target-size"
              "WCAG 2.5.5 - Target Size (Enhanced)" "WCAG 2.5.8 - Target Size (Minimum)"
              44 48 [square 43 44; square 46 46] H1 H2 eq_refl eq_refl Hle)
    as (found1 & found2 & E1 & E2 & _).
  exists found1, found2. split; [exact E1|]. split; [exact E2|].
  vm_compute in E1, E2. inversion E1. inversion E2. split; reflexivity.
Defined.

(** ** Overlapping elements *)

(** The finding that [check_overlapping_elements] builds on [elem1]. *)
Lemma overlapping_inner_found (rules : catalog) (rule : gmap string value) (elem1 : element)
    (others : list element) :
  rules !! "overlapping-elements" = Some rule ->
  forall issues,
  exists k,
    overlapping_inner rules elem1 others issues
    = Ok (issues ++ replicate k
            (scan_finding rule "overlapping-elements" "medium" "WCAG 2.5.1 - Pointer Gestures"
               (fun _ => "Clickable elements overlap and may cause touch errors") elem1))
    /\ ((0 < k)%nat <->
        exists elem2 b1 b2, elem2 ∈ others /\ el_bounds elem1 = Some b1
          /\ el_bounds elem2 = Some b2 /\ elements_overlap b1 b2 = true).
Proof.
  intros Hrule. induction others as [|e2 rest IH]; intros issues; simpl.
  - exists 0%nat. simpl. rewrite app_nil_r. split; [done|]. split; [lia|].
    by intros (? & ? & ? & ?%elem_of_nil & _).
  - assert (forall k,
      ((0 < k)%nat <-> exists elem2 b1 b2, elem2 ∈ rest /\ el_bounds elem1 = Some b1
          /\ el_bounds elem2 = Some b2 /\ elements_overlap b1 b2 = true) ->
      ~ (exists b1 b2, el_bounds elem1 = Some b1 /\ el_bounds e2 = Some b2
           /\ elements_overlap b1 b2 = true) ->
      ((0 < k)%nat <-> exists elem2 b1 b2, elem2 ∈ e2 :: rest /\ el_bounds elem1 = Some b1
          /\ el_bounds elem2 = Some b2 /\ elements_overlap b1 b2 = true)) as Hskip.
    { intros k Hk Hno. rewrite Hk. split.
      - intros (elem2 & b1 & b2 & Hin & Hrest). exists elem2, b1, b2.
        split; [by apply elem_of_cons; right|done].
      - intros (elem2 & b1 & b2 & [->|Hin]%elem_of_cons & Hb1 & Hb2 & Hov).
        + exfalso. apply Hno. by exists b1, b2.
        + by exists elem2, b1, b2. }
    destruct (el_bounds elem1) as [b1|] eqn:Hb1.
    + destruct (el_bounds e2) as [b2|] eqn:Hb2.
      * destruct (elements_overlap b1 b2) eqn:Hov.
        -- unfold rules_item. rewrite Hrule, bind_Ok.
           destruct (IH (issues ++ [ {| is_rule := "overlapping-elements";
                is_priority := dict_get rule "priority" (VStr "medium");
                is_message := "Clickable elements overlap and may cause touch errors";
                is_bounds := entry_of_bounds (Some b1);
                is_xpath := el_xpath elem1;
                is_resource_id := el_resource_id elem1;
                is_guideline := "WCAG 2.5.1 - Pointer Gestures" |} ])) as (k & Heq & Hk).
           exists (S k). rewrite Heq. split.
           ++ rewrite <- app_assoc. unfold scan_finding. rewrite Hb1. done.
           ++ split; [|lia]. intros _. exists e2, b1, b2.
              split; [by apply elem_of_cons; left|done].
        -- destruct (IH issues) as (k & Heq & Hk). exists k. split; [done|].
           apply Hskip; [done|]. intros (c1 & c2 & ? & ? & ?). congruence.
      * destruct (IH issues) as (k & Heq & Hk). exists k. split; [done|].
        apply Hskip; [done|]. intros (c1 & c2 & ? & ? & ?). congruence.
    + destruct (IH issues) as (k & Heq & Hk). exists k. split; [done|].
      apply Hskip; [done|]. intros (c1 & c2 & ? & ? & ?). congruence.
Qed.

Lemma overlapping_outer_found (rules : catalog) (rule : gmap string value)
    (elements : list element) :
  rules !! "overlapping-elements" = Some rule ->
  forall issues,
  exists found,
    overlapping_outer rules elements issues = Ok (issues ++ found)
    /\ forall i, i ∈ found <->
         exists (p q : nat) elem1 elem2 b1 b2,
           (p < q)%nat /\ elements !! p = Some elem1 /\ elements !! q = Some elem2
           /\ el_bounds elem1 = Some b1 /\ el_bounds elem2 = Some b2
           /\ elements_overlap b1 b2 = true
           /\ i = scan_finding rule "overlapping-elements" "medium"
                    "WCAG 2.5.1 - Pointer Gestures"
                    (fun _ => "Clickable elements overlap and may cause touch errors") elem1.
Proof.
  intros Hrule. induction elements as [|e1 rest IH]; intros issues; simpl.
  - exists []. rewrite app_nil_r. split; [done|]. intros i. split; [by intros ?%elem_of_nil|].
    by intros (p & q & ? & ? & ? & ? & _ & ? & _).
  - destruct (overlapping_inner_found rules rule e1 rest Hrule issues) as (k & Heq & Hk).
    rewrite Heq, bind_Ok.
    destruct (IH (issues ++ replicate k
                (scan_finding rule "overlapping-elements" "medium"
                   "WCAG 2.5.1 - Pointer Gestures"
                   (fun _ => "Clickable elements overlap and may cause touch errors") e1)))
      as (found & Heq' & Hfound).
    eexists. split; [by rewrite Heq', <- app_assoc|].
    intros i. rewrite elem_of_app, Hfound. split.
    + intros [Hrep|(p & q & elem1 & elem2 & b1 & b2 & Hpq & Hp & Hq & Hrest)].
      * apply elem_of_replicate in Hrep as [-> Hk0].
        assert (0 < k)%nat as Hpos by lia.
        apply Hk in Hpos as (elem2 & b1 & b2 & Hin & Hb1 & Hb2 & Hov).
        apply list_elem_of_lookup in Hin as [q Hq].
        exists 0%nat, (S q), e1, elem2, b1, b2. repeat split; try done. lia.
      * exists (S p), (S q), elem1, elem2, b1, b2. repeat split; try done; try lia.
        all: tauto.
    + intros (p & q & elem1 & elem2 & b1 & b2 & Hpq & Hp & Hq & Hb1 & Hb2 & Hov & ->).
      destruct p as [|p].
      * simpl in Hp. inversion Hp; subst elem1. left.
        apply elem_of_replicate. split; [done|].
        destruct q as [|q]; [lia|]. simpl in Hq.
        assert (0 < k)%nat; [|lia].
        apply Hk. exists elem2, b1, b2. split; [|done].
        apply list_elem_of_lookup. by exists q.
      * right. destruct q as [|q]; [lia|]. simpl in Hp, Hq.
        exists p, q, elem1, elem2, b1, b2. repeat split; try done. lia.
Qed.

(** X11: [check_overlapping_elements] reports the first element of every pair
    of clickable elements (taken in scan order) whose rectangles
    intersect, and nothing else; every finding carries a rectangle, so
    none of them can stop the deduplication pass. *)
Theorem overlapping_elements_pairs (rules : catalog) (rule : gmap string value)
    (all_elements clickable_elements focusable_elements form_elements : list element)
    (screenshot_file : string) :
  rules !! "overlapping-elements" = Some rule ->
  exists found,
    check_overlapping_elements rules all_elements clickable_elements focusable_elements
      form_elements screenshot_file = Ok found
    /\ (forall i, i ∈ found <->
         exists (p q : nat) elem1 elem2 b1 b2,
           (p < q)%nat /\ clickable_elements !! p = Some elem1
           /\ clickable_elements !! q = Some elem2
           /\ el_bounds elem1 = Some b1 /\ el_bounds elem2 = Some b2
           /\ elements_overlap b1 b2 = true
           /\ i = scan_finding rule "overlapping-elements" "medium"
                    "WCAG 2.5.1 - Pointer Gestures"
                    (fun _ => "Clickable elements overlap and may cause touch errors") elem1)
    /\ (forall i, i ∈ found -> exists b, is_bounds i = BoundsRect b).
Proof.
  intros Hrule. unfold check_overlapping_elements.
  destruct (overlapping_outer_found rules rule clickable_elements Hrule []) as (found & Heq & Hf).
  exists found. split; [done|]. split; [done|].
  intros i (p & q & elem1 & elem2 & b1 & b2 & _ & _ & _ & Hb1 & _ & _ & ->)%Hf.
  exists b1. simpl. by rewrite Hb1.
Qed.

Lemma overlapping_elements_pairs_witness :
  sample_catalog !! "overlapping-elements"
    = Some (sample_rule "medium" "WCAG 2.5.1 - Pointer Gestures")
  /\ exists found,
       check_overlapping_elements sample_catalog [] [square 10 10; square 20 20] [] [] ""
       = Ok found
       /\ length found = 1%nat.
Proof.
  assert (sample_catalog !! "overlapping-elements"
          = Some (sample_rule "medium" "WCAG 2.5.1 - Pointer Gestures")) as H
    by (vm_compute; reflexivity).
  split; [exact H|].
  destruct (overlapping_elements_pairs sample_catalog _ [] [square 10 10; square 20 20]
              [] [] "" H) as (found & E & _).
  exists found. split; [exact E|]. vm_compute in E. inversion E. reflexivity.
Defined.

(** ** What the deduplication pass keeps *)

Lemma dedup_loop_sublist (issues : list issue) :
  forall unique seen out,
    dedup_loop issues unique seen = Ok out ->
    exists kept,
      out = unique ++ kept /\ sublist kept issues
      /\ (forall i, i ∈ issues ->
            exists key, dedup_key i = Ok key
              /\ (key ∈ seen \/ exists j, j ∈ kept /\ dedup_key j = Ok key))
      /\ (forall (p : nat) i key,
            issues !! p = Some i -> dedup_key i = Ok key -> key ∉ seen ->
            (forall (q : nat) j, (q < p)%nat -> issues !! q = Some j -> dedup_key j <> Ok key) ->
            i ∈ kept).
Proof.
  induction issues as [|i rest IH]; intros unique seen out Hout; simpl in Hout.
  - inversion Hout; subst. exists []. rewrite app_nil_r.
    split; [done|]. split; [constructor|]. split; [by intros ? ?%elem_of_nil|].
    by intros p i key ?.
  - destruct (dedup_key i) as [key|e] eqn:Hkey; [|discriminate].
    rewrite bind_Ok in Hout. case_decide as Hseen.
    + destruct (IH _ _ _ Hout) as (kept & -> & Hsub & Hall & Hfirst).
      exists kept. split; [done|]. split; [by constructor|]. split.
      * intros j [->|Hj]%elem_of_cons; [exists key; by split; [|left]|by apply Hall].
      * intros p j k Hp Hk Hnot Hbefore. destruct p as [|p]; simpl in Hp.
        -- inversion Hp; subst j. congruence.
        -- apply (Hfirst p j k); try done.
           intros q j' Hq Hq'. apply (Hbefore (S q) j'); [lia|done].
    + destruct (IH _ _ _ Hout) as (kept & -> & Hsub & Hall & Hfirst).
      exists (i :: kept). split; [by rewrite <- app_assoc|].
      split; [by constructor|]. split.
      * intros j [->|Hj]%elem_of_cons.
        -- exists key. split; [done|]. right. exists i. split; [by apply elem_of_cons; left|done].
        -- destruct (Hall j Hj) as (k & Hk & [[Hin| ->%elem_of_singleton]%elem_of_union
                                              | (j' & Hj' & Hk')]).
           ++ exists k. split; [done|by left].
           ++ exists key. split; [done|]. right. exists i.
              split; [by apply elem_of_cons; left|done].
           ++ exists k. split; [done|]. right. exists j'.
              split; [by apply elem_of_cons; right|done].
      * intros p j k Hp Hk Hnot Hbefore. destruct p as [|p]; simpl in Hp.
        -- inversion Hp; subst j. apply elem_of_cons. by left.
        -- apply elem_of_cons. right. apply (Hfirst p j k); try done.
           ++ intros [Hin| ->%elem_of_singleton]%elem_of_union; [done|].
              apply (Hbefore 0%nat i); [lia|done|done].
           ++ intros q j' Hq Hq'. apply (Hbefore (S q) j'); [lia|done].
Qed.



(** ** Rule gating *)

Lemma run_rule_checks_app rules c screenshot_file
    (checks1 checks2 : list (string * check_method)) :
  forall issues,
    run_rule_checks rules c screenshot_file (checks1 ++ checks2) issues
    = (run_rule_checks rules c screenshot_file checks1 issues
       ≫= run_rule_checks rules c screenshot_file checks2).
Proof.
  induction checks1 as [|[rule_id check] rest IH]; intros issues; simpl; [done|].
  destruct (rule_enabled rules rule_id); [|apply IH].
  destruct (check rules _ _ _ _ _) as [[|i found]|e]; simpl; [apply IH|apply IH|done].
Qed.

Lemma rule_enabled_false (rules : catalog) (rule_id : string) :
  rule_enabled rules rule_id = false
  <-> exists rule v, rules !! rule_id = Some rule /\ rule !! "enabled" = Some v
                     /\ truthy v = false.
Proof.
  unfold rule_enabled, rule_field, dict_get. split.
  - destruct (rules !! rule_id) as [rule|]; simpl; [|by rewrite lookup_empty].
    destruct (rule !! "enabled") as [v|] eqn:Hv; [|done].
    intros Ht. by exists rule, v.
  - intros (rule & v & -> & Hv & Ht). simpl. by rewrite Hv.
Qed.

(** X12: A check runs unless the catalog holds its rule with an [enabled]
    entry that is false, [null], zero or empty; a rule that is absent
    from the catalog, or that has no such entry, counts as enabled. The
    check of a disabled rule is not called at all: whatever it would
    return or raise, the findings are those of the other checks. *)
Theorem disabled_rule_is_skipped (rules : catalog) (c : collected) (screenshot_file : string)
    (before after : list (string * check_method)) (rule_id : string) (check : check_method)
    (issues : list issue) :
  (rule_enabled rules rule_id = false
   <-> exists rule v, rules !! rule_id = Some rule /\ rule !! "enabled" = Some v
                      /\ truthy v = false)
  /\ (rule_enabled rules rule_id = false ->
      run_rule_checks rules c screenshot_file (before ++ (rule_id, check) :: after) issues
      = run_rule_checks rules c screenshot_file (before ++ after) issues).
Proof.
  split; [apply rule_enabled_false|].
  intros Hoff. rewrite !run_rule_checks_app.
  destruct (run_rule_checks rules c screenshot_file before issues) as [found|e]; [|done].
  rewrite !bind_Ok. simpl. by rewrite Hoff.
Qed.

Lemma disabled_rule_is_skipped_witness :
  rule_enabled (merge_rules sample_catalog labels_off) "missing-labels" = false
  /\ run_rule_checks (merge_rules sample_catalog labels_off)
       (collect_elements [unlabeled_node]) ""
       ([] ++ [("missing-labels", check_missing_labels)]) []
     = run_rule_checks (merge_rules sample_catalog labels_off)
         (collect_elements [unlabeled_node]) "" ([] ++ []) [].
Proof.
  assert (rule_enabled (merge_rules sample_catalog labels_off) "missing-labels" = false) as H
    by (vm_compute; reflexivity).
  split; [exact H|].
  exact (proj2 (disabled_rule_is_skipped (merge_rules sample_catalog labels_off)
                  (collect_elements [unlabeled_node]) "" [] [] "missing-labels"
                  check_missing_labels []) H).
Defined.

(** ** Overrides *)

Lemma rule_field_merge (default_rules custom_rules : catalog) (rule_id field : string)
    (dflt : value) :
  rule_field (merge_rules default_rules custom_rules) rule_id field dflt
  = match custom_rules !! rule_id ≫= (fun rule_config => rule_config !! field) with
    | Some v => v
    | None => rule_field default_rules rule_id field dflt
    end.
Proof.
  unfold rule_field, dict_get. rewrite merge_rules_lookup.
  destruct (custom_rules !! rule_id) as [rule_config|]; simpl; [|done].
  destruct (default_rules !! rule_id) as [old|]; simpl.
  - rewrite merged_field_lookup. by destruct (rule_config !! field).
  - destruct (rule_config !! field); [done|]. by rewrite lookup_empty.
Qed.

(** X13: An override replaces exactly the fields it names: every other field
    of a default rule, and every default rule it does not mention, is
    read as before. In particular a rule is switched off only by an
    override that gives it a false [enabled] entry, and no override can
    remove a default rule. *)
Theorem override_changes_named_fields_only (default_rules custom_rules : catalog)
    (rule_id : string) :
  (forall field dflt,
     rule_field (merge_rules default_rules custom_rules) rule_id field dflt
     = match custom_rules !! rule_id ≫= (fun rule_config => rule_config !! field) with
       | Some v => v
       | None => rule_field default_rules rule_id field dflt
       end)
  /\ rule_enabled (merge_rules default_rules custom_rules) rule_id
     = match custom_rules !! rule_id ≫= (fun rule_config => rule_config !! "enabled") with
       | Some v => truthy v
       | None => rule_enabled default_rules rule_id
       end
  /\ (is_Some (default_rules !! rule_id) ->
      is_Some (merge_rules default_rules custom_rules !! rule_id)).
Proof.
  split; [intros; apply rule_field_merge|]. split.
  - unfold rule_enabled. rewrite rule_field_merge.
    by destruct (custom_rules !! rule_id ≫= _).
  - intros [old Hold]. rewrite merge_rules_lookup, Hold.
    by destruct (custom_rules !! rule_id).
Qed.

Lemma override_changes_named_fields_only_witness :
  is_Some (sample_catalog !! "missing-labels")
  /\ is_Some (merge_rules sample_catalog labels_off !! "missing-labels")
  /\ rule_field (merge_rules sample_catalog labels_off) "missing-labels" "priority" VNone
     = VStr "critical".
Proof.
  assert (is_Some (sample_catalog !! "missing-labels")) as H
    by (vm_compute; eexists; reflexivity).
  split; [exact H|]. split.
  - exact (proj2 (proj2 (override_changes_named_fields_only sample_catalog labels_off
                           "missing-labels")) H).
  - rewrite (proj1 (override_changes_named_fields_only sample_catalog labels_off
                      "missing-labels")).
    vm_compute. reflexivity.
Defined.

(** ** Enrichment and deduplication *)

Lemma dedup_enriched_loop_fmap (rules : catalog) (issues : list issue) :
  forall unique seen,
    dedup_enriched_loop (add_wcag_details rules <$> issues)
      (add_wcag_details rules <$> unique) seen
    = result_map (fmap (add_wcag_details rules)) (dedup_loop issues unique seen).
Proof.
  induction issues as [|i rest IH]; intros unique seen; simpl; [done|].
  destruct (dedup_key i) as [key|e]; [|done]. rewrite !bind_Ok.
  case_decide; [apply IH|].
  rewrite <- IH. by rewrite fmap_app.
Qed.

(** X14: The enrichment loop and the deduplication pass commute: the keys
    read by the second are not touched by the first, so deduplicating
    the enriched findings gives the enriched deduplicated findings, and
    raises when the plain pass raises. *)
Theorem enrichment_commutes_with_dedup (rules : catalog) (issues : list issue) :
  dedup_enriched_loop (add_wcag_details rules <$> issues) [] ∅
  = result_map (fmap (add_wcag_details rules)) (deduplicate issues).
Proof. apply (dedup_enriched_loop_fmap rules issues []). Qed.

(** ** Findings name rules of the catalog *)

Lemma scan_elements_known rules rule_id default_priority guideline reported message
    (elements : list element) (found : list issue) :
  scan_elements rules rule_id default_priority guideline reported message elements []
  = Ok found ->
  Forall (fun i => is_Some (rules !! is_rule i)) found.
Proof.
  destruct (rules !! rule_id) as [rule|] eqn:Hrule.
  - rewrite (scan_elements_found _ _ _ _ _ _ _ _ Hrule). intros H. inversion H; subst.
    simpl. apply Forall_fmap, Forall_forall. intros e _. simpl. by rewrite Hrule.
  - rewrite (scan_elements_missing_rule _ _ _ _ _ _ _ Hrule).
    destruct (existsb reported elements); [done|]. intros H. by inversion H.
Qed.

Lemma check_target_size_loop_known rule rule_id guideline min_size (elements : list element) :
  forall issues out,
    check_target_size_loop rule rule_id guideline min_size elements issues = Ok out ->
    exists found, out = issues ++ found /\ Forall (fun i => is_rule i = rule_id) found.
Proof.
  induction elements as [|e rest IH]; intros issues out; simpl.
  - intros H. inversion H; subst. exists []. by rewrite app_nil_r.
  - destruct (el_bounds e) as [[[[x1 y1] x2] y2]|]; [|apply IH].
    destruct (el_clickable e); [|apply IH].
    destruct (too_small _ _ _) as [[|]|]; simpl; [|apply IH|done].
    intros (found & -> & Hf)%IH. eexists. rewrite <- app_assoc. split; [done|].
    by constructor.
Qed.

Lemma check_target_size_known rules all_elements rule_id guideline (found : list issue) :
  _check_target_size rules all_elements rule_id guideline = Ok found ->
  Forall (fun i => is_Some (rules !! is_rule i)) found.
Proof.
  unfold _check_target_size, rules_item.
  destruct (rules !! rule_id) as [rule|] eqn:Hrule; [|done]. rewrite bind_Ok.
  intros (found' & -> & Hf)%check_target_size_loop_known. simpl.
  eapply Forall_impl; [done|]. intros i ->. by rewrite Hrule.
Qed.

Lemma overlapping_inner_known rules elem1 (others : list element) :
  forall issues out,
    overlapping_inner rules elem1 others issues = Ok out ->
    exists found, out = issues ++ found
      /\ Forall (fun i => is_Some (rules !! is_rule i)) found.
Proof.
  induction others as [|e2 rest IH]; intros issues out; simpl.
  - intros H. inversion H; subst. exists []. by rewrite app_nil_r.
  - destruct (el_bounds elem1) as [b1|]; [|apply IH].
    destruct (el_bounds e2) as [b2|]; [|apply IH].
    destruct (elements_overlap b1 b2); [|apply IH].
    unfold rules_item.
    destruct (rules !! "overlapping-elements") as [rule|] eqn:Hrule; [|done].
    rewrite bind_Ok. intros (found & -> & Hf)%IH. eexists. rewrite <- app_assoc.
    split; [done|]. constructor; [|done]. simpl. by rewrite Hrule.
Qed.

Lemma overlapping_outer_known rules (elements : list element) :
  forall issues out,
    overlapping_outer rules elements issues = Ok out ->
    exists found, out = issues ++ found
      /\ Forall (fun i => is_Some (rules !! is_rule i)) found.
Proof.
  induction elements as [|e1 rest IH]; intros issues out; simpl.
  - intros H. inversion H; subst. exists []. by rewrite app_nil_r.
  - destruct (overlapping_inner rules e1 rest issues) as [issues'|] eqn:Hin; [|done].
    rewrite bind_Ok. apply overlapping_inner_known in Hin as (f1 & -> & Hf1).
    intros (f2 & -> & Hf2)%IH. exists (f1 ++ f2). rewrite <- app_assoc.
    split; [done|]. by apply Forall_app.
Qed.

Lemma check_focus_order_no_finding rules
    (all_elements clickable_elements focusable_elements form_elements : list element)
    (screenshot_file : string) :
  check_focus_order rules all_elements clickable_elements focusable_elements
    form_elements screenshot_file = Ok [].
Proof.
  unfold check_focus_order.
  pose proof (sort_by_key_sorted (with_bounds focusable_elements)) as Hs.
  destruct (sort_by_key (with_bounds focusable_elements)) as [|first rest]; [done|].
  by apply focus_order_loop_sorted.
Qed.

Lemma rule_checks_known (check_color_contrast : check_method) :
  reports_known_rules check_color_contrast ->
  Forall (fun rc => reports_known_rules rc.2) (rule_checks check_color_contrast).
Proof.
  intros Hcc. unfold rule_checks.
  repeat (apply Forall_cons_2 || apply Forall_nil_2); simpl;
    try done;
    try (intros ? ? ? ? ? ? ?; apply scan_elements_known);
    try (intros ? ? ? ? ? ? ? H; inversion H; constructor);
    try (intros ? ? ? ? ? ? ?; apply check_target_size_known).
  - intros rules a c f fo s found. rewrite check_focus_order_no_finding.
    intros H. inversion H. constructor.
  - intros rules a c f fo s found. unfold check_missing_labels.
    rewrite check_missing_labels_loop_scan. apply scan_elements_known.
  - intros rules a c f fo s found. unfold check_overlapping_elements.
    intros (found' & -> & Hf)%overlapping_outer_known. done.
Qed.

Lemma run_rule_checks_known rules c screenshot_file
    (checks : list (string * check_method)) :
  Forall (fun rc => reports_known_rules rc.2) checks ->
  forall issues out,
    Forall (fun i => is_Some (rules !! is_rule i)) issues ->
    run_rule_checks rules c screenshot_file checks issues = Ok out ->
    Forall (fun i => is_Some (rules !! is_rule i)) out.
Proof.
  induction 1 as [|[rule_id check] rest Hcheck _ IH]; intros issues out Hissues; simpl.
  - intros H. by inversion H; subst.
  - destruct (rule_enabled rules rule_id); [|by apply IH].
    destruct (check rules _ _ _ _ _) as [found|] eqn:Hfound; [|done].
    apply Hcheck in Hfound. rewrite bind_Ok.
    destruct found as [|i found]; [by apply IH|].
    apply IH. by apply Forall_app.
Qed.

Lemma distinct_from_keys (l : list issue) :
  forall seen, distinct_from seen l ->
    NoDup (dedup_key <$> l) /\ Forall (fun i => exists key, dedup_key i = Ok key /\ key ∉ seen) l.
Proof.
  induction l as [|i rest IH]; intros seen; simpl.
  - intros _. split; constructor.
  - intros (key & Hkey & Hseen & Hrest). destruct (IH _ Hrest) as [Hnd Hall]. split.
    + constructor; [|done]. intros (j & Hj & Hin)%list_elem_of_fmap.
      rewrite Forall_forall in Hall. destruct (Hall j Hin) as (k & Hk & Hnot).
      apply Hnot. rewrite Hkey in Hj. rewrite Hk in Hj. inversion Hj.
      apply elem_of_union. right. by apply elem_of_singleton.
    + constructor; [by exists key|].
      eapply Forall_impl; [done|]. intros j (k & Hk & Hnot). exists k.
      split; [done|]. intros Hin. apply Hnot. apply elem_of_union. by left.
Qed.

Lemma analyze_accessibility_passes (check_color_contrast : check_method)
    (rules : catalog) (nodes : list node) (screenshot_file : string)
    (out : list enriched_issue) :
  analyze_accessibility check_color_contrast rules nodes screenshot_file = Ok out ->
  exists issues unique,
    run_rule_checks rules (collect_elements nodes) screenshot_file
      (rule_checks check_color_contrast) [] = Ok issues
    /\ deduplicate issues = Ok unique
    /\ out = add_wcag_details rules <$> unique.
Proof.
  unfold analyze_accessibility.
  destruct (run_rule_checks _ _ _ _ _) as [issues|] eqn:Hrun; [|done].
  rewrite bind_Ok.
  change (dedup_enriched_loop (add_wcag_details rules <$> issues) [] ∅)
    with (dedup_enriched_loop (add_wcag_details rules <$> issues)
            (add_wcag_details rules <$> []) ∅).
  rewrite dedup_enriched_loop_fmap. unfold deduplicate.
  destruct (dedup_loop issues [] ∅) as [unique|] eqn:Hd; [|done]. simpl.
  intros H. inversion H; subst out. by exists issues, unique.
Qed.

Lemma analyze_accessibility_rules_known (check_color_contrast : check_method)
    (rules : catalog) (nodes : list node) (screenshot_file : string)
    (out : list enriched_issue) :
  reports_known_rules check_color_contrast ->
  analyze_accessibility check_color_contrast rules nodes screenshot_file = Ok out ->
  Forall (fun i => exists rule, rules !! is_rule (base i) = Some rule
                     /\ details i = Some (rule_details rule)) out.
Proof.
  intros Hcc (issues & unique & Hrun & Hd & ->)%analyze_accessibility_passes.
  apply run_rule_checks_known in Hrun; [|by apply rule_checks_known|constructor].
  destruct (dedup_loop_sublist _ _ _ _ Hd) as (kept & Heq & Hsub & _).
  simpl in Heq. subst kept.
  apply Forall_fmap, Forall_forall. intros i Hi. simpl.
  rewrite Forall_forall in Hrun.
  destruct (Hrun i) as [rule Hrule]; [by eapply elem_of_sublist|].
  exists rule. by rewrite Hrule.
Qed.

(** X16: What [analyze_accessibility] returns, when it returns: the findings
    have pairwise different (bounds, rule) keys and none has [None] for
    bounds; and, as long as the contrast check reports under a rule of
    the catalog like every other check, each finding names a rule of
    the catalog and carries the details of that rule, so that the
    guideline stored by the check is always replaced by the one of the
    catalog. *)
Theorem analyze_accessibility_findings (check_color_contrast : check_method)
    (rules : catalog) (nodes : list node) (screenshot_file : string)
    (out : list enriched_issue) :
  reports_known_rules check_color_contrast ->
  analyze_accessibility check_color_contrast rules nodes screenshot_file = Ok out ->
  NoDup (dedup_key <$> (base <$> out))
  /\ Forall (fun i =>
       is_bounds (base i) <> BoundsNone
       /\ exists rule, rules !! is_rule (base i) = Some rule
            /\ details i = Some (rule_details rule)
            /\ guideline_of i = dict_get rule "guideline" (VStr "")) out.
Proof.
  intros Hcc Hout.
  pose proof (analyze_accessibility_rules_known _ _ _ _ _ Hcc Hout) as Hknown.
  apply analyze_accessibility_passes in Hout as (issues & unique & _ & Hd & ->).
  destruct (dedup_loop_kept _ _ _ _ Hd) as (kept & Heq & Hdist).
  simpl in Heq. subst kept.
  apply distinct_from_keys in Hdist as [Hnd Hkeys].
  assert (forall l : list issue, base <$> (add_wcag_details rules <$> l) = l) as Hid.
  { intros l. induction l as [|x l IHl]; [done|]. by rewrite !fmap_cons, IHl. }
  split; [by rewrite Hid|].
  rewrite Forall_forall in Hknown. rewrite Forall_forall in Hkeys. apply Forall_forall. intros i Hi. split.
  - apply list_elem_of_fmap in Hi as (j & -> & Hj). simpl.
    destruct (Hkeys j Hj) as (key & Hkey & _).
    intros Hnone. by rewrite dedup_key_none in Hkey.
  - destruct (Hknown i Hi) as (rule & Hrule & Hdet).
    exists rule. split; [done|]. split; [done|]. unfold guideline_of. by rewrite Hdet.
Qed.

Lemma no_screenshot_reports_known_rules :
  reports_known_rules check_color_contrast_no_screenshot.
Proof.
  intros rules a c f fo s found. unfold check_color_contrast_no_screenshot.
  destruct (rules_item rules "color-contrast"); [|discriminate].
  intros H. inversion H. constructor.
Qed.

Lemma analyze_accessibility_findings_witness :
  reports_known_rules check_color_contrast_no_screenshot
  /\ exists out,
       analyze_accessibility check_color_contrast_no_screenshot sample_catalog
         [small_button] "" = Ok out
       /\ length out = 5%nat
       /\ NoDup (dedup_key <$> (base <$> out)).
Proof.
  split; [exact no_screenshot_reports_known_rules|].
  destruct (analyze_accessibility check_color_contrast_no_screenshot sample_catalog
              [small_button] "") as [out|e] eqn:H; [|vm_compute in H; discriminate].
  exists out. split; [reflexivity|]. split.
  - vm_compute in H. inversion H. reflexivity.
  - exact (proj1 (analyze_accessibility_findings check_color_contrast_no_screenshot
                    sample_catalog [small_button] "" out
                    no_screenshot_reports_known_rules H)).
Defined.

(** ** Coverage statistics *)

Lemma py_eq_refl (v : value) : py_eq v v = true.
Proof.
  destruct v as [|b|n|s]; simpl; [done|by destruct b|apply Z.eqb_refl|apply String.eqb_refl].
Qed.

Lemma set_add_spec (v : value) (s : list value) :
  NoDup s ->
  NoDup (set_add v s)
  /\ (forall w, w ∈ set_add v s -> w ∈ s \/ w = v)
  /\ (length (set_add v s) <= S (length s))%nat.
Proof.
  intros Hnd. unfold set_add. destruct (existsb (py_eq v) s) eqn:Hex.
  - split; [done|]. split; [by left|lia].
  - split; [|split].
    + apply NoDup_app. split; [done|]. split; [|apply NoDup_singleton].
      intros w Hw ->%list_elem_of_singleton.
      assert (existsb (py_eq v) s = true); [|congruence].
      apply existsb_exists. exists v. split; [by apply list_elem_of_In|apply py_eq_refl].
    + intros w [Hw|Hw%list_elem_of_singleton]%elem_of_app; [by left|by right].
    + rewrite length_app. simpl. lia.
Qed.

Lemma covered_guidelines_spec (issues : list enriched_issue) :
  NoDup (covered_guidelines issues)
  /\ (forall v, v ∈ covered_guidelines issues -> exists i, i ∈ issues /\ guideline_of i = v)
  /\ (length (covered_guidelines issues) <= length issues)%nat.
Proof.
  unfold covered_guidelines. induction issues as [|i l IH] using rev_ind.
  - split; [constructor|]. split; [by intros v ?%elem_of_nil|done].
  - rewrite foldl_app. simpl. destruct IH as (Hnd & Hin & Hlen).
    destruct (set_add_spec (guideline_of i) _ Hnd) as (Hnd' & Hin' & Hlen').
    split; [done|]. split.
    + intros v [Hv| ->]%Hin'.
      * destruct (Hin v Hv) as (j & Hj & Hg). exists j. split; [|done].
        apply elem_of_app. by left.
      * exists i. split; [|done]. apply elem_of_app. right. by apply list_elem_of_singleton.
    + rewrite length_app. simpl. lia.
Qed.

(** X17: The coverage summary counts the distinct guidelines of the findings.
    After [analyze_accessibility] every finding carries the guideline of
    its rule in the catalog, so [covered_rules] exceeds neither the
    number of findings nor the number of rules of the catalog, and
    [pending_rules] is at least [total_rules] minus the size of the
    catalog. *)
Theorem coverage_bounded_by_catalog (check_color_contrast : check_method)
    (rules : catalog) (nodes : list node) (screenshot_file : string)
    (out : list enriched_issue) :
  reports_known_rules check_color_contrast ->
  analyze_accessibility check_color_contrast rules nodes screenshot_file = Ok out ->
  let '(covered_rules, pending_rules) := coverage_summary out in
  0 <= covered_rules <= Z.of_nat (length out)
  /\ covered_rules <= Z.of_nat (size rules)
  /\ covered_rules + pending_rules = total_rules
  /\ total_rules - Z.of_nat (size rules) <= pending_rules.
Proof.
  intros Hcc Hout. unfold coverage_summary.
  pose proof (analyze_accessibility_rules_known _ _ _ _ _ Hcc Hout) as Hknown.
  destruct (covered_guidelines_spec out) as (Hnd & Hin & Hlen).
  assert (length (covered_guidelines out) <= size rules)%nat as Hsize.
  { rewrite <- length_map_to_list. rewrite <- (length_fmap
      (fun kr : string * gmap string value => dict_get kr.2 "guideline" (VStr ""))
      (map_to_list rules)).
    apply submseteq_length, NoDup_submseteq; [done|].
    intros v Hv. destruct (Hin v Hv) as (i & Hi & <-).
    rewrite Forall_forall in Hknown.
    destruct (Hknown i Hi) as (rule & Hrule & Hdet).
    apply list_elem_of_fmap. exists (is_rule (base i), rule).
    split; [unfold guideline_of; by rewrite Hdet|].
    by apply elem_of_map_to_list. }
  lia.
Qed.

Lemma coverage_bounded_by_catalog_witness :
  reports_known_rules check_color_contrast_no_screenshot
  /\ exists out,
       analyze_accessibility check_color_contrast_no_screenshot sample_catalog
         [small_button] "" = Ok out
       /\ coverage_summary out = (4, 116)
       /\ fst (coverage_summary out) <= Z.of_nat (size sample_catalog).
Proof.
  split; [exact no_screenshot_reports_known_rules|].
  destruct (analyze_accessibility check_color_contrast_no_screenshot sample_catalog
              [small_button] "") as [out|e] eqn:H; [|vm_compute in H; discriminate].
  exists out. split; [reflexivity|].
  pose proof (coverage_bounded_by_catalog check_color_contrast_no_screenshot
                sample_catalog [small_button] "" out
                no_screenshot_reports_known_rules H) as Hb.
  vm_compute in H. inversion H; subst out. clear H. split.
  - vm_compute. reflexivity.
  - destruct (coverage_summary _) as [covered pending]. simpl. tauto.
Defined.

(** ** Order of the findings and the score *)




(** ** Score class *)

Lemma div_le_iff (N t k : Z) : 0 < t -> N / t <= k <-> N < (k + 1) * t.
Proof.
  intros Ht. split.
  - intros Hle. destruct (Z.lt_ge_cases N ((k + 1) * t)) as [|Hge]; [done|].
    assert (k + 1 <= N / t) by (apply Z.div_le_lower_bound; lia). lia.
  - intros Hlt. assert (N / t < k + 1) by (apply Z.div_lt_upper_bound; lia). lia.
Qed.

(** X19: The class of the score card is decided by the mean weight of the
    findings (weights 3, 2, 1, 0.5 and 0): excellent below 0.55, good
    below 1.55, poor below 2.55, critical from there on. In doubled
    weights [W] over [t] findings the thresholds are [10 W < 11 t],
    [31 t] and [51 t]. *)
Theorem score_class_by_mean_weight (issues : list issue) :
  issues <> [] -> Z.of_nat (length issues) < max_findings ->
  let W := weight2_sum issues in
  let t := Z.of_nat (length issues) in
  exists score,
    audit_score issues = Ok score
    /\ (score_class score = "score-excellent" <-> 10 * W < 11 * t)
    /\ (score_class score = "score-good" <-> 11 * t <= 10 * W < 31 * t)
    /\ (score_class score = "score-poor" <-> 31 * t <= 10 * W < 51 * t)
    /\ (score_class score = "score-critical" <-> 51 * t <= 10 * W).
Proof.
  intros Hne Hlen W t.
  assert (0 < t) as Ht by (unfold t; destruct issues; [done|simpl; lia]).
  rewrite audit_score_exact by done. fold W t.
  destruct (Z.eqb_spec t 0) as [|_]; [lia|].
  eexists. split; [done|].
  pose proof (div_le_iff (10 * W) t 10 Ht) as H10.
  pose proof (div_le_iff (10 * W) t 30 Ht) as H30.
  pose proof (div_le_iff (10 * W) t 50 Ht) as H50.
  set (q := 10 * W / t) in *. clearbody q.
  unfold score_class.
  destruct (Z.leb_spec 90 (Z.max 0 (100 - q)));
    [|destruct (Z.leb_spec 70 (Z.max 0 (100 - q)));
      [|destruct (Z.leb_spec 50 (Z.max 0 (100 - q)))]];
    repeat split; intros; try done; try lia.
Qed.

Lemma score_class_by_mean_weight_witness :
  [finding "critical"; finding "low"] <> []
  /\ Z.of_nat (length [finding "critical"; finding "low"]) < max_findings
  /\ exists score,
       audit_score [finding "critical"; finding "low"] = Ok score
       /\ score_class score = "score-poor".
Proof.
  assert ([finding "critical"; finding "low"] <> []) as H1 by discriminate.
  assert (Z.of_nat (length [finding "critical"; finding "low"]) < max_findings) as H2
    by (vm_compute; reflexivity).
  split; [exact H1|]. split; [exact H2|].
  destruct (score_class_by_mean_weight [finding "critical"; finding "low"] H1 H2)
    as (score & E & _ & _ & Hpoor & _).
  exists score. split; [exact E|]. apply Hpoor.
  split; [vm_compute; discriminate|vm_compute; reflexivity].
Defined.

(** ** Highlight geometry and colours *)





(** ** Grouping by rule *)

Lemma append_instance_entries (rule : string) (i : issue)
    (f f' : string -> rule_group) (keys : list string) :
  NoDup keys ->
  f' rule = add_instance i (f rule) ->
  (forall k, k <> rule -> f' k = f k) ->
  append_instance rule i ((fun k => (k, f k)) <$> keys) = (fun k => (k, f' k)) <$> keys.
Proof.
  intros Hnd Hrule Hother. induction keys as [|k rest IH]; [done|].
  apply NoDup_cons in Hnd as [Hk Hnd]. rewrite !fmap_cons. simpl.
  case_bool_decide as Hkr.
  - subst k. rewrite Hrule. f_equal.
    apply list_fmap_ext. intros idx k' Hin. f_equal. symmetry. apply Hother.
    intros Heq. subst k'. apply Hk. by eapply list_elem_of_lookup_2.
  - rewrite Hother by done. f_equal. by apply IH.
Qed.

Lemma rules_in_order_snoc (l : list issue) (i : issue) :
  rules_in_order (l ++ [i])
  = if bool_decide (is_rule i ∈ rules_in_order l) then rules_in_order l
    else rules_in_order l ++ [is_rule i].
Proof.
  unfold rules_in_order. rewrite fmap_app, reverse_app. simpl.
  destruct (decide_rel elem_of (is_rule i) (reverse (is_rule <$> l))) as [Hin|Hin].
  - rewrite bool_decide_eq_true_2; [done|].
    by rewrite elem_of_reverse, elem_of_remove_dups.
  - rewrite bool_decide_eq_false_2; [by rewrite reverse_cons|].
    by rewrite elem_of_reverse, elem_of_remove_dups.
Qed.

Lemma elem_of_rules_in_order (l : list issue) (rule : string) :
  rule ∈ rules_in_order l <-> exists i, i ∈ l /\ is_rule i = rule.
Proof.
  unfold rules_in_order.
  rewrite elem_of_reverse, elem_of_remove_dups, elem_of_reverse, list_elem_of_fmap.
  split; intros (i & ? & ?); by exists i.
Qed.

Lemma NoDup_rules_in_order (l : list issue) : NoDup (rules_in_order l).
Proof. unfold rules_in_order. rewrite reverse_Permutation. apply NoDup_remove_dups. Qed.

Lemma rule_instances_snoc (rule : string) (l : list issue) (i : issue) :
  rule_instances rule (l ++ [i])
  = rule_instances rule l ++ (if bool_decide (is_rule i = rule) then [i] else []).
Proof. unfold rule_instances. by rewrite List.filter_app. Qed.

Lemma rule_instances_nil (rule : string) (l : list issue) :
  rule_instances rule l = [] <-> forall i, i ∈ l -> is_rule i <> rule.
Proof.
  unfold rule_instances. induction l as [|j rest IH]; simpl.
  - split; [by intros _ ? ?%elem_of_nil|done].
  - case_bool_decide as Hj.
    + split; [done|]. intros H. exfalso. apply (H j); [by apply elem_of_cons; left|done].
    + rewrite IH. split.
      * intros H i [->|Hi]%elem_of_cons; [done|by apply H].
      * intros H i Hi. apply H. by apply elem_of_cons; right.
Qed.

(** The dictionary built by [group_issues_by_rule], entry by entry. *)
Lemma group_issues_by_rule_entries (rules : catalog) (issues_list : list issue) :
  group_issues_by_rule rules issues_list
  = (fun rule => (rule, group_entry rules issues_list rule)) <$> rules_in_order issues_list.
Proof.
  unfold group_issues_by_rule.
  induction issues_list as [|i l IH] using rev_ind; [done|].
  rewrite foldl_app. simpl. rewrite IH. unfold group_step.
  rewrite <- list_fmap_compose. simpl.
  replace ((fun rule : string => rule) <$> rules_in_order l) with (rules_in_order l)
    by (by rewrite list_fmap_id).
  rewrite rules_in_order_snoc.
  case_bool_decide as Hin.
  - apply append_instance_entries; [apply NoDup_rules_in_order| |].
    + unfold group_entry, add_instance. simpl.
      rewrite rule_instances_snoc, bool_decide_eq_true_2 by done.
      f_equal. destruct (rule_instances (is_rule i) l) eqn:Hri; [|done].
      apply elem_of_rules_in_order in Hin as (j & Hj & Hrule).
      exfalso. eapply rule_instances_nil; done.
    + intros k Hk. unfold group_entry.
      rewrite rule_instances_snoc, bool_decide_eq_false_2 by done.
      by rewrite app_nil_r.
  - assert (rule_instances (is_rule i) l = []) as Hnil.
    { apply rule_instances_nil. intros j Hj Hrule. apply Hin.
      apply elem_of_rules_in_order. by exists j. }
    set (f := fun k => if bool_decide (k = is_rule i) then new_group rules i
                       else group_entry rules l k).
    assert (((fun rule => (rule, group_entry rules l rule)) <$> rules_in_order l)
              ++ [(is_rule i, new_group rules i)]
            = (fun k => (k, f k)) <$> (rules_in_order l ++ [is_rule i])) as ->.
    { rewrite fmap_app. simpl. unfold f at 2. rewrite bool_decide_eq_true_2 by done.
      f_equal. apply list_fmap_ext. intros idx k Hk. unfold f.
      rewrite bool_decide_eq_false_2; [done|].
      intros Heq. subst k. apply Hin. by eapply list_elem_of_lookup_2. }
    apply append_instance_entries.
    + apply NoDup_app. split; [apply NoDup_rules_in_order|]. split; [|apply NoDup_singleton].
      intros k Hk ->%list_elem_of_singleton. done.
    + unfold f. rewrite bool_decide_eq_true_2 by done.
      unfold group_entry, add_instance, new_group. simpl.
      rewrite rule_instances_snoc, bool_decide_eq_true_2, Hnil by done. done.
    + intros k Hk. unfold f. rewrite bool_decide_eq_false_2 by done.
      unfold group_entry. rewrite rule_instances_snoc, bool_decide_eq_false_2 by done.
      by rewrite app_nil_r.
Qed.

Lemma rule_instances_cons (rule : string) (i : issue) (l : list issue) :
  rule_instances rule (i :: l)
  = if bool_decide (is_rule i = rule) then i :: rule_instances rule l
    else rule_instances rule l.
Proof. reflexivity. Qed.

Lemma sum_rule_instances_cons (keys : list string) (i : issue) (l : list issue) :
  NoDup keys ->
  sum_list ((fun rule => length (rule_instances rule (i :: l))) <$> keys)
  = ((if bool_decide (is_rule i ∈ keys) then 1 else 0)
     + sum_list ((fun rule => length (rule_instances rule l)) <$> keys))%nat.
Proof.
  induction keys as [|k ks IH]; intros Hnd.
  - rewrite bool_decide_eq_false_2; [done|]. apply not_elem_of_nil.
  - apply NoDup_cons in Hnd as [Hk Hnd]. rewrite !fmap_cons.
    cbn [sum_list sum_list_with]. rewrite IH by done. rewrite rule_instances_cons.
    destruct (decide (is_rule i = k)) as [Heq|Hne].
    + rewrite (bool_decide_eq_true_2 (is_rule i = k)) by done.
      rewrite (bool_decide_eq_true_2 (is_rule i ∈ k :: ks)) by (apply elem_of_cons; by left).
      rewrite (bool_decide_eq_false_2 (is_rule i ∈ ks)) by (by rewrite Heq).
      simpl. lia.
    + rewrite (bool_decide_eq_false_2 (is_rule i = k)) by done.
      destruct (decide (is_rule i ∈ ks)) as [Hin|Hin].
      * rewrite (bool_decide_eq_true_2 (is_rule i ∈ ks)) by done.
        rewrite (bool_decide_eq_true_2 (is_rule i ∈ k :: ks)) by (apply elem_of_cons; by right).
        lia.
      * rewrite (bool_decide_eq_false_2 (is_rule i ∈ ks)) by done.
        rewrite (bool_decide_eq_false_2 (is_rule i ∈ k :: ks)); [lia|].
        intros [?|?]%elem_of_cons; done.
Qed.

Lemma sum_rule_instances (keys : list string) (l : list issue) :
  NoDup keys -> (forall i, i ∈ l -> is_rule i ∈ keys) ->
  sum_list ((fun rule => length (rule_instances rule l)) <$> keys) = length l.
Proof.
  intros Hnd. induction l as [|i rest IH]; intros Hcover.
  - clear Hnd Hcover. induction keys as [|k ks IHk]; [done|]. exact IHk.
  - rewrite sum_rule_instances_cons by done.
    rewrite bool_decide_eq_true_2 by (apply Hcover, elem_of_cons; by left).
    rewrite IH by (intros j Hj; apply Hcover, elem_of_cons; by right). done.
Qed.

(** X20: [group_issues_by_rule] builds one entry per rule id, in the order in
    which the rules first occur; the entry of a rule holds exactly the
    findings of that rule, in scan order, and takes its priority from
    the first of them and its texts from the catalog. *)
Theorem group_issues_by_rule_spec (rules : catalog) (issues_list : list issue) :
  let grouped := group_issues_by_rule rules issues_list in
  grouped.*1 = rules_in_order issues_list
  /\ NoDup grouped.*1
  /\ (forall rule, rule ∈ grouped.*1 <-> exists i, i ∈ issues_list /\ is_rule i = rule)
  /\ (forall rule group, (rule, group) ∈ grouped ->
        group = group_entry rules issues_list rule
        /\ exists first others,
             gr_instances group = first :: others
             /\ gr_priority group = is_priority first
             /\ first :: others
                = List.filter (fun i => bool_decide (is_rule i = rule)) issues_list).
Proof.
  simpl. rewrite group_issues_by_rule_entries.
  assert (((fun rule => (rule, group_entry rules issues_list rule))
             <$> rules_in_order issues_list).*1 = rules_in_order issues_list) as Hkeys.
  { rewrite <- list_fmap_compose. simpl. apply list_fmap_id. }
  rewrite Hkeys. split; [done|]. split; [apply NoDup_rules_in_order|].
  split; [apply elem_of_rules_in_order|].
  intros rule group (k & Heq & Hk)%list_elem_of_fmap. inversion Heq; subst. clear Heq.
  split; [done|]. unfold group_entry. simpl.
  destruct (rule_instances k issues_list) as [|first others] eqn:Hri.
  - apply elem_of_rules_in_order in Hk as (j & Hj & Hrule).
    exfalso. eapply rule_instances_nil; done.
  - by exists first, others.
Qed.

Lemma group_issues_by_rule_spec_witness :
  ("touch-target-size",
   group_entry sample_catalog [finding "high"; square_finding; finding "low"]
     "touch-target-size")
    ∈ group_issues_by_rule sample_catalog [finding "high"; square_finding; finding "low"]
  /\ (group_issues_by_rule sample_catalog [finding "high"; square_finding; finding "low"]).*1
     = ["missing-labels"; "touch-target-size"]
  /\ exists first others,
       gr_instances (group_entry sample_catalog
                       [finding "high"; square_finding; finding "low"] "touch-target-size")
       = first :: others.
Proof.
  assert (("touch-target-size",
           group_entry sample_catalog [finding "high"; square_finding; finding "low"]
             "touch-target-size")
            ∈ group_issues_by_rule sample_catalog
                [finding "high"; square_finding; finding "low"]) as H.
  { vm_compute. apply list_elem_of_further, list_elem_of_here. }
  split; [exact H|]. split; [vm_compute; reflexivity|].
  destruct (proj2 (proj2 (proj2 (group_issues_by_rule_spec sample_catalog
              [finding "high"; square_finding; finding "low"]))) _ _ H)
    as (_ & first & others & E & _).
  exists first, others. exact E.
Defined.

(** X21: The groups partition the findings: the instance lists of the groups
    add up to the whole list, and within the section of one priority of
    the report every group carries that priority. *)
Theorem groups_partition_findings (rules : catalog) (issues : list issue)
    (priority : string) :
  sum_list ((fun entry => length (gr_instances entry.2))
              <$> group_issues_by_rule rules issues) = length issues
  /\ (forall rule group,
        (rule, group) ∈ group_issues_by_rule rules (pr_issues priority issues) ->
        gr_priority group = VStr priority
        /\ Forall (fun i => is_priority i = VStr priority) (gr_instances group)).
Proof.
  rewrite !group_issues_by_rule_entries. split.
  - rewrite <- list_fmap_compose. simpl.
    apply sum_rule_instances; [apply NoDup_rules_in_order|].
    intros i Hi. apply elem_of_rules_in_order. by exists i.
  - intros rule group (k & Heq & Hk)%list_elem_of_fmap. inversion Heq; subst. clear Heq.
    assert (Forall (fun i => is_priority i = VStr priority)
              (rule_instances k (pr_issues priority issues))) as Hall.
    { apply Forall_forall. intros i Hi.
      unfold rule_instances, pr_issues in Hi.
      apply elem_of_filter_list in Hi as [Hi _].
      apply elem_of_filter_list in Hi as [_ Hp].
      unfold has_priority in Hp. by apply bool_decide_eq_true in Hp. }
    split; [|done]. unfold group_entry. simpl.
    destruct (rule_instances k (pr_issues priority issues)) as [|first others] eqn:Hri.
    + apply elem_of_rules_in_order in Hk as (j & Hj & Hrule).
      exfalso. eapply rule_instances_nil; done.
    + simpl. by inversion Hall.
Qed.

Lemma groups_partition_findings_witness :
  ("missing-labels",
   group_entry sample_catalog
     (pr_issues "high" [finding "high"; square_finding; finding "low"]) "missing-labels")
    ∈ group_issues_by_rule sample_catalog
        (pr_issues "high" [finding "high"; square_finding; finding "low"])
  /\ gr_priority (group_entry sample_catalog
       (pr_issues "high" [finding "high"; square_finding; finding "low"]) "missing-labels")
     = VStr "high".
Proof.
  assert (("missing-labels",
           group_entry sample_catalog
             (pr_issues "high" [finding "high"; square_finding; finding "low"])
             "missing-labels")
            ∈ group_issues_by_rule sample_catalog
                (pr_issues "high" [finding "high"; square_finding; finding "low"])) as H.
  { vm_compute. apply list_elem_of_here. }
  split; [exact H|].
  exact (proj1 (proj2 (groups_partition_findings sample_catalog
                         [finding "high"; square_finding; finding "low"] "high") _ _ H)).
Defined.
